(** * glimesh-bridge: the relay between a Glimesh chat socket and Kilovolt

    A shallow embedding of [main.go] and a verification of the relay's
    documented behaviour against it.

    Conventions of the embedding.
    - A Go [string] is its sequence of bytes, [list ascii].  A Go string
      literal is written [go "..."], with the apostrophe standing for the
      double quote of the Go text (no literal of [main.go] holds an
      apostrophe).
    - A Go [int] is a [Z]; the one subtraction of the program that can leave
      the range of the machine integer is wrapped explicitly ([wrap_int]).
    - A slice is the list of its elements; lengths are [Z.of_nat (length _)].
    - Calls that leave the process (Kilovolt, the websocket, the OAuth
      endpoint) are recorded in a [World] and their results are supplied by
      the caller of the model, one outcome per call. *)

From Stdlib Require Import ZArith Ascii String List Lia Bool.
From stdpp Require Import base tactics option list strings gmap pretty.

Local Open Scope Z_scope.

(** ** Bytes and literals *)

Abbreviation bytes := (list ascii).

Definition byte_val (c : ascii) : Z := Z.of_N (N_of_ascii c).

Definition dquote : ascii := "034"%char.
Definition backslash : ascii := "092"%char.
Definition apostrophe : ascii := "039"%char.

Definition go_char (c : ascii) : ascii :=
  if Ascii.eqb c apostrophe then dquote else c.

(** [go lit]: the bytes of the Go literal whose text is [lit] with every
    apostrophe read as a double quote. *)
Definition go (lit : string) : bytes := map go_char (list_ascii_of_string lit).

(** [len(s)], on byte strings and slices. *)
Definition len {A} (s : list A) : Z := Z.of_nat (length s).

(** ** Package [unicode/utf8] *)

Module utf8.

Definition RuneError : Z := 0xFFFD.
Definition RuneSelf : Z := 0x80.
Definition UTFMax : Z := 4.

Definition maskx : Z := 0x3F.
Definition mask2 : Z := 0x1F.
Definition mask3 : Z := 0x0F.
Definition mask4 : Z := 0x07.
Definition locb : Z := 0x80.
Definition hicb : Z := 0xBF.

(* Size and accept-range information of a first byte, the entries of the
   table [first]. *)
Definition xx : Z := 0xF1.
Definition as_ : Z := 0xF0.
Definition s1 : Z := 0x02.
Definition s2 : Z := 0x13.
Definition s3 : Z := 0x03.
Definition s4 : Z := 0x23.
Definition s5 : Z := 0x34.
Definition s6 : Z := 0x04.
Definition s7 : Z := 0x44.

Definition first (b : Z) : Z :=
  if b <? 0x80 then as_
  else if b <? 0xC2 then xx
  else if b <? 0xE0 then s1
  else if b =? 0xE0 then s2
  else if b <? 0xED then s3
  else if b =? 0xED then s4
  else if b <? 0xF0 then s3
  else if b =? 0xF0 then s5
  else if b <? 0xF4 then s6
  else if b =? 0xF4 then s7
  else xx.

(* [acceptRanges[i]] as the pair (lo, hi). *)
Definition acceptRanges (i : Z) : Z * Z :=
  if i =? 0 then (locb, hicb)
  else if i =? 1 then (0xA0, hicb)
  else if i =? 2 then (locb, 0x9F)
  else if i =? 3 then (0x90, hicb)
  else if i =? 4 then (locb, 0x8F)
  else (0, 0).

(** [DecodeRuneInString]: the rune at the head of [s] and its width in
    bytes; [(RuneError, 0)] on the empty string and [(RuneError, 1)] on an
    encoding that is not valid. *)
Definition DecodeRuneInString (s : bytes) : Z * nat :=
  match s with
  | [] => (RuneError, 0%nat)
  | c0 :: t0 =>
    let b0 := byte_val c0 in
    let x := first b0 in
    if as_ <=? x then
      (* the mask-and-or of the source: the byte itself for [as],
         RuneError for [xx] *)
      ((if Z.testbit x 0 then RuneError else b0), 1%nat)
    else
      let sz := Z.land x 7 in
      let accept := acceptRanges (Z.shiftr x 4) in
      if len s <? sz then (RuneError, 1%nat)
      else
        match t0 with
        | [] => (RuneError, 1%nat)
        | c1 :: t1 =>
          let b1 := byte_val c1 in
          if (b1 <? fst accept) || (snd accept <? b1) then (RuneError, 1%nat)
          else if sz <=? 2 then
            (Z.lor (Z.shiftl (Z.land b0 mask2) 6) (Z.land b1 maskx), 2%nat)
          else
            match t1 with
            | [] => (RuneError, 1%nat)
            | c2 :: t2 =>
              let b2 := byte_val c2 in
              if (b2 <? locb) || (hicb <? b2) then (RuneError, 1%nat)
              else if sz <=? 3 then
                (Z.lor (Z.lor (Z.shiftl (Z.land b0 mask3) 12)
                              (Z.shiftl (Z.land b1 maskx) 6))
                       (Z.land b2 maskx), 3%nat)
              else
                match t2 with
                | [] => (RuneError, 1%nat)
                | c3 :: _ =>
                  let b3 := byte_val c3 in
                  if (b3 <? locb) || (hicb <? b3) then (RuneError, 1%nat)
                  else
                    (Z.lor (Z.lor (Z.lor (Z.shiftl (Z.land b0 mask4) 18)
                                         (Z.shiftl (Z.land b1 maskx) 12))
                                  (Z.shiftl (Z.land b2 maskx) 6))
                           (Z.land b3 maskx), 4%nat)
                end
            end
        end
  end.

(** [RuneStart]: the byte is not a continuation byte. *)
Definition RuneStart (b : Z) : bool := negb (Z.land b 0xC0 =? 0x80).

(** [s[i]] for an index inside the string (0 stands in outside it, where
    the source never reads). *)
Definition at_index (s : bytes) (i : Z) : Z :=
  byte_val (nth (Z.to_nat i) s "000"%char).

(** The loop [for start--; start >= lim; start-- { if RuneStart(s[start])
    { break } }] of [DecodeLastRuneInString], entered with [start] already
    decremented; it runs at most [UTFMax - 1] times before [start < lim]. *)
Fixpoint rune_start_back (fuel : nat) (s : bytes) (start lim : Z) : Z :=
  match fuel with
  | O => start
  | S fuel' =>
    if start <? lim then start
    else if RuneStart (at_index s start) then start
    else rune_start_back fuel' s (start - 1) lim
  end.

(** [DecodeLastRuneInString]: the last rune of [s] and its width. *)
Definition DecodeLastRuneInString (s : bytes) : Z * nat :=
  let end_ := len s in
  if end_ =? 0 then (RuneError, 0%nat)
  else
    let start := end_ - 1 in
    let r := at_index s start in
    if r <? RuneSelf then (r, 1%nat)
    else
      let lim := Z.max (end_ - UTFMax) 0 in
      let start := rune_start_back (Z.to_nat UTFMax) s (start - 1) lim in
      let start := if start <? 0 then 0 else start in
      let '(r, size) := DecodeRuneInString (drop (Z.to_nat start) s) in
      if start + Z.of_nat size =? end_ then (r, size) else (RuneError, 1%nat).

End utf8.

(** ** Package [unicode] *)

Module unicode.

Definition MaxLatin1 : Z := 0xFF.

(* The ranges of [White_Space] above Latin-1. *)
Definition White_Space_excluding_Latin (r : Z) : bool :=
  (r =? 0x1680) || ((0x2000 <=? r) && (r <=? 0x200a))
  || ((0x2028 <=? r) && (r <=? 0x2029)) || (r =? 0x202f)
  || (r =? 0x205f) || (r =? 0x3000).

Definition IsSpace (r : Z) : bool :=
  if (0 <=? r) && (r <=? MaxLatin1) then
    (r =? 9) || (r =? 10) || (r =? 11) || (r =? 12) || (r =? 13)
    || (r =? 32) || (r =? 0x85) || (r =? 0xA0)
  else White_Space_excluding_Latin r.

End unicode.

(** ** Package [strings] *)

Module strings.

(** [HasPrefix]. *)
Fixpoint HasPrefix (s prefix : bytes) {struct prefix} : bool :=
  match prefix, s with
  | [], _ => true
  | p :: prefix', c :: s' => Ascii.eqb p c && HasPrefix s' prefix'
  | _ :: _, [] => false
  end.

(** [Index]: the index of the first instance of [substr] in [s], or -1. *)
Fixpoint Index (s substr : bytes) : Z :=
  if HasPrefix s substr then 0
  else
    match s with
    | [] => -1
    | _ :: s' => let i := Index s' substr in if i <? 0 then -1 else i + 1
    end.

(** [utf8.RuneCountInString], used by [Count] for the empty separator. *)
Fixpoint RuneCountInString (fuel : nat) (s : bytes) : Z :=
  match fuel, s with
  | S fuel', _ :: _ =>
    1 + RuneCountInString fuel' (drop (snd (utf8.DecodeRuneInString s)) s)
  | _, _ => 0
  end.

(** The loop of [Count] for a separator that is not empty. *)
Fixpoint Count_loop (fuel : nat) (s substr : bytes) : Z :=
  match fuel with
  | O => 0
  | S fuel' =>
    let i := Index s substr in
    if i =? -1 then 0
    else 1 + Count_loop fuel' (drop (Z.to_nat (i + len substr)) s) substr
  end.

(** [Count]: the number of non-overlapping instances of [substr] in [s]. *)
Definition Count (s substr : bytes) : Z :=
  if len substr =? 0 then RuneCountInString (length s) s + 1
  else Count_loop (S (length s)) s substr.

(** The loop [for i := 0; i < n; i++] of [Replace]: [rest] is [s[start:]],
    the result is what the builder receives from iteration [i] on, the
    closing [b.WriteString(s[start:])] included. *)
Fixpoint Replace_loop (n : nat) (i : Z) (rest old new : bytes) : bytes :=
  match n with
  | O => rest
  | S n' =>
    let j :=
      if len old =? 0 then
        if 0 <? i then Z.of_nat (snd (utf8.DecodeRuneInString rest)) else 0
      else Index rest old in
    take (Z.to_nat j) rest ++ new
      ++ Replace_loop n' (i + 1) (drop (Z.to_nat (j + len old)) rest) old new
  end.

(** [Replace(s, old, new, n)]: [s] with the first [n] non-overlapping
    instances of [old] replaced by [new]; all of them when [n < 0]. *)
Definition Replace (s old new : bytes) (n : Z) : bytes :=
  if bool_decide (old = new) || (n =? 0) then s
  else
    let m := Count s old in
    if m =? 0 then s
    else
      let n := if (n <? 0) || (m <? n) then m else n in
      Replace_loop (Z.to_nat n) 0 s old new.

(** The table [asciiSpace]. *)
Definition asciiSpace (b : Z) : bool :=
  (b =? 9) || (b =? 10) || (b =? 11) || (b =? 12) || (b =? 13) || (b =? 32).

(** [indexFunc]: the loop [for i, r := range s]; [rest] is [s[i:]]. *)
Fixpoint indexFunc_loop (fuel : nat) (i : Z) (rest : bytes)
    (f : Z -> bool) (truth : bool) : Z :=
  match fuel, rest with
  | S fuel', _ :: _ =>
    let '(r, w) := utf8.DecodeRuneInString rest in
    if Bool.eqb (f r) truth then i
    else indexFunc_loop fuel' (i + Z.of_nat w) (drop w rest) f truth
  | _, _ => -1
  end.

Definition indexFunc (s : bytes) (f : Z -> bool) (truth : bool) : Z :=
  indexFunc_loop (length s) 0 s f truth.

(** [lastIndexFunc]: the loop [for i := len(s); i > 0; ]; [pre] is
    [s[0:i]]. *)
Fixpoint lastIndexFunc_loop (fuel : nat) (pre : bytes)
    (f : Z -> bool) (truth : bool) : Z :=
  match fuel, pre with
  | S fuel', _ :: _ =>
    let '(r, size) := utf8.DecodeLastRuneInString pre in
    let i := len pre - Z.of_nat size in
    if Bool.eqb (f r) truth then i
    else lastIndexFunc_loop fuel' (take (Z.to_nat i) pre) f truth
  | _, _ => -1
  end.

Definition lastIndexFunc (s : bytes) (f : Z -> bool) (truth : bool) : Z :=
  lastIndexFunc_loop (length s) s f truth.

Definition TrimLeftFunc (s : bytes) (f : Z -> bool) : bytes :=
  let i := indexFunc s f false in
  if i =? -1 then [] else drop (Z.to_nat i) s.

Definition TrimRightFunc (s : bytes) (f : Z -> bool) : bytes :=
  let i := lastIndexFunc s f false in
  let i :=
    if (0 <=? i) && (utf8.RuneSelf <=? utf8.at_index s i) then
      i + Z.of_nat (snd (utf8.DecodeRuneInString (drop (Z.to_nat i) s)))
    else i + 1 in
  take (Z.to_nat i) s.

Definition TrimFunc (s : bytes) (f : Z -> bool) : bytes :=
  TrimRightFunc (TrimLeftFunc s f) f.

(** The second loop of [TrimSpace], [for ; stop > start; stop--]: [r] is
    [s[start:stop]] read from its end.  (At a byte that is not ASCII the
    loop returns [TrimFunc(s[start:stop], unicode.IsSpace)]; releases of Go
    that call [TrimRightFunc] there return the same string, since
    [s[start]] is no space.) *)
Fixpoint TrimSpace_stop (r : bytes) : bytes :=
  match r with
  | [] => []
  | c :: r' =>
    if utf8.RuneSelf <=? byte_val c then TrimFunc (rev r) unicode.IsSpace
    else if asciiSpace (byte_val c) then TrimSpace_stop r'
    else rev r
  end.

(** [TrimSpace]: the first loop, [for ; start < len(s); start++], runs on
    [s[start:]]; when it ends at a byte that is ASCII and no space the
    second loop takes over. *)
Fixpoint TrimSpace (s : bytes) : bytes :=
  match s with
  | [] => []
  | c :: s' =>
    if utf8.RuneSelf <=? byte_val c then TrimFunc s unicode.IsSpace
    else if asciiSpace (byte_val c) then TrimSpace s'
    else TrimSpace_stop (rev s)
  end.

End strings.

Definition nbsp : bytes := ["194"%char; "160"%char].
Definition lsep : bytes := ["226"%char; "128"%char; "168"%char].

(** ** Package [jsoniter], configuration [ConfigFastest] *)

#[local] Set Warnings "-register-all".

(** A JSON document.  Numbers keep their text. *)
Inductive JSON :=
| JNull
| JBool (b : bool)
| JNumber (text : bytes)
| JString (s : bytes)
| JArray (elems : list JSON)
| JObject (members : list (bytes * JSON)).

Module jsoniter.

Definition hex (d : Z) : ascii :=
  nth (Z.to_nat d) (list_ascii_of_string "0123456789abcdef") "0"%char.

(** The table [safeSet], on bytes below [utf8.RuneSelf]. *)
Definition safeSet (b : Z) : bool :=
  (0x20 <=? b) && negb (b =? 0x22) && negb (b =? 0x5C).

(** What [Stream.WriteString] writes for one byte of the string (its fast
    path and [writeStringSlowPath] write the same bytes; HTML escaping is
    off in [ConfigFastest]). *)
Definition writeStringByte (c : ascii) : bytes :=
  let b := byte_val c in
  if b <? utf8.RuneSelf then
    if safeSet b then [c]
    else if (b =? 0x5C) || (b =? 0x22) then [backslash; c]
    else if b =? 10 then go "\n"
    else if b =? 13 then go "\r"
    else if b =? 9 then go "\t"
    else go "\u00" ++ [hex (Z.shiftr b 4); hex (Z.land b 0xF)]
  else [c].

Definition WriteString (s : bytes) : bytes :=
  dquote :: flat_map writeStringByte s ++ [dquote].

(** Elements separated by commas, without white space. *)
Fixpoint join (parts : list bytes) : bytes :=
  match parts with
  | [] => []
  | [p] => p
  | p :: rest => p ++ go "," ++ join rest
  end.

(** The text the encoder writes for a document. *)
Fixpoint encode (v : JSON) : bytes :=
  match v with
  | JNull => go "null"
  | JBool true => go "true"
  | JBool false => go "false"
  | JNumber text => text
  | JString s => WriteString s
  | JArray elems => go "[" ++ join (map encode elems) ++ go "]"
  | JObject members =>
    go "{"
      ++ join (map (fun m => WriteString (fst m) ++ go ":" ++ encode (snd m)) members)
      ++ go "}"
  end.

End jsoniter.

(** ** The types of [main.go] *)

(** A Go [error]: [io.EOF], or any other error with its [Error()] text. *)
Inductive error :=
| io_EOF
| errorString (text : bytes).

Definition Error (e : error) : bytes :=
  match e with
  | io_EOF => go "EOF"
  | errorString text => text
  end.

#[global] Instance error_eq_dec : EqDecision error.
Proof. solve_decision. Defined.

Record ClientCredentialsResult := {
  AccessToken : bytes;
  RefreshToken : option bytes;
  CreatedAt : bytes;
  Expires : Z;
  Scope : bytes;
  TokenType : bytes
}.

Record ChatUser := { Username : bytes }.

Record ChatMessage := {
  Message : bytes;
  User : ChatUser
}.

Record ChatMessageData := { Data_ChatMessage : ChatMessage }.
Record ChatMessageResultBody := { Result_Data : ChatMessageData }.
Record ChatMessageResult := { Result : ChatMessageResultBody }.

Record GQLQuery := {
  Query : bytes;
  Variables : list (bytes * JSON)
}.

(** The zero values. *)
Definition zero_ChatMessage : ChatMessage :=
  {| Message := []; User := {| Username := [] |} |}.

Definition zero_ChatMessageResult : ChatMessageResult :=
  {| Result := {| Result_Data := {| Data_ChatMessage := zero_ChatMessage |} |} |}.

#[global] Instance ChatUser_eq_dec : EqDecision ChatUser.
Proof. solve_decision. Defined.
#[global] Instance ChatMessage_eq_dec : EqDecision ChatMessage.
Proof. solve_decision. Defined.

(** *** Encoding of the values the program marshals *)

Definition json_of_ChatMessage (m : ChatMessage) : JSON :=
  JObject [(go "message", JString (Message m));
           (go "user", JObject [(go "username", JString (Username (User m)))])].

Definition json_of_history (h : list ChatMessage) : JSON :=
  JArray (map json_of_ChatMessage h).

Definition json_of_GQLQuery (q : GQLQuery) : JSON :=
  JObject [(go "query", JString (Query q));
           (go "variables", JObject (Variables q))].

(** [Marshal]/[MarshalToString] of a value given as its document: the text,
    and the nil error (none of the marshalled types has an encoder that
    fails). *)
Definition Marshal (v : JSON) : bytes * option error :=
  (jsoniter.encode v, None).

(** ** Package [fmt] *)

Module fmt.

Inductive Arg :=
| ArgString (s : bytes)
| ArgInt (z : Z).

(** [%d] of an [int]. *)
Definition itoa (z : Z) : bytes := list_ascii_of_string (pretty z).

Definition verb_s (a : Arg) : bytes :=
  match a with
  | ArgString s => s
  | ArgInt z => go "%!s(int=" ++ itoa z ++ go ")"
  end.

Definition verb_d (a : Arg) : bytes :=
  match a with
  | ArgInt z => itoa z
  | ArgString s => go "%!d(string=" ++ s ++ go ")"
  end.

(** [Sprintf] for the verbs of [main.go]: [%s], [%d] and [%%], without
    flags or widths.  A verb without an operand prints as [%!v(MISSING)];
    operands left over do not occur at any call of the program and are
    dropped here. *)
Fixpoint Sprintf (format : bytes) (args : list Arg) : bytes :=
  match format with
  | [] => []
  | c :: rest =>
    if Ascii.eqb c "%"%char then
      match rest with
      | v :: rest' =>
        if Ascii.eqb v "%"%char then "%"%char :: Sprintf rest' args
        else if Ascii.eqb v "s"%char || Ascii.eqb v "d"%char then
          match args with
          | a :: args' =>
            (if Ascii.eqb v "s"%char then verb_s a else verb_d a)
              ++ Sprintf rest' args'
          | [] => go "%!" ++ [v] ++ go "(MISSING)" ++ Sprintf rest' []
          end
        else c :: Sprintf rest args
      | [] => go "%!(NOVERB)"
      end
    else c :: Sprintf rest args
  end.

End fmt.

(** ** The process and what surrounds it *)

(** [logrus.Level]. *)
Inductive Level :=
| PanicLevel | FatalLevel | ErrorLevel | WarnLevel | InfoLevel | DebugLevel
| TraceLevel.

Definition Level_num (l : Level) : Z :=
  match l with
  | PanicLevel => 0 | FatalLevel => 1 | ErrorLevel => 2 | WarnLevel => 3
  | InfoLevel => 4 | DebugLevel => 5 | TraceLevel => 6
  end.

(** A log entry: level, message and the fields of [WithField]/[WithError]. *)
Record Entry := {
  entry_Level : Level;
  entry_Message : bytes;
  entry_Data : list (bytes * bytes)
}.

(** A run-time panic of the Go runtime. *)
Inductive RuntimePanic :=
| SliceBoundsOutOfRange (low : Z) (length : Z).

(** What the process has done to its surroundings so far. *)
Record World := {
  (* Kilovolt: the value last acknowledged under each key *)
  kv : gmap bytes bytes;
  (* every call of [client.SetJSON]: key and serialized value, oldest first *)
  kv_sets : list (bytes * bytes);
  (* every text frame handed to [c.Write], oldest first *)
  ws_writes : list bytes;
  (* the entries the logger has emitted *)
  log : list Entry;
  stdout : bytes;
  stderr : bytes
}.

Definition empty_World : World :=
  {| kv := ∅; kv_sets := []; ws_writes := []; log := []; stdout := [];
     stderr := [] |}.

(** How a computation of the process ends: it returns, the process exits
    ([os.Exit]), or the runtime panics. *)
Inductive Res (A : Type) :=
| Ret (a : A) (w : World)
| Exit (code : Z) (w : World)
| Panicked (p : RuntimePanic) (w : World).
Arguments Ret {A} a w.
Arguments Exit {A} code w.
Arguments Panicked {A} p w.

Definition M (A : Type) : Type := World -> Res A.

#[global] Instance M_ret : MRet M := fun A a w => Ret a w.
#[global] Instance M_bind : MBind M := fun A B k m w =>
  match m w with
  | Ret a w' => k a w'
  | Exit code w' => Exit code w'
  | Panicked p w' => Panicked p w'
  end.

Definition world_of {A} (r : Res A) : World :=
  match r with
  | Ret _ w => w
  | Exit _ w => w
  | Panicked _ w => w
  end.

Definition os_Exit {A} (code : Z) : M A := fun w => Exit code w.
Definition runtime_panic {A} (p : RuntimePanic) : M A := fun w => Panicked p w.

Definition write_stdout (s : bytes) : M unit := fun w =>
  Ret tt {| kv := kv w; kv_sets := kv_sets w; ws_writes := ws_writes w;
            log := log w; stdout := stdout w ++ s; stderr := stderr w |}.

Definition write_stderr (s : bytes) : M unit := fun w =>
  Ret tt {| kv := kv w; kv_sets := kv_sets w; ws_writes := ws_writes w;
            log := log w; stdout := stdout w; stderr := stderr w ++ s |}.

Definition emit (e : Entry) : M unit := fun w =>
  Ret tt {| kv := kv w; kv_sets := kv_sets w; ws_writes := ws_writes w;
            log := log w ++ [e]; stdout := stdout w; stderr := stderr w |}.

(** [c.Write(ctx, websocket.MessageText, frame)]; [outcome] is the error the
    call returns. *)
Definition c_Write (frame : bytes) (outcome : option error) : M (option error) :=
  fun w =>
  Ret outcome
      {| kv := kv w; kv_sets := kv_sets w; ws_writes := ws_writes w ++ [frame];
         log := log w; stdout := stdout w; stderr := stderr w |}.

(** [client.SetJSON(key, data)] of the Kilovolt client: the value is
    marshalled and sent; [outcome] is the error of the request, and the
    store holds the value once the request went through. *)
Definition client_SetJSON (key : bytes) (data : JSON) (outcome : option error)
    : M (option error) :=
  let '(serialized, err) := Marshal data in
  match err with
  | Some e => mret (Some e)
  | None => fun w =>
    Ret outcome
        {| kv := (match outcome with
                  | None => <[key := serialized]> (kv w)
                  | Some _ => kv w
                  end);
           kv_sets := kv_sets w ++ [(key, serialized)];
           ws_writes := ws_writes w; log := log w; stdout := stdout w;
           stderr := stderr w |}
  end.

(** *** The logger *)

(** [Logger.IsLevelEnabled]. *)
Definition IsLevelEnabled (logger_level level : Level) : bool :=
  Level_num level <=? Level_num logger_level.

Definition log_at (logger_level level : Level) (data : list (bytes * bytes))
    (msg : bytes) : M unit :=
  if IsLevelEnabled logger_level level then
    emit {| entry_Level := level; entry_Message := msg; entry_Data := data |}
  else mret tt.

Definition log_Debug lvl data msg : M unit := log_at lvl DebugLevel data msg.
Definition log_Info lvl data msg : M unit := log_at lvl InfoLevel data msg.
Definition log_Error lvl data msg : M unit := log_at lvl ErrorLevel data msg.

(** [Fatal]: the entry, then [Logger.Exit(1)]. *)
Definition log_Fatal {A} lvl data msg : M A :=
  log_at lvl FatalLevel data msg ;; os_Exit 1.

Definition WithError (err : error) : list (bytes * bytes) :=
  [(go "error", Error err)].

Definition WithField (key value : bytes) : list (bytes * bytes) :=
  [(key, value)].

(** ** [main.go] *)

(** The command-line flags, after [flag.Parse]. *)
Record Flags := {
  endpoint : bytes;
  password : bytes;
  prefix : bytes;
  channelID : Z;
  clientID : bytes;
  clientSecret : bytes;
  chatHistorySize : Z;
  loglevel : bytes
}.

(** The width of [int] on the platform the program is built for. *)
Inductive GOARCH := Bits32 | Bits64.

Definition IntSize (arch : GOARCH) : Z :=
  match arch with Bits32 => 32 | Bits64 => 64 end.

Definition MinInt (arch : GOARCH) : Z := - 2 ^ (IntSize arch - 1).
Definition MaxInt (arch : GOARCH) : Z := 2 ^ (IntSize arch - 1) - 1.

(** The value of an [int] expression whose mathematical value is [z]. *)
Definition wrap_int (arch : GOARCH) (z : Z) : Z :=
  (z - MinInt arch) mod 2 ^ IntSize arch + MinInt arch.

(** The slice expression [s[low:]] with its bounds check. *)
Definition slice_from {A} (s : list A) (low : Z) : M (list A) :=
  if (0 <=? low) && (low <=? len s) then mret (drop (Z.to_nat low) s)
  else runtime_panic (SliceBoundsOutOfRange low (len s)).

(** [check]: on an error, the message on standard error and exit status 1. *)
Definition check (err : option error) (format : bytes) (args : list fmt.Arg)
    : M unit :=
  match err with
  | Some e =>
    let args := args ++ [fmt.ArgString (Error e)] in
    write_stderr (fmt.Sprintf (format ++ go ": %s" ++ ["010"%char]) args) ;;
    os_Exit 1
  | None => mret tt
  end.

Definition parseLogLevel (level : bytes) : Level :=
  if bool_decide (level = go "error") then ErrorLevel
  else if bool_decide (level = go "warn") || bool_decide (level = go "warning")
  then WarnLevel
  else if bool_decide (level = go "info") || bool_decide (level = go "notice")
  then InfoLevel
  else if bool_decide (level = go "debug") then DebugLevel
  else if bool_decide (level = go "trace") then TraceLevel
  else InfoLevel.

(** The level of the logger after [log.SetLevel(parseLogLevel( *loglevel))]. *)
Definition logger (cfg : Flags) : Level := parseLogLevel (loglevel cfg).

Definition chatEventKey (cfg : Flags) : bytes :=
  fmt.Sprintf (go "%sev/chat-message") [fmt.ArgString (prefix cfg)].
Definition chatRPCKey (cfg : Flags) : bytes :=
  fmt.Sprintf (go "%s@send-chat-message") [fmt.ArgString (prefix cfg)].
Definition chatHistoryKey (cfg : Flags) : bytes :=
  fmt.Sprintf (go "%schat-history") [fmt.ArgString (prefix cfg)].

(** *** The frames written to the Glimesh socket *)

Definition join_frame : bytes :=
  go "['1','1','__absinthe__:control','phx_join',{}]".

Definition subscribe_frame (cfg : Flags) : bytes :=
  fmt.Sprintf
    (go "['1','2','__absinthe__:control','doc',{'query':'subscription{ chatMessage(channelId: %d) { user { username } message } }','variables':{} }]")
    [fmt.ArgInt (channelID cfg)].

Definition heartbeat_frame : bytes :=
  go "['1','3','phoenix','heartbeat',{}]".

(** The payload of the send request for the cleaned text [message]. *)
Definition mutation_query (cfg : Flags) (message : bytes) : bytes :=
  fmt.Sprintf
    (go "mutation {createChatMessage(channelId: %d, message: {message: '%s'}) { message }}")
    [fmt.ArgInt (channelID cfg); fmt.ArgString message].

(** [[]interface{}{"1", "4", "__absinthe__:control", "doc", GQLQuery{...}}]. *)
Definition send_document (payload : bytes) : JSON :=
  JArray [JString (go "1"); JString (go "4");
          JString (go "__absinthe__:control"); JString (go "doc");
          json_of_GQLQuery {| Query := payload; Variables := [] |}].

(** The escaping and cleaning of an outgoing text (line 200). *)
Definition clean_message (value : bytes) : bytes :=
  strings.TrimSpace (strings.Replace value (go "'") (go "\'") (-1)).

(** *** Start-up (lines 97 to 138 and 172 to 175) *)

(** The results of the calls of the start-up. *)
Record StartupEnv := {
  env_NewClient : option error;
  env_GetJSON : error + list ChatMessage;
  env_SetJSON : option error;
  env_Post : option error;
  env_Decode : error + ClientCredentialsResult;
  env_Dial : option error;
  env_join : option error;
  env_subscribe : option error;
  env_SubscribeKey : option error
}.

Definition err_of {A} (r : error + A) : option error :=
  match r with inl e => Some e | inr _ => None end.

(** Lines 97 to 103: the flags that must be given. *)
Definition check_flags (cfg : Flags) : M unit :=
  let log := logger cfg in
  (if bool_decide (clientID cfg = []) || bool_decide (clientSecret cfg = [])
   then log_Fatal log []
          (go "You must provide a client ID and secret key, check https://glimesh.tv/users/settings/applications/new to make a new Glimesh.tv application")
   else mret tt) ;;
  if channelID cfg =? -1
  then log_Fatal log [] (go "You must provide a channel ID")
  else mret tt.

(** Lines 113 to 119: the old chat history, if available. *)
Definition load_history (cfg : Flags) (env : StartupEnv) : M (list ChatMessage) :=
  match env_GetJSON env with
  | inl _ =>
    let chatHistory := [] in
    client_SetJSON (chatHistoryKey cfg) (json_of_history chatHistory)
                   (env_SetJSON env) ;;
    mret chatHistory
  | inr stored => mret stored
  end.

(** Lines 121 to 138: the token, the socket, the join and the
    subscription. *)
Definition connect_glimesh (cfg : Flags) (env : StartupEnv) : M unit :=
  (* Obtain a token from Glimesh OAuth *)
  check (env_Post env) (go "Could not retrieve Glimesh API token") [] ;;
  check (err_of (env_Decode env)) (go "Could not decode Glimesh API response") [] ;;
  (* Connect to Glimesh *)
  check (env_Dial env) (go "Could not connect to Glimesh websocket") [] ;;
  err ← c_Write join_frame (env_join env);
  check err (go "Could not send join message") [] ;;
  err ← c_Write (subscribe_frame cfg) (env_subscribe env);
  check err (go "Could not send join message") [] ;;
  log_Info (logger cfg) (WithField (go "endpoint") (endpoint cfg))
           (go "Connected to Kilovolt").

(** Lines 172 to 175: the subscription to the RPC key. *)
Definition subscribe_rpc (cfg : Flags) (env : StartupEnv) : M unit :=
  match env_SubscribeKey env with
  | Some err =>
    log_Fatal (logger cfg) (WithError err) (go "Could not subscribe to chat RPC key")
  | None => mret tt
  end.

(** [main] up to the relay loop; the result is [chatHistory]. *)
Definition startup (cfg : Flags) (env : StartupEnv) : M (list ChatMessage) :=
  check_flags cfg ;;
  (* Connect to strimertul/Kilovolt *)
  check (env_NewClient env) (go "Connection to kilovolt failed") [] ;;
  chatHistory ← load_history cfg env;
  connect_glimesh cfg env ;;
  subscribe_rpc cfg env ;;
  mret chatHistory.

(** *** The relay loop (lines 179 to 216) *)

(** [kvclient.KeyValuePair]. *)
Record KeyValuePair := { Key : bytes; Value : bytes }.

(** What the [select] receives, with the results of the calls its case
    makes. *)
Inductive Event :=
| Tick (write_err : option error)
| WsMsg (msg : ChatMessage) (event_err : option error) (history_err : option error)
| Incoming (kv : KeyValuePair) (write_err : option error).

Section Relay.

Variable arch : GOARCH.
Variable cfg : Flags.

(** [case <-ticker.C]. *)
Definition on_tick (write_err : option error) : M unit :=
  err ← c_Write heartbeat_frame write_err;
  check err (go "Could not send heartbeat") [].

(** [case msg := <-wsmsg]. *)
Definition on_wsmsg (msg : ChatMessage) (event_err history_err : option error)
    (chatHistory : list ChatMessage) : M (list ChatMessage) :=
  let log := logger cfg in
  log_Debug log (WithField (go "user") (Username (User msg))) (go "Received message") ;;
  err ← client_SetJSON (chatEventKey cfg) (json_of_ChatMessage msg) event_err;
  match err with
  | Some e =>
    log_Error log (WithField (go "key") (chatEventKey cfg) ++ WithError e)
              (go "Could not set chat key")
  | None => mret tt
  end ;;
  let chatHistory := chatHistory ++ [msg] in
  chatHistory ←
    (if chatHistorySize cfg <? len chatHistory
     then slice_from chatHistory (wrap_int arch (len chatHistory - chatHistorySize cfg))
     else mret chatHistory);
  err ← client_SetJSON (chatHistoryKey cfg) (json_of_history chatHistory) history_err;
  match err with
  | Some e =>
    log_Error log (WithField (go "key") (chatHistoryKey cfg) ++ WithError e)
              (go "Could not set chat key")
  | None => mret tt
  end ;;
  mret chatHistory.

(** [case kv := <-incoming]. *)
Definition on_incoming (kv : KeyValuePair) (write_err : option error) : M unit :=
  let log := logger cfg in
  log_Debug log (WithField (go "key") (Key kv)) (go "Received RPC message") ;;
  (* Escape and clean message *)
  let message := clean_message (Value kv) in
  (* Prepare payload *)
  let payload := mutation_query cfg message in
  let '(byt, err) := Marshal (send_document payload) in
  match err with
  | Some e => log_Error log (WithError e) (go "Could not encode chat message")
  | None =>
    write_stdout (fmt.Sprintf (go "%s" ++ ["010"%char]) [fmt.ArgString byt]) ;;
    err ← c_Write byt write_err;
    match err with
    | Some e => log_Error log (WithError e) (go "Could not send chat message")
    | None => log_Debug log [] (go "Sent message")
    end
  end.

(** One turn of the [for { select { ... } }]. *)
Definition relay_case (ev : Event) (chatHistory : list ChatMessage)
    : M (list ChatMessage) :=
  match ev with
  | Tick write_err => on_tick write_err ;; mret chatHistory
  | WsMsg msg event_err history_err =>
    on_wsmsg msg event_err history_err chatHistory
  | Incoming kv write_err => on_incoming kv write_err ;; mret chatHistory
  end.

(** The loop over the events that arrive. *)
Fixpoint relay_loop (evs : list Event) (chatHistory : list ChatMessage)
    : M (list ChatMessage) :=
  match evs with
  | [] => mret chatHistory
  | ev :: evs' =>
    chatHistory ← relay_case ev chatHistory;
    relay_loop evs' chatHistory
  end.

End Relay.

(** *** The receive goroutine (lines 141 to 170) *)

Inductive MessageType := MessageText | MessageBinary.

(** What [c.Read(ctx)] returns. *)
Inductive ReadResult :=
| ReadError (err : error)
| ReadMessage (mtyp : MessageType) (byt : bytes).

(** The variables [payload] points to, lines 152 to 156. *)
Record Payload := {
  msgType : option bytes;
  msgSubType : option bytes;
  subId : bytes;
  subType : bytes;
  result : ChatMessageResult
}.

Definition zero_Payload : Payload :=
  {| msgType := None; msgSubType := None; subId := []; subType := [];
     result := zero_ChatMessageResult |}.

Section Receive.

(** [jsoniter]'s reading of a text, taken as given: the document a text
    holds ([None] when it is not JSON), the test that an object key selects
    the struct field of a tag (the library compares hashes of the
    lower-cased names), and the error reported for a text that cannot be
    decoded into the destination. *)
Variable tokens : bytes -> option JSON.
Variable keyMatches : bytes -> bytes -> bool.
Variable decodeError : bytes -> error.

(** Decoding into a [string] field: [ReadString]. *)
Definition bind_string (v : JSON) : option bytes :=
  match v with
  | JString s => Some s
  | JNull => Some []
  | _ => None
  end.

(** Decoding through an [interface{}] that holds a [*string]: [null]
    clears the interface and leaves the string. *)
Definition bind_eface_string (v : JSON) (dst : bytes) : option bytes :=
  match v with
  | JString s => Some s
  | JNull => Some dst
  | _ => None
  end.

(** Decoding through an [interface{}] that holds a [**string]. *)
Definition bind_eface_string_ptr (v : JSON) : option (option bytes) :=
  match v with
  | JString s => Some (Some s)
  | JNull => Some None
  | _ => None
  end.

(** The members of an object, in the order of the text: a member whose key
    selects a field is decoded into it, any other member is skipped. *)
Fixpoint bind_members {T} (field : bytes -> option (JSON -> T -> option T))
    (members : list (bytes * JSON)) (dst : T) : option T :=
  match members with
  | [] => Some dst
  | (k, v) :: members' =>
    match field k with
    | Some decode =>
      match decode v dst with
      | Some dst' => bind_members field members' dst'
      | None => None
      end
    | None => bind_members field members' dst
    end
  end.

(** Decoding into a struct: [null] leaves it, an object is decoded member
    by member, anything else is an error. *)
Definition bind_struct {T} (field : bytes -> option (JSON -> T -> option T))
    (v : JSON) (dst : T) : option T :=
  match v with
  | JNull => Some dst
  | JObject members => bind_members field members dst
  | _ => None
  end.

Definition bind_ChatUser : JSON -> ChatUser -> option ChatUser :=
  bind_struct (fun k =>
    if keyMatches (go "username") k
    then Some (fun v _ => s ← bind_string v; Some {| Username := s |})
    else None).

Definition bind_ChatMessage : JSON -> ChatMessage -> option ChatMessage :=
  bind_struct (fun k =>
    if keyMatches (go "message") k
    then Some (fun v dst =>
                 s ← bind_string v; Some {| Message := s; User := User dst |})
    else if keyMatches (go "user") k
    then Some (fun v dst =>
                 u ← bind_ChatUser v (User dst);
                 Some {| Message := Message dst; User := u |})
    else None).

Definition bind_ChatMessageData : JSON -> ChatMessageData -> option ChatMessageData :=
  bind_struct (fun k =>
    if keyMatches (go "chatMessage") k
    then Some (fun v dst =>
                 m ← bind_ChatMessage v (Data_ChatMessage dst);
                 Some {| Data_ChatMessage := m |})
    else None).

Definition bind_ChatMessageResultBody
    : JSON -> ChatMessageResultBody -> option ChatMessageResultBody :=
  bind_struct (fun k =>
    if keyMatches (go "data") k
    then Some (fun v dst =>
                 d ← bind_ChatMessageData v (Result_Data dst);
                 Some {| Result_Data := d |})
    else None).

Definition bind_ChatMessageResult
    : JSON -> ChatMessageResult -> option ChatMessageResult :=
  bind_struct (fun k =>
    if keyMatches (go "result") k
    then Some (fun v dst =>
                 r ← bind_ChatMessageResultBody v (Result dst);
                 Some {| Result := r |})
    else None).

(** Element [i] of the array, decoded into element [i] of [payload]; the
    slice grows for elements past the fifth and they are read as plain
    values. *)
Definition bind_element (i : nat) (v : JSON) (p : Payload) : option Payload :=
  match i with
  | 0%nat =>
    t ← bind_eface_string_ptr v;
    Some {| msgType := t; msgSubType := msgSubType p; subId := subId p;
            subType := subType p; result := result p |}
  | 1%nat =>
    t ← bind_eface_string_ptr v;
    Some {| msgType := msgType p; msgSubType := t; subId := subId p;
            subType := subType p; result := result p |}
  | 2%nat =>
    s ← bind_eface_string v (subId p);
    Some {| msgType := msgType p; msgSubType := msgSubType p; subId := s;
            subType := subType p; result := result p |}
  | 3%nat =>
    s ← bind_eface_string v (subType p);
    Some {| msgType := msgType p; msgSubType := msgSubType p; subId := subId p;
            subType := s; result := result p |}
  | 4%nat =>
    r ← bind_ChatMessageResult v (result p);
    Some {| msgType := msgType p; msgSubType := msgSubType p; subId := subId p;
            subType := subType p; result := r |}
  | _ => Some p
  end.

Fixpoint bind_elements (i : nat) (elems : list JSON) (p : Payload) : option Payload :=
  match elems with
  | [] => Some p
  | v :: elems' =>
    match bind_element i v p with
    | Some p' => bind_elements (S i) elems' p'
    | None => None
    end
  end.

(** [jsoniter.ConfigFastest.Unmarshal(byt, &payload)] on the fresh
    variables of one iteration. *)
Definition Unmarshal_payload (byt : bytes) : error + Payload :=
  match tokens byt with
  | None => inl (decodeError byt)
  | Some JNull => inr zero_Payload
  | Some (JArray elems) =>
    match bind_elements 0 elems zero_Payload with
    | Some p => inr p
    | None => inl (decodeError byt)
    end
  | Some _ => inl (decodeError byt)
  end.

Variable cfg : Flags.

(** One iteration of the goroutine's loop on what [c.Read] returned; the
    result is the message sent on [wsmsg], if any. *)
Definition receive (r : ReadResult) : M (option ChatMessage) :=
  let log := logger cfg in
  match r with
  | ReadError err =>
    (if negb (bool_decide (err = io_EOF))
     then log_Fatal log (WithError err) (go "Could not read from websocket")
     else mret tt) ;;
    log_Fatal log (WithError err) (go "Connection was closed by remote")
  | ReadMessage mtyp byt =>
    log_Debug log [] byt ;;
    match mtyp with
    | MessageText =>
      match Unmarshal_payload byt with
      | inl err =>
        log_Error log (WithError err) (go "Could not decode websocket message") ;;
        mret (M := M) (None : option ChatMessage)
      | inr p =>
        match msgType p, msgSubType p with
        | None, None => mret (Some (Data_ChatMessage (Result_Data (Result (result p)))))
        | _, _ => mret (M := M) (None : option ChatMessage)
        end
      end
    | MessageBinary => mret (M := M) (None : option ChatMessage)
    end
  end.

(** The messages the goroutine sends while it reads [reads]. *)
Fixpoint receive_loop (reads : list ReadResult) : M (list ChatMessage) :=
  match reads with
  | [] => mret []
  | r :: reads' =>
    sent ← receive r;
    rest ← receive_loop reads';
    mret (match sent with Some msg => msg :: rest | None => rest end)
  end.

(** *** The process *)

(** What happens to the process, with the results of the calls made in
    reaction.  The channel [wsmsg] has no buffer: a message the goroutine
    sends is the next thing the relay loop handles on that channel. *)
Inductive Occurrence :=
| SocketRead (r : ReadResult) (event_err history_err : option error)
| TimerTick (write_err : option error)
| KilovoltPush (kv : KeyValuePair) (write_err : option error).

Variable arch : GOARCH.

Definition bridge_step (o : Occurrence) (chatHistory : list ChatMessage)
    : M (list ChatMessage) :=
  match o with
  | SocketRead r event_err history_err =>
    sent ← receive r;
    match sent with
    | Some msg => relay_case arch cfg (WsMsg msg event_err history_err) chatHistory
    | None => mret chatHistory
    end
  | TimerTick write_err => relay_case arch cfg (Tick write_err) chatHistory
  | KilovoltPush kv write_err => relay_case arch cfg (Incoming kv write_err) chatHistory
  end.

Fixpoint bridge_loop (os : list Occurrence) (chatHistory : list ChatMessage)
    : M (list ChatMessage) :=
  match os with
  | [] => mret chatHistory
  | o :: os' =>
    chatHistory ← bridge_step o chatHistory;
    bridge_loop os' chatHistory
  end.

(** [main]: the start-up, then the loop.  The goroutine is started before
    the subscription to the request key (line 172), so in the program a read
    may precede that call; until the relay loop runs, a read can only log,
    end the process or block on [wsmsg].  The model takes the reads from the
    point where the loop is entered. *)
Definition main (env : StartupEnv) (os : list Occurrence) : M (list ChatMessage) :=
  chatHistory ← startup cfg env;
  bridge_loop os chatHistory.

End Receive.

(** ** Vocabulary of the statements *)

(** The last [n] elements of a sequence, in their order. *)
Definition last_n {A} (n : nat) (l : list A) : list A :=
  drop (length l - n) l.

(** The text Kilovolt receives for a message and for a history. *)
Definition stored_message (m : ChatMessage) : bytes :=
  jsoniter.encode (json_of_ChatMessage m).

Definition stored_history (h : list ChatMessage) : bytes :=
  jsoniter.encode (json_of_history h).

(** The events of a sequence of inbound chat messages, each with the
    results of its two store writes. *)
Abbreviation arrival := (ChatMessage * (option error * option error))%type.

Definition arrival_event (a : arrival) : Event :=
  WsMsg (fst a) (fst (snd a)) (snd (snd a)).

(** The entries a logging call adds to the log. *)
Definition logged (logger_level level : Level) (data : list (bytes * bytes))
    (msg : bytes) : list Entry :=
  if IsLevelEnabled logger_level level
  then [{| entry_Level := level; entry_Message := msg; entry_Data := data |}]
  else [].

(** The store after a write with the given result. *)
Definition committed (key value : bytes) (outcome : option error)
    (store : gmap bytes bytes) : gmap bytes bytes :=
  match outcome with
  | None => <[key := value]> store
  | Some _ => store
  end.

(** The log entry of a store write that failed. *)
Definition set_failure (cfg : Flags) (key : bytes) (outcome : option error)
    : list Entry :=
  match outcome with
  | Some e =>
    [{| entry_Level := ErrorLevel; entry_Message := go "Could not set chat key";
        entry_Data := [(go "key", key); (go "error", Error e)] |}]
  | None => []
  end.

(** The surroundings after the reaction to an inbound message that leaves
    the history [h']. *)
Definition wsmsg_world (cfg : Flags) (msg : ChatMessage)
    (event_err history_err : option error) (h' : list ChatMessage) (w : World)
    : World :=
  {| kv := committed (chatHistoryKey cfg) (stored_history h') history_err
             (committed (chatEventKey cfg) (stored_message msg) event_err (kv w));
     kv_sets := kv_sets w ++ [(chatEventKey cfg, stored_message msg);
                              (chatHistoryKey cfg, stored_history h')];
     ws_writes := ws_writes w;
     log := log w
            ++ logged (logger cfg) DebugLevel
                 [(go "user", Username (User msg))] (go "Received message")
            ++ set_failure cfg (chatEventKey cfg) event_err
            ++ set_failure cfg (chatHistoryKey cfg) history_err;
     stdout := stdout w; stderr := stderr w |}.

(** [w'] continues [w]: the calls recorded in [w] are still there, in
    order, and every frame written since satisfies [P]. *)
Definition continues (P : bytes -> Prop) (w w' : World) : Prop :=
  exists sets frames,
    kv_sets w' = kv_sets w ++ sets
    /\ ws_writes w' = ws_writes w ++ frames
    /\ Forall P frames.

(** [w'] has the store and the record of store writes of [w]. *)
Definition same_store (w w' : World) : Prop :=
  kv w' = kv w /\ kv_sets w' = kv_sets w.

(** A computation whose final surroundings are related by [R] to the
    surroundings it starts in, however it ends. *)
Definition run_rel (R : World -> World -> Prop) {A} (m : M A) : Prop :=
  forall w, R w (world_of (m w)).

(** *** The shape of the frames *)

Definition quoted (s : bytes) : bytes := dquote :: s ++ [dquote].

(** The text of a frame [[join_ref, ref, topic, event, payload]]. *)
Definition phx_frame (join_ref ref topic event payload : bytes) : bytes :=
  go "[" ++ quoted join_ref ++ go "," ++ quoted ref ++ go "," ++ quoted topic
    ++ go "," ++ quoted event ++ go "," ++ payload ++ go "]".

(** The subscription document for a channel. *)
Definition subscription_text (channel : Z) : bytes :=
  go "subscription{ chatMessage(channelId: " ++ fmt.itoa channel
    ++ go ") { user { username } message } }".

(** The mutation document for a channel and a cleaned text. *)
Definition mutation_text (channel : Z) (message : bytes) : bytes :=
  go "mutation {createChatMessage(channelId: " ++ fmt.itoa channel
    ++ go ", message: {message: '" ++ message ++ go "'}) { message }}".

(** The four kinds of frame of the program. *)
Inductive frame_kind (cfg : Flags) : bytes -> Prop :=
| kind_join :
    frame_kind cfg
      (phx_frame (go "1") (go "1") (go "__absinthe__:control") (go "phx_join")
                 (go "{}"))
| kind_subscribe :
    frame_kind cfg
      (phx_frame (go "1") (go "2") (go "__absinthe__:control") (go "doc")
                 (go "{'query':" ++ quoted (subscription_text (channelID cfg))
                    ++ go ",'variables':{} }"))
| kind_heartbeat :
    frame_kind cfg
      (phx_frame (go "1") (go "3") (go "phoenix") (go "heartbeat") (go "{}"))
| kind_send (text : bytes) :
    frame_kind cfg
      (phx_frame (go "1") (go "4") (go "__absinthe__:control") (go "doc")
                 (go "{'query':"
                    ++ jsoniter.WriteString
                         (mutation_text (channelID cfg) (clean_message text))
                    ++ go ",'variables':{}}")).

(** The kinds with the topic of the join frame read as [control]. *)
Definition frame_kind_with_topic_control (f : bytes) : Prop :=
  (exists r1 r2,
      f = phx_frame r1 r2 (go "control") (go "phx_join") (go "{}"))
  \/ (exists r1 r2 topic payload,
         f = phx_frame r1 r2 topic (go "doc") payload)
  \/ (exists r1 r2,
         f = phx_frame r1 r2 (go "phoenix") (go "heartbeat") (go "{}")).

(** The entry logged for a store write of [key] that failed with [err]. *)
Definition set_failure_entry (key : bytes) (err : error) : Entry :=
  {| entry_Level := ErrorLevel; entry_Message := go "Could not set chat key";
     entry_Data := [(go "key", key); (go "error", Error err)] |}.

(** *** Inbound frames *)

(** The document has a value at the path of object keys, each key selected
    as the decoder selects struct fields. *)
Fixpoint json_has_path (keyMatches : bytes -> bytes -> bool)
    (path : list bytes) (v : JSON) : bool :=
  match path with
  | [] => true
  | tag :: path' =>
    match v with
    | JObject members =>
      existsb (fun m => keyMatches tag (fst m)
                        && json_has_path keyMatches path' (snd m)) members
    | _ => false
    end
  end.

(** The path of the chat message inside the fifth element of a frame. *)
Definition chat_payload_path : list bytes :=
  [go "result"; go "data"; go "chatMessage"].

(** The two leading elements of the frame are [null] or missing. *)
Definition leading_tags_absent (doc : JSON) : Prop :=
  doc = JNull
  \/ exists elems,
       doc = JArray elems
       /\ nth 0 elems JNull = JNull
       /\ nth 1 elems JNull = JNull.

(** The surroundings after the goroutine has logged the frame it read. *)
Definition frame_logged (cfg : Flags) (byt : bytes) (w : World) : World :=
  {| kv := kv w; kv_sets := kv_sets w; ws_writes := ws_writes w;
     log := log w ++ logged (logger cfg) DebugLevel [] byt;
     stdout := stdout w; stderr := stderr w |}.

(** The surroundings after one more entry in the log. *)
Definition with_entry (e : Entry) (w : World) : World :=
  {| kv := kv w; kv_sets := kv_sets w; ws_writes := ws_writes w;
     log := log w ++ [e]; stdout := stdout w; stderr := stderr w |}.

(** *** Outgoing texts *)

(** Every double quote replaced by a backslash and a double quote. *)
Definition escape_quotes (s : bytes) : bytes :=
  flat_map (fun c => if Ascii.eqb c dquote then [backslash; dquote] else [c]) s.

(** The send request for a channel and a cleaned text, as it goes on the
    wire: the mutation is the value of [query], a JSON string. *)
Definition send_frame (channel : Z) (message : bytes) : bytes :=
  phx_frame (go "1") (go "4") (go "__absinthe__:control") (go "doc")
    (go "{'query':" ++ jsoniter.WriteString (mutation_text channel message)
       ++ go ",'variables':{}}").

(** The entries of the log for the outcome of the write of a send request. *)
Definition send_outcome (cfg : Flags) (write_err : option error) : list Entry :=
  match write_err with
  | Some e =>
    [{| entry_Level := ErrorLevel; entry_Message := go "Could not send chat message";
        entry_Data := [(go "error", Error e)] |}]
  | None => logged (logger cfg) DebugLevel [] (go "Sent message")
  end.

(** *** White space *)

(** The code points with the Unicode property [White_Space]. *)
Definition White_Space : list Z :=
  [0x09; 0x0A; 0x0B; 0x0C; 0x0D; 0x20; 0x85; 0xA0; 0x1680;
   0x2000; 0x2001; 0x2002; 0x2003; 0x2004; 0x2005; 0x2006; 0x2007; 0x2008;
   0x2009; 0x200A; 0x2028; 0x2029; 0x202F; 0x205F; 0x3000].

Definition byte_of (z : Z) : ascii := ascii_of_N (Z.to_N z).

(** The UTF-8 encoding of a code point below [0x10000] that is no
    surrogate. *)
Definition utf8_encoding (r : Z) : bytes :=
  if r <? 0x80 then [byte_of r]
  else if r <? 0x800 then
    [byte_of (Z.lor 0xC0 (Z.shiftr r 6)); byte_of (Z.lor 0x80 (Z.land r 0x3F))]
  else
    [byte_of (Z.lor 0xE0 (Z.shiftr r 12));
     byte_of (Z.lor 0x80 (Z.land (Z.shiftr r 6) 0x3F));
     byte_of (Z.lor 0x80 (Z.land r 0x3F))].

(** The encodings of the white space characters. *)
Definition space_encodings : list bytes := map utf8_encoding White_Space.

(** A string made of white space characters only. *)
Inductive white_space : bytes -> Prop :=
| white_space_nil : white_space []
| white_space_cons enc rest :
    In enc space_encodings -> white_space rest -> white_space (enc ++ rest).

(** [t] is [s] without the white space at its two ends: what was cut is
    white space, and [t] neither starts nor ends with a white space
    character. *)
Definition trimmed_of (s t : bytes) : Prop :=
  (exists pre post, s = pre ++ t ++ post /\ white_space pre /\ white_space post)
  /\ (forall enc rest, In enc space_encodings -> t ≠ enc ++ rest)
  /\ (forall enc rest, In enc space_encodings -> t ≠ rest ++ enc).

(** *** The decoders, in a form for the proofs *)

Module utf8_alt.

Definition cont (b : Z) : bool := (0x80 <=? b) && (b <=? 0xBF).

Definition rune2 (b0 b1 : Z) : Z :=
  Z.lor (Z.shiftl (Z.land b0 utf8.mask2) 6) (Z.land b1 utf8.maskx).

Definition rune3 (b0 b1 b2 : Z) : Z :=
  Z.lor (Z.lor (Z.shiftl (Z.land b0 utf8.mask3) 12)
               (Z.shiftl (Z.land b1 utf8.maskx) 6))
        (Z.land b2 utf8.maskx).

Definition rune4 (b0 b1 b2 b3 : Z) : Z :=
  Z.lor (Z.lor (Z.lor (Z.shiftl (Z.land b0 utf8.mask4) 18)
                      (Z.shiftl (Z.land b1 utf8.maskx) 12))
               (Z.shiftl (Z.land b2 utf8.maskx) 6))
        (Z.land b3 utf8.maskx).

Definition valid2 (b0 b1 : Z) : bool :=
  (0xC2 <=? b0) && (b0 <=? 0xDF) && cont b1.

Definition accept3 (b0 b1 : Z) : bool :=
  ((b0 =? 0xE0) && (0xA0 <=? b1) && (b1 <=? 0xBF))
  || ((((0xE1 <=? b0) && (b0 <=? 0xEC)) || ((0xEE <=? b0) && (b0 <=? 0xEF)))
      && cont b1)
  || ((b0 =? 0xED) && (0x80 <=? b1) && (b1 <=? 0x9F)).

Definition valid3 (b0 b1 b2 : Z) : bool := accept3 b0 b1 && cont b2.

Definition accept4 (b0 b1 : Z) : bool :=
  ((b0 =? 0xF0) && (0x90 <=? b1) && (b1 <=? 0xBF))
  || ((0xF1 <=? b0) && (b0 <=? 0xF3) && cont b1)
  || ((b0 =? 0xF4) && (0x80 <=? b1) && (b1 <=? 0x8F)).

Definition valid4 (b0 b1 b2 b3 : Z) : bool :=
  accept4 b0 b1 && cont b2 && cont b3.

(** [utf8.DecodeRuneInString] by the shape of the string. *)
Definition decode (s : bytes) : Z * nat :=
  match s with
  | [] => (utf8.RuneError, 0%nat)
  | c0 :: t0 =>
    let b0 := byte_val c0 in
    if b0 <? 0x80 then (b0, 1%nat)
    else
      match t0 with
      | [] => (utf8.RuneError, 1%nat)
      | c1 :: t1 =>
        let b1 := byte_val c1 in
        if valid2 b0 b1 then (rune2 b0 b1, 2%nat)
        else
          match t1 with
          | [] => (utf8.RuneError, 1%nat)
          | c2 :: t2 =>
            let b2 := byte_val c2 in
            if valid3 b0 b1 b2 then (rune3 b0 b1 b2, 3%nat)
            else
              match t2 with
              | [] => (utf8.RuneError, 1%nat)
              | c3 :: _ =>
                let b3 := byte_val c3 in
                if valid4 b0 b1 b2 b3 then (rune4 b0 b1 b2 b3, 4%nat)
                else (utf8.RuneError, 1%nat)
              end
          end
      end
  end.

(** The search of [utf8.DecodeLastRuneInString] for the start of the last
    rune, on the bytes before the last one, nearest first: the number of
    bytes from the start byte found to the end of the string. *)
Fixpoint start_back (budget : nat) (span : nat) (rs : bytes) : option nat :=
  match budget, rs with
  | S budget', c :: rs' =>
    if utf8.RuneStart (byte_val c) then Some (S span)
    else start_back budget' (S span) rs'
  | _, _ => None
  end.

(** [utf8.DecodeLastRuneInString] by the shape of the reversed string. *)
Definition decode_last (s : bytes) : Z * nat :=
  match rev s with
  | [] => (utf8.RuneError, 0%nat)
  | c :: rs =>
    if byte_val c <? 0x80 then (byte_val c, 1%nat)
    else
      match start_back 3 1 rs with
      | None => (utf8.RuneError, 1%nat)
      | Some span =>
        let '(r, size) := decode (drop (length s - span) s) in
        if (size =? span)%nat then (r, size) else (utf8.RuneError, 1%nat)
      end
  end.

End utf8_alt.

(** The encodings of the white space characters as byte values, and the
    test that a sequence of byte values is one of them. *)
Definition space_codes : list (list Z) := map (map byte_val) space_encodings.

Definition is_space_code (l : list Z) : bool :=
  existsb (fun e => bool_decide (e = l)) space_codes.

(** ** Vocabulary of the further properties *)

(** No byte of the text is a percent sign: as a format it has no verb. *)
Definition verb_free (format : bytes) : bool :=
  forallb (fun c => negb (Ascii.eqb c "%"%char)) format.

(** The surroundings after more bytes on standard error. *)
Definition with_stderr (s : bytes) (w : World) : World :=
  {| kv := kv w; kv_sets := kv_sets w; ws_writes := ws_writes w;
     log := log w; stdout := stdout w; stderr := stderr w ++ s |}.

(** The surroundings after one more frame handed to the socket. *)
Definition with_frame (frame : bytes) (w : World) : World :=
  {| kv := kv w; kv_sets := kv_sets w; ws_writes := ws_writes w ++ [frame];
     log := log w; stdout := stdout w; stderr := stderr w |}.

(** The required flags are given (lines 97 to 103). *)
Definition flags_given (cfg : Flags) : bool :=
  negb (bool_decide (clientID cfg = []))
  && negb (bool_decide (clientSecret cfg = []))
  && negb (channelID cfg =? -1).

(** No call of the start-up that the program checks has failed. *)
Definition calls_succeed (env : StartupEnv) : bool :=
  bool_decide (env_NewClient env = None)
  && bool_decide (env_Post env = None)
  && bool_decide (err_of (env_Decode env) = None)
  && bool_decide (env_Dial env = None)
  && bool_decide (env_join env = None)
  && bool_decide (env_subscribe env = None)
  && bool_decide (env_SubscribeKey env = None).

Definition missing_credentials_text : bytes :=
  go "You must provide a client ID and secret key, check https://glimesh.tv/users/settings/applications/new to make a new Glimesh.tv application".

Definition missing_channel_text : bytes := go "You must provide a channel ID".

(** The history the start-up hands to the loop. *)
Definition loaded_history (env : StartupEnv) : list ChatMessage :=
  match env_GetJSON env with inl _ => [] | inr stored => stored end.

(** The surroundings after lines 113 to 119. *)
Definition after_load (cfg : Flags) (env : StartupEnv) (w : World) : World :=
  match env_GetJSON env with
  | inl _ =>
    {| kv := committed (chatHistoryKey cfg) (go "[]") (env_SetJSON env) (kv w);
       kv_sets := kv_sets w ++ [(chatHistoryKey cfg, go "[]")];
       ws_writes := ws_writes w; log := log w; stdout := stdout w;
       stderr := stderr w |}
  | inr _ => w
  end.

(** The surroundings after the join, the subscription and the entry that
    reports the connection. *)
Definition connected (cfg : Flags) (w : World) : World :=
  {| kv := kv w; kv_sets := kv_sets w;
     ws_writes := ws_writes w ++ [join_frame; subscribe_frame cfg];
     log := log w ++ logged (logger cfg) InfoLevel
                       [(go "endpoint", endpoint cfg)] (go "Connected to Kilovolt");
     stdout := stdout w; stderr := stderr w |}.

(** The line [check] writes for a call that failed. *)
Definition failure_line (text : bytes) (err : error) : bytes :=
  text ++ go ": " ++ Error err ++ ["010"%char].

(** The log entry of a [Fatal] call. *)
Definition fatal_entry (data : list (bytes * bytes)) (msg : bytes) : Entry :=
  {| entry_Level := FatalLevel; entry_Message := msg; entry_Data := data |}.

(** How the start-up ends, by the first thing that goes wrong. *)
Definition startup_result (cfg : Flags) (env : StartupEnv) (w : World)
    : Res (list ChatMessage) :=
  if negb (flags_given cfg) then
    Exit 1 (with_entry
              (fatal_entry []
                 (if bool_decide (clientID cfg = [])
                     || bool_decide (clientSecret cfg = [])
                  then missing_credentials_text else missing_channel_text)) w)
  else
    match env_NewClient env with
    | Some e =>
      Exit 1 (with_stderr (failure_line (go "Connection to kilovolt failed") e) w)
    | None =>
    let w1 := after_load cfg env w in
    match env_Post env with
    | Some e =>
      Exit 1 (with_stderr
                (failure_line (go "Could not retrieve Glimesh API token") e) w1)
    | None =>
    match env_Decode env with
    | inl e =>
      Exit 1 (with_stderr
                (failure_line (go "Could not decode Glimesh API response") e) w1)
    | inr _ =>
    match env_Dial env with
    | Some e =>
      Exit 1 (with_stderr
                (failure_line (go "Could not connect to Glimesh websocket") e) w1)
    | None =>
    match env_join env with
    | Some e =>
      Exit 1 (with_stderr (failure_line (go "Could not send join message") e)
                          (with_frame join_frame w1))
    | None =>
    match env_subscribe env with
    | Some e =>
      Exit 1 (with_stderr (failure_line (go "Could not send join message") e)
                (with_frame (subscribe_frame cfg) (with_frame join_frame w1)))
    | None =>
    match env_SubscribeKey env with
    | Some e =>
      Exit 1 (with_entry
                (fatal_entry [(go "error", Error e)]
                             (go "Could not subscribe to chat RPC key"))
                (connected cfg w1))
    | None => Ret (loaded_history env) (connected cfg w1)
    end end end end end end end.

(** The chat messages among the events, in their order. *)
Definition messages_of (evs : list Event) : list ChatMessage :=
  flat_map (fun ev => match ev with WsMsg msg _ _ => [msg] | _ => [] end) evs.



Definition heartbeat_failed (ev : Event) : bool :=
  match ev with Tick (Some _) => true | _ => false end.

(** The surroundings after the write of the event key in the reaction to an
    inbound message. *)
Definition event_world (cfg : Flags) (msg : ChatMessage)
    (event_err : option error) (w : World) : World :=
  {| kv := committed (chatEventKey cfg) (stored_message msg) event_err (kv w);
     kv_sets := kv_sets w ++ [(chatEventKey cfg, stored_message msg)];
     ws_writes := ws_writes w;
     log := log w
            ++ logged (logger cfg) DebugLevel
                 [(go "user", Username (User msg))] (go "Received message")
            ++ set_failure cfg (chatEventKey cfg) event_err;
     stdout := stdout w; stderr := stderr w |}.

(** Lines 190 to 192 on a history that holds the new message: the history
    kept, or the panic of the slice expression. *)
Definition truncated (arch : GOARCH) (cfg : Flags) (h : list ChatMessage)
    : RuntimePanic + list ChatMessage :=
  if chatHistorySize cfg <? len h then
    let low := wrap_int arch (len h - chatHistorySize cfg) in
    if (0 <=? low) && (low <=? len h) then inr (drop (Z.to_nat low) h)
    else inl (SliceBoundsOutOfRange low (len h))
  else inr h.

(** The surroundings after the reaction to a request from Kilovolt. *)
Definition incoming_world (cfg : Flags) (rpc : KeyValuePair)
    (write_err : option error) (w : World) : World :=
  {| kv := kv w; kv_sets := kv_sets w;
     ws_writes := ws_writes w
                    ++ [send_frame (channelID cfg) (clean_message (Value rpc))];
     log := log w
            ++ logged (logger cfg) DebugLevel [(go "key", Key rpc)]
                 (go "Received RPC message")
            ++ send_outcome cfg write_err;
     stdout := stdout w
                 ++ send_frame (channelID cfg) (clean_message (Value rpc))
                 ++ ["010"%char];
     stderr := stderr w |}.

(** The history after more messages: as it was without any, and the last
    [capacity] of all of them otherwise. *)
Definition history_after (capacity : Z) (h msgs : list ChatMessage)
    : list ChatMessage :=
  match msgs with
  | [] => h
  | _ :: _ => last_n (Z.to_nat capacity) (h ++ msgs)
  end.

(** *** The goroutine and the loop together *)

Section Yield.

Variable tokens : bytes -> option JSON.
Variable keyMatches : bytes -> bytes -> bool.
Variable decodeError : bytes -> error.

(** The message the goroutine sends for what it read, if any. *)
Definition yielded (r : ReadResult) : option ChatMessage :=
  match r with
  | ReadMessage MessageText byt =>
    match Unmarshal_payload tokens keyMatches decodeError byt with
    | inr p =>
      match msgType p, msgSubType p with
      | None, None => Some (Data_ChatMessage (Result_Data (Result (result p))))
      | _, _ => None
      end
    | inl _ => None
    end
  | _ => None
  end.

(** The surroundings after the goroutine has handled what it read. *)
Definition receive_world (cfg : Flags) (r : ReadResult) (w : World) : World :=
  match r with
  | ReadError err =>
    with_entry
      (fatal_entry [(go "error", Error err)]
         (if bool_decide (err = io_EOF)
          then go "Connection was closed by remote"
          else go "Could not read from websocket")) w
  | ReadMessage MessageText byt =>
    match Unmarshal_payload tokens keyMatches decodeError byt with
    | inl err =>
      with_entry {| entry_Level := ErrorLevel;
                    entry_Message := go "Could not decode websocket message";
                    entry_Data := [(go "error", Error err)] |}
                 (frame_logged cfg byt w)
    | inr _ => frame_logged cfg byt w
    end
  | ReadMessage MessageBinary byt => frame_logged cfg byt w
  end.

(** The events the relay loop receives for what happens to the process. *)
Definition events_of (os : list Occurrence) : list Event :=
  flat_map (fun o =>
              match o with
              | SocketRead r event_err history_err =>
                match yielded r with
                | Some msg => [WsMsg msg event_err history_err]
                | None => []
                end
              | TimerTick write_err => [Tick write_err]
              | KilovoltPush rpc write_err => [Incoming rpc write_err]
              end) os.

End Yield.


(** What ends the process: a read that fails, a heartbeat that cannot be
    written. *)
Definition fatal (o : Occurrence) : bool :=
  match o with
  | SocketRead (ReadError _) _ _ => true
  | TimerTick (Some _) => true
  | _ => false
  end.



(** *** Outgoing texts, continued *)

(** Every double quote of the text comes directly after a backslash;
    [after_backslash] tells whether the text itself comes after one. *)
Fixpoint quotes_escaped (after_backslash : bool) (s : bytes) : bool :=
  match s with
  | [] => true
  | c :: s' =>
    (negb (Ascii.eqb c dquote) || after_backslash)
    && quotes_escaped (Ascii.eqb c backslash) s'
  end.

(** What the process handles without a call that fails: a frame that is
    decoded, a heartbeat that is written, a request that is sent. *)
Definition uneventful (tokens : bytes -> option JSON)
    (keyMatches : bytes -> bytes -> bool) (decodeError : bytes -> error)
    (o : Occurrence) : bool :=
  match o with
  | SocketRead (ReadMessage MessageText byt) None None =>
    match Unmarshal_payload tokens keyMatches decodeError byt with
    | inr _ => true
    | inl _ => false
    end
  | SocketRead (ReadMessage MessageBinary _) None None => true
  | TimerTick None => true
  | KilovoltPush _ None => true
  | _ => false
  end.

(** The key of a store write is one of the two keys the bridge owns. *)
Definition own_key (cfg : Flags) (write : bytes * bytes) : Prop :=
  fst write = chatEventKey cfg \/ fst write = chatHistoryKey cfg.

(** *** Reading back what the encoder wrote *)

(** The value of a hexadecimal digit as [jsoniter.hex] writes them. *)
Definition unhex (c : ascii) : Z :=
  let b := byte_val c in
  if (0x30 <=? b) && (b <=? 0x39) then b - 0x30
  else if (0x61 <=? b) && (b <=? 0x66) then b - 0x61 + 10
  else 0.

(** The byte an escape of two bytes stands for. *)
Definition unescape (e : ascii) : ascii :=
  if Ascii.eqb e "n"%char then "010"%char
  else if Ascii.eqb e "r"%char then "013"%char
  else if Ascii.eqb e "t"%char then "009"%char
  else e.

(** The string whose text, after the opening quote, is at the start of
    [s], and what follows its closing quote. *)
Fixpoint read_chars (s : bytes) : option (bytes * bytes) :=
  match s with
  | [] => None
  | c :: s1 =>
    if Ascii.eqb c dquote then Some ([], s1)
    else if Ascii.eqb c backslash then
      match s1 with
      | [] => None
      | e :: s2 =>
        if Ascii.eqb e "u"%char then
          match s2 with
          | _ :: _ :: x :: y :: s3 =>
            match read_chars s3 with
            | Some (t, rest) => Some (byte_of (16 * unhex x + unhex y) :: t, rest)
            | None => None
            end
          | _ => None
          end
        else
          match read_chars s2 with
          | Some (t, rest) => Some (unescape e :: t, rest)
          | None => None
          end
      end
    else
      match read_chars s1 with
      | Some (t, rest) => Some (c :: t, rest)
      | None => None
      end
  end.

(** ** Sample inputs *)

Definition sample_flags (capacity : Z) : Flags :=
  {| endpoint := go "http://localhost:4337/ws"; password := [];
     prefix := go "glimesh/"; channelID := 42; clientID := go "id";
     clientSecret := go "secret"; chatHistorySize := capacity;
     loglevel := go "info" |}.

Definition sample_message (text : string) : ChatMessage :=
  {| Message := go text; User := {| Username := go "ash" |} |}.

Definition msg_A : ChatMessage := sample_message "A".
Definition msg_B : ChatMessage := sample_message "B".
Definition msg_C : ChatMessage := sample_message "C".

Definition sample_arrivals : list arrival :=
  [(msg_A, (None, None)); (msg_B, (None, None)); (msg_C, (None, None))].

(** The surroundings after the relay loop, with capacity 2 and an empty
    history, has handled the first [k] of the sample arrivals. *)
Definition sample_run (k : nat) : World :=
  world_of (relay_loop Bits64 (sample_flags 2)
              (map arrival_event (take k sample_arrivals)) [] empty_World).

(** A start-up in which every call succeeds and Kilovolt has no history. *)
Definition sample_env : StartupEnv :=
  {| env_NewClient := None;
     env_GetJSON := inl (errorString (go "EOF"));
     env_SetJSON := None;
     env_Post := None;
     env_Decode := inr {| AccessToken := go "token"; RefreshToken := None;
                          CreatedAt := go "2021-11-01T00:00:00"; Expires := 3600;
                          Scope := go "chat"; TokenType := go "bearer" |};
     env_Dial := None;
     env_join := None;
     env_subscribe := None;
     env_SubscribeKey := None |}.

(** A reading of frames for the samples: the frame [control] is a
    protocol reply with both tags set, the frame [empty] a push without a
    chat message, any other text is not JSON. *)
Definition sample_tokens (byt : bytes) : option JSON :=
  if bool_decide (byt = go "control") then
    Some (JArray [JString (go "1"); JString (go "1");
                  JString (go "__absinthe__:control"); JString (go "phx_reply");
                  JObject []])
  else if bool_decide (byt = go "empty") then
    Some (JArray [JNull; JNull; JString (go "__absinthe__:doc:1");
                  JString (go "subscription:data"); JObject []])
  else None.

Definition sample_keyMatches (tag key : bytes) : bool := bool_decide (tag = key).

Definition sample_decodeError (byt : bytes) : error :=
  errorString (go "there are bytes left after unmarshal").

(** *** More sample inputs *)

(** The flags of a start without arguments (lines 78 to 85). *)
Definition default_flags : Flags :=
  {| endpoint := go "http://localhost:4337/ws"; password := [];
     prefix := go "glimesh/"; channelID := -1; clientID := [];
     clientSecret := []; chatHistorySize := 6; loglevel := go "info" |}.

(** A start-up in which the socket cannot be opened. *)
Definition env_no_socket : StartupEnv :=
  {| env_NewClient := None;
     env_GetJSON := inr [msg_A];
     env_SetJSON := None;
     env_Post := None;
     env_Decode := env_Decode sample_env;
     env_Dial := Some (errorString (go "dial tcp: i/o timeout"));
     env_join := None;
     env_subscribe := None;
     env_SubscribeKey := None |}.

(** A start-up in which every call succeeds and Kilovolt holds a history
    of three messages. *)
Definition env_with_history : StartupEnv :=
  {| env_NewClient := None;
     env_GetJSON := inr [msg_A; msg_B; msg_C];
     env_SetJSON := None;
     env_Post := None;
     env_Decode := env_Decode sample_env;
     env_Dial := None;
     env_join := None;
     env_subscribe := None;
     env_SubscribeKey := None |}.

(** The fifth element of the frame Glimesh pushes for a chat message. *)
Definition chat_push (user text : bytes) : JSON :=
  JObject
    [(go "result",
      JObject
        [(go "data",
          JObject
            [(go "chatMessage",
              JObject [(go "user", JObject [(go "username", JString user)]);
                       (go "message", JString text)])])])].

(** A reading of frames for the samples: the frame [hello] is the push of
    the message [hello] of [ash]; the others are read as [sample_tokens]
    reads them. *)
Definition chat_tokens (byt : bytes) : option JSON :=
  if bool_decide (byt = go "hello") then
    Some (JArray [JNull; JNull; JString (go "__absinthe__:doc:1");
                  JString (go "subscription:data");
                  chat_push (go "ash") (go "hello")])
  else sample_tokens byt.

(** What happens in a sample run: a heartbeat, a reply of the protocol, a
    chat message, a request from Kilovolt. *)
Definition sample_run_of_process : list Occurrence :=
  [TimerTick None;
   SocketRead (ReadMessage MessageText (go "control")) None None;
   SocketRead (ReadMessage MessageText (go "hello")) None None;
   KilovoltPush {| Key := go "glimesh/@send-chat-message";
                   Value := go " say 'hi' " |} None].

(** * Properties *)

(** ** The library models on concrete inputs *)

Example TrimSpace_ascii :
  strings.TrimSpace (go "  say 'hi' " ++ ["010"%char]) = go "say 'hi'".
Proof. vm_compute. reflexivity. Qed.

Example TrimSpace_unicode :
  strings.TrimSpace (go " " ++ nbsp ++ go "a b" ++ lsep ++ go " " ++ nbsp) = go "a b".
Proof. vm_compute. reflexivity. Qed.

Example TrimSpace_unicode2 :
  strings.TrimSpace (nbsp ++ lsep ++ go "é" ++ lsep ++ go " " ++ nbsp) = go "é".
Proof. vm_compute. reflexivity. Qed.

Example TrimSpace_all : strings.TrimSpace (nbsp ++ lsep ++ go " ") = [].
Proof. vm_compute. reflexivity. Qed.

Example Replace_ex :
  strings.Replace (go "say 'hi'") (go "'") (backslash :: go "'") (-1)
  = go "say \'hi\'".
Proof. vm_compute. reflexivity. Qed.

Example Marshal_ChatMessage_ex :
  fst (Marshal (json_of_ChatMessage
         {| Message := go "a 'b'"; User := {| Username := go "u\" |} |}))
  = go "{'message':'a \'b\'','user':{'username':'u\\'}}".
Proof. vm_compute. reflexivity. Qed.

Example Marshal_history_ex :
  fst (Marshal (json_of_history [zero_ChatMessage; zero_ChatMessage]))
  = go "[{'message':'','user':{'username':''}},{'message':'','user':{'username':''}}]".
Proof. vm_compute. reflexivity. Qed.

Example Marshal_empty_history : fst (Marshal (json_of_history [])) = go "[]".
Proof. vm_compute. reflexivity. Qed.

(** The frame on the wire for the request [ say "hi" ]: JSON escapes the
    quotes and the backslashes of the mutation once more. *)
Example send_frame_on_the_wire :
  send_frame 42 (clean_message (go " say 'hi' "))
  = go "['1','4','__absinthe__:control','doc',{'query':'mutation {createChatMessage(channelId: 42, message: {message: \'say \\\'hi\\\'\'}) { message }}','variables':{}}]".
Proof. vm_compute. reflexivity. Qed.

(** ** The monad *)

Lemma bind_Ret {A B} (m : M A) (k : A -> M B) w a w' :
  m w = Ret a w' -> (m ≫= k) w = k a w'.
Proof. intros H. unfold mbind, M_bind. by rewrite H. Qed.

Lemma bind_Exit {A B} (m : M A) (k : A -> M B) w code w' :
  m w = Exit code w' -> (m ≫= k) w = Exit code w'.
Proof. intros H. unfold mbind, M_bind. by rewrite H. Qed.

Lemma bind_Panicked {A B} (m : M A) (k : A -> M B) w p w' :
  m w = Panicked p w' -> (m ≫= k) w = Panicked p w'.
Proof. intros H. unfold mbind, M_bind. by rewrite H. Qed.

(** ** The logger *)

(** Whatever the [log-level] flag, the logger emits errors and fatals. *)
Lemma parseLogLevel_at_least_error level :
  Level_num ErrorLevel <= Level_num (parseLogLevel level).
Proof.
  unfold parseLogLevel.
  repeat (case_match; try (simpl; lia)).
Qed.

Lemma error_enabled cfg : IsLevelEnabled (logger cfg) ErrorLevel = true.
Proof.
  unfold IsLevelEnabled, logger. apply Z.leb_le, parseLogLevel_at_least_error.
Qed.

Lemma fatal_enabled cfg : IsLevelEnabled (logger cfg) FatalLevel = true.
Proof.
  unfold IsLevelEnabled, logger. apply Z.leb_le.
  pose proof (parseLogLevel_at_least_error (loglevel cfg)). simpl in *. lia.
Qed.

Lemma log_at_eq lvl level data msg w :
  log_at lvl level data msg w
  = Ret tt {| kv := kv w; kv_sets := kv_sets w; ws_writes := ws_writes w;
              log := log w ++ logged lvl level data msg;
              stdout := stdout w; stderr := stderr w |}.
Proof.
  unfold log_at, logged. destruct (IsLevelEnabled lvl level); simpl.
  - reflexivity.
  - rewrite app_nil_r. by destruct w.
Qed.

(** ** Keys *)

Lemma chatEventKey_eq cfg : chatEventKey cfg = prefix cfg ++ go "ev/chat-message".
Proof. reflexivity. Qed.

Lemma chatHistoryKey_eq cfg : chatHistoryKey cfg = prefix cfg ++ go "chat-history".
Proof. reflexivity. Qed.

Lemma chatRPCKey_eq cfg : chatRPCKey cfg = prefix cfg ++ go "@send-chat-message".
Proof. reflexivity. Qed.

Lemma keys_distinct cfg : chatEventKey cfg ≠ chatHistoryKey cfg.
Proof.
  rewrite chatEventKey_eq, chatHistoryKey_eq. intros H.
  apply app_inv_head in H. discriminate H.
Qed.

(** ** Machine integers *)

Lemma wrap_int_in_range arch z :
  MinInt arch <= z <= MaxInt arch -> wrap_int arch z = z.
Proof.
  unfold wrap_int, MinInt, MaxInt. intros H.
  destruct arch; simpl in *; rewrite Z.mod_small; lia.
Qed.

(** ** The window *)

Lemma last_n_length {A} n (l : list A) :
  length (last_n n l) = Nat.min n (length l).
Proof. unfold last_n. rewrite length_drop. lia. Qed.

Lemma last_n_all {A} n (l : list A) : (length l <= n)%nat -> last_n n l = l.
Proof.
  intros H. unfold last_n. replace (length l - n)%nat with 0%nat by lia.
  reflexivity.
Qed.

Lemma last_n_app {A} n (l1 l2 : list A) :
  (n <= length l2)%nat -> last_n n (l1 ++ l2) = last_n n l2.
Proof.
  intros H. unfold last_n. rewrite length_app.
  replace (length l1 + length l2 - n)%nat
    with (length l1 + (length l2 - n))%nat by lia.
  by rewrite drop_app_add.
Qed.

(** Truncating after every arrival is truncating once. *)
Lemma last_n_snoc {A} n (l : list A) x :
  last_n n (last_n n l ++ [x]) = last_n n (l ++ [x]).
Proof.
  unfold last_n. rewrite !length_app, length_drop. simpl.
  destruct (decide (length l <= n)%nat) as [Hle|Hgt].
  - replace (length l - n)%nat with 0%nat by lia. simpl.
    by replace (length l - 0)%nat with (length l) by lia.
  - destruct n as [|n].
    + rewrite !drop_ge; [done| |]; rewrite ?length_app, ?length_drop; simpl; lia.
    + rewrite (drop_app_le l [x]) by lia.
      rewrite drop_app_le by (rewrite length_drop; lia).
      rewrite drop_drop. f_equal. f_equal. lia.
Qed.

(** ** The reaction to an inbound message *)

Lemma log_Error_eq cfg data msg w :
  log_Error (logger cfg) data msg w
  = Ret tt {| kv := kv w; kv_sets := kv_sets w; ws_writes := ws_writes w;
              log := log w ++ [{| entry_Level := ErrorLevel; entry_Message := msg;
                                  entry_Data := data |}];
              stdout := stdout w; stderr := stderr w |}.
Proof.
  unfold log_Error. rewrite log_at_eq. unfold logged.
  by rewrite error_enabled.
Qed.

Lemma client_SetJSON_eq key data outcome w :
  client_SetJSON key data outcome w
  = Ret outcome
        {| kv := committed key (jsoniter.encode data) outcome (kv w);
           kv_sets := kv_sets w ++ [(key, jsoniter.encode data)];
           ws_writes := ws_writes w; log := log w; stdout := stdout w;
           stderr := stderr w |}.
Proof. reflexivity. Qed.

(** The report of a store write that failed. *)
Lemma report_failure cfg key outcome w :
  match outcome with
  | Some e =>
    log_Error (logger cfg) (WithField (go "key") key ++ WithError e)
      (go "Could not set chat key")
  | None => mret tt
  end w
  = Ret tt {| kv := kv w; kv_sets := kv_sets w; ws_writes := ws_writes w;
              log := log w ++ set_failure cfg key outcome;
              stdout := stdout w; stderr := stderr w |}.
Proof.
  destruct outcome as [e|].
  - rewrite log_Error_eq. reflexivity.
  - unfold mret, M_ret. cbn [set_failure]. rewrite app_nil_r. by destruct w.
Qed.

Lemma persist_history cfg h' e2 w :
  (client_SetJSON (chatHistoryKey cfg) (json_of_history h') e2 ≫= fun err =>
   match err with
   | Some e =>
     log_Error (logger cfg)
       (WithField (go "key") (chatHistoryKey cfg) ++ WithError e)
       (go "Could not set chat key")
   | None => mret tt
   end ;; mret h') w
  = Ret h' {| kv := committed (chatHistoryKey cfg) (stored_history h') e2 (kv w);
              kv_sets := kv_sets w ++ [(chatHistoryKey cfg, stored_history h')];
              ws_writes := ws_writes w;
              log := log w ++ set_failure cfg (chatHistoryKey cfg) e2;
              stdout := stdout w; stderr := stderr w |}.
Proof.
  unfold mbind at 1, M_bind at 1. rewrite client_SetJSON_eq.
  unfold mbind at 1, M_bind at 1. rewrite report_failure. reflexivity.
Qed.

(** The reaction as the publication of the message, then the truncation
    and the persistence of the history. *)
Lemma on_wsmsg_unfold arch cfg msg e1 e2 h w :
  on_wsmsg arch cfg msg e1 e2 h w
  = ((if chatHistorySize cfg <? len (h ++ [msg])
      then slice_from (h ++ [msg])
             (wrap_int arch (len (h ++ [msg]) - chatHistorySize cfg))
      else mret (h ++ [msg])) ≫= fun h' =>
     client_SetJSON (chatHistoryKey cfg) (json_of_history h') e2 ≫= fun err =>
     match err with
     | Some e =>
       log_Error (logger cfg)
         (WithField (go "key") (chatHistoryKey cfg) ++ WithError e)
         (go "Could not set chat key")
     | None => mret tt
     end ;; mret h')
    {| kv := committed (chatEventKey cfg) (stored_message msg) e1 (kv w);
       kv_sets := kv_sets w ++ [(chatEventKey cfg, stored_message msg)];
       ws_writes := ws_writes w;
       log := log w
              ++ logged (logger cfg) DebugLevel
                   [(go "user", Username (User msg))] (go "Received message")
              ++ set_failure cfg (chatEventKey cfg) e1;
       stdout := stdout w; stderr := stderr w |}.
Proof.
  unfold on_wsmsg.
  unfold log_Debug at 1.
  unfold mbind at 1, M_bind at 1. rewrite log_at_eq.
  unfold mbind at 1, M_bind at 1. rewrite client_SetJSON_eq.
  unfold mbind at 1, M_bind at 1. rewrite report_failure.
  cbn [kv kv_sets ws_writes log stdout stderr].
  rewrite <- app_assoc. reflexivity.
Qed.

(** With a capacity of at least 0, and a history that is within it or
    shorter than the largest [int], the reaction leaves the last
    [chatHistorySize] messages and has made both writes. *)
Lemma on_wsmsg_window arch cfg msg e1 e2 h w :
  0 <= chatHistorySize cfg ->
  len h <= chatHistorySize cfg \/ len h < MaxInt arch ->
  on_wsmsg arch cfg msg e1 e2 h w
  = Ret (last_n (Z.to_nat (chatHistorySize cfg)) (h ++ [msg]))
        (wsmsg_world cfg msg e1 e2
           (last_n (Z.to_nat (chatHistorySize cfg)) (h ++ [msg])) w).
Proof.
  intros Hcap Hlen. rewrite on_wsmsg_unfold.
  unfold len in *. rewrite length_app in *. simpl length in *.
  destruct (Z.ltb_spec (chatHistorySize cfg) (Z.of_nat (length h + 1))) as [Hlt|Hge].
  - rewrite wrap_int_in_range
      by (unfold MinInt, MaxInt in *; destruct arch; simpl in *; lia).
    unfold slice_from, len. rewrite length_app. simpl length.
    replace ((0 <=? Z.of_nat (length h + 1) - chatHistorySize cfg)
             && (Z.of_nat (length h + 1) - chatHistorySize cfg
                 <=? Z.of_nat (length h + 1))) with true
      by (symmetry; apply andb_true_iff; split; apply Z.leb_le; lia).
    erewrite bind_Ret by reflexivity.
    replace (drop (Z.to_nat (Z.of_nat (length h + 1) - chatHistorySize cfg)) (h ++ [msg]))
      with (last_n (Z.to_nat (chatHistorySize cfg)) (h ++ [msg])).
    2:{ unfold last_n. rewrite length_app. simpl. f_equal. lia. }
    rewrite persist_history. unfold wsmsg_world.
    cbn [kv kv_sets ws_writes log stdout stderr].
    by rewrite <- !app_assoc.
  - erewrite bind_Ret by reflexivity.
    rewrite last_n_all by (rewrite length_app; simpl; lia).
    rewrite persist_history. unfold wsmsg_world.
    cbn [kv kv_sets ws_writes log stdout stderr].
    by rewrite <- !app_assoc.
Qed.

(** ** The loop over inbound messages *)

Lemma relay_loop_app arch cfg evs1 evs2 h w :
  relay_loop arch cfg (evs1 ++ evs2) h w
  = (relay_loop arch cfg evs1 h ≫= relay_loop arch cfg evs2) w.
Proof.
  revert h w. induction evs1 as [|ev evs1 IH]; intros h w.
  - reflexivity.
  - cbn [app relay_loop]. unfold mbind, M_bind.
    destruct (relay_case arch cfg ev h w) as [h' w'|code w'|p w']; try reflexivity.
    rewrite IH. reflexivity.
Qed.

(** A run of inbound messages from a history within the capacity returns,
    with the last [chatHistorySize] messages as history. *)
Lemma arrivals_window arch cfg (arrivals : list arrival) h w :
  0 <= chatHistorySize cfg ->
  len h <= chatHistorySize cfg ->
  exists w',
    relay_loop arch cfg (map arrival_event arrivals) h w
    = Ret (last_n (Z.to_nat (chatHistorySize cfg)) (h ++ map fst arrivals)) w'.
Proof.
  intros Hcap. revert h w.
  induction arrivals as [|[m [e1 e2]] arrivals IH]; intros h w Hlen.
  - exists w. cbn [map relay_loop]. rewrite app_nil_r.
    rewrite last_n_all by (unfold len in Hlen; lia). reflexivity.
  - cbn [map relay_loop arrival_event fst snd relay_case].
    unfold mbind at 1, M_bind at 1.
    rewrite on_wsmsg_window by auto.
    destruct (IH (last_n (Z.to_nat (chatHistorySize cfg)) (h ++ [m]))
                (wsmsg_world cfg m e1 e2
                   (last_n (Z.to_nat (chatHistorySize cfg)) (h ++ [m])) w))
      as [w' Hw'].
    { unfold len. rewrite last_n_length. lia. }
    exists w'. rewrite Hw'. f_equal.
    set (n := Z.to_nat (chatHistorySize cfg)).
    clear. revert h m. induction (map fst arrivals) as [|x l IHl] using rev_ind;
      intros h m.
    + rewrite !app_nil_r. unfold last_n at 1.
      rewrite last_n_length.
      replace (Nat.min n (length (h ++ [m])) - n)%nat with 0%nat by lia.
      reflexivity.
    + rewrite !app_assoc. rewrite <- (last_n_snoc n (_ ++ l)).
      rewrite IHl. rewrite last_n_snoc. by rewrite <- !app_assoc.
Qed.

(** ** The truncation with a negative capacity *)

(** A negative capacity puts the lower bound of the truncation outside the
    slice: above its length, or below 0 when the subtraction wraps. *)
Lemma negative_capacity_lower_bound arch n c :
  MinInt arch <= c < 0 ->
  0 <= n <= MaxInt arch ->
  let low := wrap_int arch (n - c) in
  (low < 0 \/ n < low)
  /\ (n - c <= MaxInt arch -> low = n - c /\ n < low).
Proof.
  intros Hc Hn low. subst low. unfold wrap_int, MinInt, MaxInt in *.
  destruct arch; simpl in *; split; try (intros Hfit; split);
    Z.div_mod_to_equations; lia.
Qed.

(** ** Start-up *)

Lemma check_flags_ok cfg w :
  clientID cfg ≠ [] -> clientSecret cfg ≠ [] -> channelID cfg ≠ -1 ->
  check_flags cfg w = Ret tt w.
Proof.
  intros H1 H2 H3. unfold check_flags.
  rewrite !bool_decide_eq_false_2 by assumption.
  replace (channelID cfg =? -1) with false by (symmetry; apply Z.eqb_neq; exact H3).
  reflexivity.
Qed.

(** Without a history to read, the history starts empty and is written. *)
Lemma load_history_missing cfg env err w :
  env_GetJSON env = inl err ->
  load_history cfg env w
  = Ret [] {| kv := committed (chatHistoryKey cfg) (go "[]") (env_SetJSON env) (kv w);
              kv_sets := kv_sets w ++ [(chatHistoryKey cfg, go "[]")];
              ws_writes := ws_writes w; log := log w; stdout := stdout w;
              stderr := stderr w |}.
Proof. intros H. unfold load_history. rewrite H. reflexivity. Qed.

(** ** What a computation does to the record of calls *)

#[local] Instance continues_preorder P : PreOrder (continues P).
Proof.
  split.
  - intros w. exists [], []. by rewrite !app_nil_r.
  - intros w1 w2 w3 (s1 & f1 & Hs1 & Hf1 & HP1) (s2 & f2 & Hs2 & Hf2 & HP2).
    exists (s1 ++ s2), (f1 ++ f2).
    rewrite Hs2, Hs1, Hf2, Hf1, !app_assoc. split_and!; try done.
    by apply Forall_app.
Qed.

#[local] Instance same_store_preorder : PreOrder same_store.
Proof.
  split.
  - intros w. by split.
  - intros w1 w2 w3 [H1 H2] [H3 H4]. split; congruence.
Qed.

Section Run_rel.

Context (R : World -> World -> Prop) `{!PreOrder R}.

Lemma run_rel_ret {A} (a : A) : run_rel R (mret a).
Proof. intros w. simpl. reflexivity. Qed.

Lemma run_rel_bind {A B} (m : M A) (k : A -> M B) :
  run_rel R m -> (forall a, run_rel R (k a)) -> run_rel R (m ≫= k).
Proof.
  intros Hm Hk w. unfold mbind, M_bind. specialize (Hm w).
  destruct (m w) as [a w'|code w'|p w']; simpl in *; try done.
  etransitivity; [exact Hm | apply Hk].
Qed.

Lemma run_rel_exit {A} code : run_rel R (os_Exit (A := A) code).
Proof. intros w. simpl. reflexivity. Qed.

Lemma run_rel_panic {A} p : run_rel R (runtime_panic (A := A) p).
Proof. intros w. simpl. reflexivity. Qed.

Lemma run_rel_slice_from {A} (s : list A) low : run_rel R (slice_from s low).
Proof.
  unfold slice_from. case_match; [apply run_rel_ret | apply run_rel_panic].
Qed.

(** What only writes to the log, to standard output or to standard error. *)
Hypothesis output_only : forall w w',
  kv w' = kv w -> kv_sets w' = kv_sets w -> ws_writes w' = ws_writes w -> R w w'.

Lemma run_rel_emit e : run_rel R (emit e).
Proof. intros w. by apply output_only. Qed.

Lemma run_rel_stdout s : run_rel R (write_stdout s).
Proof. intros w. by apply output_only. Qed.

Lemma run_rel_stderr s : run_rel R (write_stderr s).
Proof. intros w. by apply output_only. Qed.

Lemma run_rel_log_at lvl level data msg : run_rel R (log_at lvl level data msg).
Proof.
  unfold log_at. destruct (IsLevelEnabled lvl level);
    [apply run_rel_emit | apply run_rel_ret].
Qed.

Lemma run_rel_log_Fatal {A} lvl data msg :
  run_rel R (log_Fatal (A := A) lvl data msg).
Proof.
  apply run_rel_bind; [apply run_rel_log_at | intros; apply run_rel_exit].
Qed.

Lemma run_rel_check err format args : run_rel R (check err format args).
Proof.
  unfold check. destruct err; [|apply run_rel_ret].
  apply run_rel_bind; [apply run_rel_stderr | intros; apply run_rel_exit].
Qed.

End Run_rel.

Lemma continues_output_only P w w' :
  kv w' = kv w -> kv_sets w' = kv_sets w -> ws_writes w' = ws_writes w ->
  continues P w w'.
Proof. intros _ H1 H2. exists [], []. by rewrite H1, H2, !app_nil_r. Qed.

Lemma same_store_output_only w w' :
  kv w' = kv w -> kv_sets w' = kv_sets w -> ws_writes w' = ws_writes w ->
  same_store w w'.
Proof. intros H1 H2 _. by split. Qed.

Lemma continues_SetJSON P key data outcome :
  run_rel (continues P) (client_SetJSON key data outcome).
Proof.
  intros w. rewrite client_SetJSON_eq. simpl.
  exists [(key, jsoniter.encode data)], []. by rewrite app_nil_r.
Qed.

Lemma continues_Write (P : bytes -> Prop) frame outcome :
  P frame -> run_rel (continues P) (c_Write frame outcome).
Proof.
  intros HP w. simpl. exists [], [frame]. rewrite app_nil_r.
  split_and!; try done. by constructor.
Qed.

Lemma same_store_Write frame outcome : run_rel same_store (c_Write frame outcome).
Proof. intros w. by split. Qed.

(** Splits a sequence of calls into its calls and closes each with [tac]. *)
Ltac run_rel_steps tac :=
  repeat first
    [ apply run_rel_bind; [typeclasses eauto| |intros]
    | progress (unfold log_Debug, log_Info, log_Error)
    | match goal with
      | |- run_rel _ (match ?x with _ => _ end) => destruct x
      | |- run_rel _ (if ?x then _ else _) => destruct x
      | |- run_rel _ (let '(_, _) := ?x in _) => destruct x
      end
    | solve [tac] ].

Ltac continues_call :=
  first
    [ apply run_rel_ret; typeclasses eauto
    | apply run_rel_exit; typeclasses eauto
    | apply run_rel_panic; typeclasses eauto
    | apply run_rel_slice_from; typeclasses eauto
    | apply run_rel_log_at; [typeclasses eauto | apply continues_output_only]
    | apply run_rel_log_Fatal; [typeclasses eauto | apply continues_output_only]
    | apply run_rel_check; [typeclasses eauto | apply continues_output_only]
    | apply run_rel_stdout; apply continues_output_only
    | apply continues_SetJSON ].

Ltac same_store_call :=
  first
    [ apply run_rel_ret; typeclasses eauto
    | apply run_rel_exit; typeclasses eauto
    | apply run_rel_panic; typeclasses eauto
    | apply run_rel_log_at; [typeclasses eauto | apply same_store_output_only]
    | apply run_rel_log_Fatal; [typeclasses eauto | apply same_store_output_only]
    | apply run_rel_check; [typeclasses eauto | apply same_store_output_only]
    | apply run_rel_stdout; apply same_store_output_only
    | apply same_store_Write ].

(** ** The frames of the program *)

Lemma join_frame_kind cfg : frame_kind cfg join_frame.
Proof. apply kind_join. Qed.

Lemma heartbeat_frame_kind cfg : frame_kind cfg heartbeat_frame.
Proof. apply kind_heartbeat. Qed.

Lemma subscribe_frame_kind cfg : frame_kind cfg (subscribe_frame cfg).
Proof.
  replace (subscribe_frame cfg) with
    (phx_frame (go "1") (go "2") (go "__absinthe__:control") (go "doc")
       (go "{'query':" ++ quoted (subscription_text (channelID cfg))
          ++ go ",'variables':{} }")).
  - apply kind_subscribe.
  - unfold subscribe_frame, subscription_text, phx_frame, quoted.
    cbn [fmt.Sprintf go map list_ascii_of_string go_char Ascii.eqb Bool.eqb
         apostrophe orb andb app fmt.verb_d fmt.verb_s].
    rewrite <- ?app_assoc. reflexivity.
Qed.

Lemma mutation_query_eq cfg message :
  mutation_query cfg message = mutation_text (channelID cfg) message.
Proof.
  unfold mutation_query, mutation_text.
  cbn [fmt.Sprintf go map list_ascii_of_string go_char Ascii.eqb Bool.eqb
       apostrophe orb andb app fmt.verb_d fmt.verb_s].
  rewrite <- ?app_assoc. reflexivity.
Qed.

Lemma send_frame_eq payload :
  jsoniter.encode (send_document payload)
  = phx_frame (go "1") (go "4") (go "__absinthe__:control") (go "doc")
      (go "{'query':" ++ jsoniter.WriteString payload ++ go ",'variables':{}}").
Proof.
  unfold send_document, json_of_GQLQuery, phx_frame, quoted.
  cbn [jsoniter.encode map jsoniter.join fst snd Query Variables].
  change (jsoniter.WriteString (go "1")) with (go "'1'").
  change (jsoniter.WriteString (go "4")) with (go "'4'").
  change (jsoniter.WriteString (go "__absinthe__:control"))
    with (go "'__absinthe__:control'").
  change (jsoniter.WriteString (go "doc")) with (go "'doc'").
  change (jsoniter.WriteString (go "query")) with (go "'query'").
  change (jsoniter.WriteString (go "variables")) with (go "'variables'").
  generalize (jsoniter.WriteString payload). intros q.
  cbn [go map list_ascii_of_string go_char Ascii.eqb Bool.eqb apostrophe app].
  rewrite <- ?app_assoc.
  cbn [go map list_ascii_of_string go_char Ascii.eqb Bool.eqb apostrophe app].
  reflexivity.
Qed.

Lemma send_frame_kind cfg text :
  frame_kind cfg
    (jsoniter.encode (send_document (mutation_query cfg (clean_message text)))).
Proof. rewrite send_frame_eq, mutation_query_eq. apply kind_send. Qed.

(** ** Every part of the program only adds calls, and frames of the four
    kinds *)

Section Program_continues.

Variable tokens : bytes -> option JSON.
Variable keyMatches : bytes -> bytes -> bool.
Variable decodeError : bytes -> error.
Variable cfg : Flags.
Variable arch : GOARCH.

Let R := continues (frame_kind cfg).

Lemma on_tick_continues write_err : run_rel R (on_tick write_err).
Proof.
  unfold on_tick. apply run_rel_bind; [typeclasses eauto | |].
  - apply continues_Write, heartbeat_frame_kind.
  - intros. continues_call.
Qed.

Lemma on_wsmsg_continues msg e1 e2 h : run_rel R (on_wsmsg arch cfg msg e1 e2 h).
Proof. unfold on_wsmsg. run_rel_steps continues_call. Qed.

Lemma on_incoming_continues kv write_err : run_rel R (on_incoming cfg kv write_err).
Proof.
  unfold on_incoming, Marshal.
  apply run_rel_bind; [typeclasses eauto | unfold log_Debug; continues_call |].
  intros _. apply run_rel_bind; [typeclasses eauto | continues_call |].
  intros _. apply run_rel_bind; [typeclasses eauto | |].
  - apply continues_Write, send_frame_kind.
  - intros []; unfold log_Error, log_Debug; continues_call.
Qed.

Lemma relay_case_continues ev h : run_rel R (relay_case arch cfg ev h).
Proof.
  destruct ev; cbn [relay_case].
  - apply run_rel_bind; [typeclasses eauto | apply on_tick_continues |].
    intros. continues_call.
  - apply on_wsmsg_continues.
  - apply run_rel_bind; [typeclasses eauto | apply on_incoming_continues |].
    intros. continues_call.
Qed.

Lemma receive_continues r :
  run_rel R (receive tokens keyMatches decodeError cfg r).
Proof. unfold receive. run_rel_steps continues_call. Qed.

Lemma bridge_step_continues o h :
  run_rel R (bridge_step tokens keyMatches decodeError cfg arch o h).
Proof.
  destruct o; cbn [bridge_step]; try apply relay_case_continues.
  apply run_rel_bind; [typeclasses eauto | apply receive_continues |].
  intros [msg|]; [apply relay_case_continues | continues_call].
Qed.

Lemma bridge_loop_continues os h :
  run_rel R (bridge_loop tokens keyMatches decodeError cfg arch os h).
Proof.
  revert h. induction os as [|o os IH]; intros h; cbn [bridge_loop].
  - continues_call.
  - apply run_rel_bind;
      [typeclasses eauto | apply bridge_step_continues | apply IH].
Qed.

Lemma connect_glimesh_continues env : run_rel R (connect_glimesh cfg env).
Proof.
  unfold connect_glimesh.
  repeat first
    [ apply run_rel_bind; [typeclasses eauto| |intros]
    | apply continues_Write; first [apply join_frame_kind | apply subscribe_frame_kind]
    | progress (unfold log_Info)
    | solve [continues_call] ].
Qed.

Lemma subscribe_rpc_continues env : run_rel R (subscribe_rpc cfg env).
Proof. unfold subscribe_rpc. run_rel_steps continues_call. Qed.

Lemma startup_continues env : run_rel R (startup cfg env).
Proof.
  unfold startup, check_flags, load_history.
  repeat first
    [ apply connect_glimesh_continues
    | apply subscribe_rpc_continues
    | apply run_rel_bind; [typeclasses eauto| |intros]
    | match goal with
      | |- run_rel _ (match ?x with _ => _ end) => destruct x
      | |- run_rel _ (if ?x then _ else _) => destruct x
      end
    | solve [continues_call] ].
Qed.

Lemma main_continues env os :
  run_rel R (main tokens keyMatches decodeError cfg arch env os).
Proof.
  unfold main. apply run_rel_bind;
    [typeclasses eauto | apply startup_continues
    | intros; apply bridge_loop_continues].
Qed.

(** ** What leaves the store alone *)

Lemma receive_same_store r :
  run_rel same_store (receive tokens keyMatches decodeError cfg r).
Proof. unfold receive. run_rel_steps same_store_call. Qed.

Lemma on_tick_same_store write_err : run_rel same_store (on_tick write_err).
Proof. unfold on_tick. run_rel_steps same_store_call. Qed.

Lemma on_incoming_same_store kv write_err :
  run_rel same_store (on_incoming cfg kv write_err).
Proof. unfold on_incoming, Marshal. run_rel_steps same_store_call. Qed.

Lemma connect_glimesh_same_store env : run_rel same_store (connect_glimesh cfg env).
Proof. unfold connect_glimesh. run_rel_steps same_store_call. Qed.

Lemma subscribe_rpc_same_store env : run_rel same_store (subscribe_rpc cfg env).
Proof. unfold subscribe_rpc. run_rel_steps same_store_call. Qed.

End Program_continues.

(** ** Frames that are not of a given shape *)

Lemma HasPrefix_app t b : strings.HasPrefix (t ++ b) t = true.
Proof.
  induction t as [|c t IH]; [reflexivity|].
  cbn [app strings.HasPrefix]. by rewrite Ascii.eqb_refl, IH.
Qed.

Lemma Index_unfold s t :
  strings.Index s t
  = if strings.HasPrefix s t then 0
    else match s with
         | [] => -1
         | _ :: s' =>
           let i := strings.Index s' t in if i <? 0 then -1 else i + 1
         end.
Proof. destruct s; reflexivity. Qed.

(** A string that holds [t] has an index for it. *)
Lemma Index_found a t b : 0 <= strings.Index (a ++ t ++ b) t.
Proof.
  induction a as [|c a IH].
  - cbn [app]. rewrite Index_unfold, HasPrefix_app. done.
  - cbn [app]. rewrite Index_unfold.
    destruct (strings.HasPrefix (c :: a ++ t ++ b) t); [done|].
    cbv zeta.
    destruct (Z.ltb_spec (strings.Index (a ++ t ++ b) t) 0); lia.
Qed.

Lemma last_n_suffix {A} (x s : list A) : last_n (length s) (x ++ s) = s.
Proof. rewrite last_n_app by done. by apply last_n_all. Qed.

(** A frame splits into its references and the rest. *)
Lemma phx_frame_split r1 r2 topic event payload :
  phx_frame r1 r2 topic event payload
  = (go "[" ++ quoted r1 ++ go "," ++ quoted r2)
      ++ (go "," ++ quoted topic ++ go "," ++ quoted event ++ go ","
            ++ payload ++ go "]").
Proof. unfold phx_frame. by rewrite <- !app_assoc. Qed.

(** A frame splits around its event. *)
Lemma phx_frame_event r1 r2 topic event payload :
  phx_frame r1 r2 topic event payload
  = (go "[" ++ quoted r1 ++ go "," ++ quoted r2 ++ go "," ++ [dquote] ++ topic)
      ++ ([dquote] ++ go "," ++ quoted event ++ go ",") ++ (payload ++ go "]").
Proof.
  unfold phx_frame, quoted. cbn [app go map list_ascii_of_string].
  repeat first [rewrite <- app_assoc | progress cbn [app]]. reflexivity.
Qed.

(** The join frame the program writes is none of the kinds that give the
    join frame the topic [control]. *)
Lemma join_frame_topic_not_control : ~ frame_kind_with_topic_control join_frame.
Proof.
  intros [(r1 & r2 & H)|[(r1 & r2 & topic & payload & H)|(r1 & r2 & H)]].
  - rewrite phx_frame_split in H.
    match type of H with
    | _ = ?x ++ ?t =>
      apply (f_equal (last_n (length t))) in H;
      rewrite (last_n_suffix x t) in H
    end.
    vm_compute in H. discriminate H.
  - rewrite phx_frame_event in H.
    pose proof (Index_found
                  (go "[" ++ quoted r1 ++ go "," ++ quoted r2 ++ go "," ++ [dquote] ++ topic)
                  ([dquote] ++ go "," ++ quoted (go "doc") ++ go ",")
                  (payload ++ go "]")) as Hi.
    rewrite <- H in Hi. vm_compute in Hi. by apply Hi.
  - rewrite phx_frame_split in H.
    match type of H with
    | _ = ?x ++ ?t =>
      apply (f_equal (last_n (length t))) in H;
      rewrite (last_n_suffix x t) in H
    end.
    vm_compute in H. discriminate H.
Qed.

(** ** The receive goroutine *)

Section Receive_proofs.

Variable tokens : bytes -> option JSON.
Variable keyMatches : bytes -> bytes -> bool.
Variable decodeError : bytes -> error.
Variable cfg : Flags.

#[local] Abbreviation decode := (Unmarshal_payload tokens keyMatches decodeError).
#[local] Abbreviation recv := (receive tokens keyMatches decodeError cfg).
#[local] Abbreviation bind_elems := (bind_elements keyMatches).
#[local] Abbreviation bind_elem := (bind_element keyMatches).

Lemma log_Fatal_eq {A} data msg w :
  log_Fatal (A := A) (logger cfg) data msg w
  = Exit 1 (with_entry {| entry_Level := FatalLevel; entry_Message := msg;
                          entry_Data := data |} w).
Proof.
  unfold log_Fatal. unfold mbind, M_bind. rewrite log_at_eq.
  unfold logged. rewrite fatal_enabled. reflexivity.
Qed.

(** A read error ends the process. *)
Lemma receive_error err w :
  recv (ReadError err) w
  = Exit 1 (with_entry
              {| entry_Level := FatalLevel;
                 entry_Message :=
                   if bool_decide (err = io_EOF)
                   then go "Connection was closed by remote"
                   else go "Could not read from websocket";
                 entry_Data := [(go "error", Error err)] |} w).
Proof.
  cbn [receive]. unfold mbind, M_bind.
  destruct (bool_decide (err = io_EOF)); cbn [negb].
  - unfold mret, M_ret. apply log_Fatal_eq.
  - rewrite log_Fatal_eq. reflexivity.
Qed.

(** A text frame: the frame is logged, then decoded. *)
Lemma receive_text byt w :
  recv (ReadMessage MessageText byt) w
  = match decode byt with
    | inl err =>
      Ret None
          (with_entry {| entry_Level := ErrorLevel;
                         entry_Message := go "Could not decode websocket message";
                         entry_Data := [(go "error", Error err)] |}
                      (frame_logged cfg byt w))
    | inr p =>
      Ret (match msgType p, msgSubType p with
           | None, None => Some (Data_ChatMessage (Result_Data (Result (result p))))
           | _, _ => None
           end)
          (frame_logged cfg byt w)
    end.
Proof.
  cbn [receive]. unfold mbind at 1, M_bind at 1.
  unfold log_Debug at 1. rewrite log_at_eq. fold (frame_logged cfg byt w).
  destruct (decode byt) as [err|p].
  - unfold mbind, M_bind. rewrite log_Error_eq. reflexivity.
  - destruct (msgType p), (msgSubType p); reflexivity.
Qed.

(** *** The leading tags *)

Lemma bind_element_tags i v p p' :
  bind_elem i v p = Some p' ->
  (i ≠ 0%nat -> msgType p' = msgType p)
  /\ (i ≠ 1%nat -> msgSubType p' = msgSubType p).
Proof.
  intros H.
  destruct i as [|[|[|[|[|i]]]]]; cbn [bind_element] in H;
    simplify_option_eq; split; intros; try done.
Qed.

Lemma bind_elements_tags elems i p p' :
  bind_elems i elems p = Some p' ->
  ((1 <= i)%nat -> msgType p' = msgType p)
  /\ ((2 <= i)%nat -> msgSubType p' = msgSubType p).
Proof.
  revert i p. induction elems as [|v elems IH]; intros i p H;
    cbn [bind_elements] in H.
  - by simplify_eq.
  - destruct (bind_elem i v p) as [p1|] eqn:Hv; [|discriminate].
    apply IH in H. apply bind_element_tags in Hv.
    destruct H as [H1 H2], Hv as [H3 H4].
    split; intros Hi; [rewrite H1, H3 | rewrite H2, H4]; lia || done.
Qed.

(** After a decoding without error, a leading tag is nil exactly when its
    element is [null] or missing. *)
Lemma bind_elements_leading elems p :
  bind_elems 0 elems zero_Payload = Some p ->
  (msgType p = None <-> nth 0 elems JNull = JNull)
  /\ (msgSubType p = None <-> nth 1 elems JNull = JNull).
Proof.
  intros H. destruct elems as [|e1 elems]; cbn [bind_elements] in H.
  - simplify_eq. done.
  - destruct (bind_elem 0 e1 zero_Payload) as [p1|] eqn:H1; [|discriminate].
    assert (msgType p1 = None <-> e1 = JNull) as Ht1.
    { cbn [bind_element] in H1. destruct e1; simplify_option_eq; done. }
    assert (msgSubType p1 = None) as Hs1.
    { apply bind_element_tags in H1. destruct H1 as [_ H1]. by rewrite H1. }
    destruct elems as [|e2 elems]; cbn [bind_elements] in H.
    + simplify_eq. cbn [nth]. done.
    + destruct (bind_elem 1 e2 p1) as [p2|] eqn:H2; [|discriminate].
      apply bind_elements_tags in H. destruct H as [Ha Hb].
      rewrite Ha, Hb by lia. cbn [nth].
      pose proof (bind_element_tags _ _ _ _ H2) as [Hc _].
      rewrite Hc by done. split; [exact Ht1|].
      cbn [bind_element] in H2. destruct e2; simplify_option_eq; done.
Qed.

(** *** A fifth element without the chat message *)

(** Members that leave [z] as it is, each, leave it as it is together. *)
Lemma bind_members_fixed {T} (field : bytes -> option (JSON -> T -> option T))
    members (z r : T) :
  (forall k x decode r',
      In (k, x) members -> field k = Some decode -> decode x z = Some r' -> r' = z) ->
  bind_members field members z = Some r ->
  r = z.
Proof.
  induction members as [|[k x] members IH]; intros Hfix H; cbn [bind_members] in H.
  - congruence.
  - destruct (field k) as [decode|] eqn:Hk.
    + destruct (decode x z) as [z'|] eqn:Hx; [|discriminate].
      assert (z' = z) as -> by (eapply Hfix; [left; reflexivity | exact Hk | exact Hx]).
      apply IH; [|exact H]. intros. eapply Hfix; eauto. by right.
    + apply IH; [|exact H]. intros. eapply Hfix; eauto. by right.
Qed.

(** A struct with one field, decoded from a document in which no member
    selected by the tag changes the field, keeps its value. *)
Lemma bind_struct_one_field_fixed {T} tag (decode : JSON -> T -> option T) v (z r : T) :
  (forall k x r',
      keyMatches tag k = true -> decode x z = Some r' ->
      match v with JObject members => In (k, x) members | _ => False end ->
      r' = z) ->
  bind_struct (fun k => if keyMatches tag k then Some decode else None) v z = Some r ->
  r = z.
Proof.
  intros Hfix H. destruct v; cbn [bind_struct] in H; try congruence.
  eapply bind_members_fixed; [|exact H].
  intros k x dec r' Hin Hk Hx. cbv beta in Hk.
  destruct (keyMatches tag k) eqn:Hm; [|discriminate].
  injection Hk as <-. eapply Hfix; eauto.
Qed.

Lemma has_path_member tag path members k x :
  json_has_path keyMatches (tag :: path) (JObject members) = false ->
  In (k, x) members ->
  keyMatches tag k = true ->
  json_has_path keyMatches path x = false.
Proof.
  cbn [json_has_path]. intros H Hin Hk.
  destruct (json_has_path keyMatches path x) eqn:Hp; [|reflexivity].
  assert (existsb (fun m => keyMatches tag (fst m)
                            && json_has_path keyMatches path (snd m)) members = true)
    as Hex; [|congruence].
  apply existsb_exists. exists (k, x). split; [exact Hin|].
  cbn [fst snd]. by rewrite Hk, Hp.
Qed.

Lemma bind_ChatMessageData_without_path v r :
  json_has_path keyMatches [go "chatMessage"] v = false ->
  bind_ChatMessageData keyMatches v {| Data_ChatMessage := zero_ChatMessage |} = Some r ->
  r = {| Data_ChatMessage := zero_ChatMessage |}.
Proof.
  intros Hpath. apply bind_struct_one_field_fixed.
  intros k x r' Hk _ Hin. destruct v; try done.
  pose proof (has_path_member _ _ _ _ _ Hpath Hin Hk) as Hx.
  discriminate Hx.
Qed.

Lemma bind_ChatMessageResultBody_without_path v r :
  json_has_path keyMatches [go "data"; go "chatMessage"] v = false ->
  bind_ChatMessageResultBody keyMatches v
    {| Result_Data := {| Data_ChatMessage := zero_ChatMessage |} |} = Some r ->
  r = {| Result_Data := {| Data_ChatMessage := zero_ChatMessage |} |}.
Proof.
  intros Hpath. apply bind_struct_one_field_fixed.
  intros k x r' Hk Hx Hin. destruct v; try done.
  pose proof (has_path_member _ _ _ _ _ Hpath Hin Hk) as Hp.
  cbn [Result_Data] in Hx.
  destruct (bind_ChatMessageData keyMatches x _) as [d|] eqn:Hd;
    cbn [mbind option_bind] in Hx; [|discriminate].
  apply (bind_ChatMessageData_without_path _ _ Hp) in Hd. by simplify_eq.
Qed.

(** The result stays at its zero value when the fifth element has no value
    at the path of the chat message. *)
Lemma bind_ChatMessageResult_without_path v r :
  json_has_path keyMatches chat_payload_path v = false ->
  bind_ChatMessageResult keyMatches v zero_ChatMessageResult = Some r ->
  r = zero_ChatMessageResult.
Proof.
  intros Hpath. apply bind_struct_one_field_fixed.
  intros k x r' Hk Hx Hin. destruct v; try done.
  pose proof (has_path_member _ _ _ _ _ Hpath Hin Hk) as Hp.
  cbn [Result zero_ChatMessageResult] in Hx.
  destruct (bind_ChatMessageResultBody keyMatches x _) as [d|] eqn:Hd;
    cbn [mbind option_bind] in Hx; [|discriminate].
  apply (bind_ChatMessageResultBody_without_path _ _ Hp) in Hd. by simplify_eq.
Qed.

(** A frame [[null, null, _, _, e5]] that decodes, with nothing at the path
    of the chat message in [e5], decodes to the zero message. *)
Lemma decode_without_chat_message byt e3 e4 e5 p :
  tokens byt = Some (JArray [JNull; JNull; e3; e4; e5]) ->
  decode byt = inr p ->
  json_has_path keyMatches chat_payload_path e5 = false ->
  msgType p = None /\ msgSubType p = None
  /\ Data_ChatMessage (Result_Data (Result (result p))) = zero_ChatMessage.
Proof.
  intros Htok Hdec Hpath. unfold Unmarshal_payload in Hdec. rewrite Htok in Hdec.
  destruct (bind_elems 0 _ zero_Payload) as [p'|] eqn:Hb; [|discriminate].
  injection Hdec as ->.
  cbn [bind_elements bind_element bind_eface_string_ptr mbind option_bind
       msgType msgSubType subId subType result zero_Payload] in Hb.
  destruct (bind_eface_string e3 []) as [s3|]; cbn [mbind option_bind] in Hb;
    [|discriminate].
  cbn [msgType msgSubType subId subType result] in Hb.
  destruct (bind_eface_string e4 []) as [s4|]; cbn [mbind option_bind] in Hb;
    [|discriminate].
  cbn [msgType msgSubType subId subType result] in Hb.
  destruct (bind_ChatMessageResult keyMatches e5 zero_ChatMessageResult) as [r|] eqn:Hr;
    cbn [mbind option_bind] in Hb; [|discriminate].
  apply (bind_ChatMessageResult_without_path _ _ Hpath) in Hr. subst r.
  injection Hb as <-. done.
Qed.

End Receive_proofs.

(** ** [strings.Replace] of one byte *)

Section Replace_byte.

Variable c : ascii.
Variable new : bytes.

(** [s] with every [c] replaced by [new]. *)
Let subst (s : bytes) : bytes :=
  flat_map (fun x => if Ascii.eqb x c then new else [x]) s.

Lemma HasPrefix_byte x s :
  strings.HasPrefix (x :: s) [c] = Ascii.eqb c x.
Proof. cbn [strings.HasPrefix]. apply andb_true_r. Qed.

Lemma Index_byte_nil : strings.Index [] [c] = -1.
Proof. reflexivity. Qed.

Lemma Index_byte_cons x s :
  strings.Index (x :: s) [c]
  = if Ascii.eqb c x then 0
    else if strings.Index s [c] <? 0 then -1 else strings.Index s [c] + 1.
Proof. rewrite Index_unfold, HasPrefix_byte. reflexivity. Qed.

(** The index is -1 when [c] does not occur; otherwise it splits the
    string at the first [c]. *)
Lemma Index_byte_spec s :
  (strings.Index s [c] = -1 /\ subst s = s)
  \/ exists pre post,
       s = pre ++ c :: post
       /\ strings.Index s [c] = len pre
       /\ subst pre = pre.
Proof.
  induction s as [|x s IH].
  - left. done.
  - rewrite Index_byte_cons. destruct (Ascii.eqb_spec c x) as [<-|Hne].
    + right. exists [], s. done.
    + assert (Ascii.eqb x c = false) as Hxc
        by (apply Ascii.eqb_neq; congruence).
      destruct IH as [[Hi Hs]|(pre & post & Hs & Hi & Hpre)].
      * left. rewrite Hi. split; [done|].
        subst subst. cbn [flat_map]. rewrite Hxc. cbn [app]. by f_equal.
      * right. exists (x :: pre), post. rewrite Hi. unfold len.
        destruct (Z.ltb_spec (Z.of_nat (length pre)) 0); [lia|].
        split; [by rewrite Hs|]. split; [cbn [length]; lia|].
        subst subst. cbn [flat_map]. rewrite Hxc. cbn [app]. by f_equal.
Qed.

Lemma subst_app s1 s2 : subst (s1 ++ s2) = subst s1 ++ subst s2.
Proof. apply flat_map_app. Qed.

Lemma subst_hit s : subst (c :: s) = new ++ subst s.
Proof. subst subst. cbn [flat_map]. by rewrite Ascii.eqb_refl. Qed.

(** The loop of [Count] counts the occurrences, and the loop of [Replace]
    run that many times replaces them all. *)
Lemma Count_Replace_loop fuel s i :
  (length s < fuel)%nat ->
  0 <= strings.Count_loop fuel s [c]
  /\ strings.Replace_loop (Z.to_nat (strings.Count_loop fuel s [c])) i s [c] new
     = subst s.
Proof.
  revert s i. induction fuel as [|fuel IH]; intros s i Hfuel; [lia|].
  destruct (Index_byte_spec s) as [[Hi Hs]|(pre & post & Hs & Hi & Hpre)].
  - cbn [strings.Count_loop]. rewrite Hi.
    cbn [Z.eqb Z.to_nat strings.Replace_loop]. done.
  - assert (drop (Z.to_nat (len pre + len [c])) s = post) as Hdrop.
    { rewrite Hs. unfold len. cbn [length].
      replace (Z.to_nat (Z.of_nat (length pre) + Z.of_nat 1))
        with (length pre + 1)%nat by lia.
      rewrite <- drop_drop, drop_app_length. reflexivity. }
    assert (strings.Count_loop (S fuel) s [c]
            = 1 + strings.Count_loop fuel post [c]) as Hcount.
    { cbn [strings.Count_loop]. rewrite Hi, Hdrop.
      destruct (Z.eqb_spec (len pre) (-1)); [unfold len in *; lia | reflexivity]. }
    destruct (IH post (i + 1)) as [Hnonneg Hloop].
    { rewrite Hs, length_app in Hfuel. cbn [length] in Hfuel. lia. }
    rewrite Hcount. split; [lia|].
    replace (Z.to_nat (1 + strings.Count_loop fuel post [c]))
      with (S (Z.to_nat (strings.Count_loop fuel post [c]))) by lia.
    cbn [strings.Replace_loop].
    replace (len [c] =? 0) with false by reflexivity.
    rewrite Hi, Hdrop, Hloop. unfold len. rewrite Nat2Z.id.
    rewrite Hs at 1. rewrite take_app_length.
    rewrite Hs, subst_app, subst_hit, Hpre. reflexivity.
Qed.

(** [Replace(s, c, new, -1)] replaces every [c]. *)
Lemma Replace_byte_all s :
  [c] ≠ new ->
  strings.Replace s [c] new (-1) = subst s.
Proof.
  intros Hne. unfold strings.Replace.
  rewrite bool_decide_eq_false_2 by exact Hne.
  cbn [orb Z.eqb]. unfold strings.Count.
  replace (len [c] =? 0) with false by reflexivity.
  destruct (Count_Replace_loop (S (length s)) s 0) as [Hnonneg Hloop]; [lia|].
  destruct (Z.eqb_spec (strings.Count_loop (S (length s)) s [c]) 0) as [Hz|Hnz].
  - rewrite Hz in Hloop. cbn [Z.to_nat strings.Replace_loop] in Hloop. done.
  - cbn [Z.ltb Z.compare orb]. exact Hloop.
Qed.

End Replace_byte.

(** The escaping of line 200 replaces every double quote. *)
Lemma Replace_quotes s :
  strings.Replace s (go "'") (go "\'") (-1) = escape_quotes s.
Proof.
  change (go "'") with [dquote]. rewrite Replace_byte_all by discriminate.
  reflexivity.
Qed.

(** ** The reaction to an outgoing request *)

Lemma on_incoming_eq cfg rpc write_err w :
  on_incoming cfg rpc write_err w
  = Ret tt
      {| kv := kv w; kv_sets := kv_sets w;
         ws_writes := ws_writes w
                        ++ [send_frame (channelID cfg) (clean_message (Value rpc))];
         log := log w
                ++ logged (logger cfg) DebugLevel [(go "key", Key rpc)]
                     (go "Received RPC message")
                ++ send_outcome cfg write_err;
         stdout := stdout w
                     ++ send_frame (channelID cfg) (clean_message (Value rpc))
                     ++ ["010"%char];
         stderr := stderr w |}.
Proof.
  unfold on_incoming, Marshal. cbv zeta. rewrite send_frame_eq, mutation_query_eq.
  unfold log_Debug.
  unfold mbind at 1, M_bind at 1. rewrite log_at_eq.
  fold (send_frame (channelID cfg) (clean_message (Value rpc))).
  generalize (send_frame (channelID cfg) (clean_message (Value rpc))). intros frame.
  unfold mbind at 1, M_bind at 1.
  change (fmt.Sprintf (go "%s" ++ ["010"%char]) [fmt.ArgString frame])
    with (frame ++ ["010"%char]).
  cbn [write_stdout kv kv_sets ws_writes log stdout stderr].
  unfold mbind at 1, M_bind at 1.
  cbn [c_Write kv kv_sets ws_writes log stdout stderr].
  destruct write_err as [e|]; cbn [send_outcome].
  - rewrite log_Error_eq. cbn [kv kv_sets ws_writes log stdout stderr].
    by rewrite <- app_assoc.
  - rewrite log_at_eq.
    cbn [kv kv_sets ws_writes log stdout stderr]. by rewrite <- app_assoc.
Qed.

(** * White space and [strings.TrimSpace] *)

(** ** Bytes *)

Lemma byte_val_range c : 0 <= byte_val c < 256.
Proof.
  unfold byte_val. pose proof (N_ascii_bounded c). lia.
Qed.

Lemma byte_of_val c : byte_of (byte_val c) = c.
Proof.
  unfold byte_of, byte_val. rewrite N2Z.id. apply ascii_N_embedding.
Qed.

Lemma byte_val_inj c c' : byte_val c = byte_val c' -> c = c'.
Proof. intros H. rewrite <- (byte_of_val c), <- (byte_of_val c'). by rewrite H. Qed.

Lemma map_byte_val_inj (x y : bytes) : map byte_val x = map byte_val y -> x = y.
Proof.
  revert y. induction x as [|c x IH]; intros [|c' y] H; try done.
  cbn [map] in H. injection H as Hc Hx.
  f_equal; [by apply byte_val_inj | by apply IH].
Qed.

(** ** [utf8.DecodeRuneInString] *)

Ltac split_comparisons :=
  repeat match goal with
         | |- context [?a <? ?b] => destruct (Z.ltb_spec a b); try lia
         | |- context [?a <=? ?b] => destruct (Z.leb_spec a b); try lia
         | |- context [?a =? ?b] => destruct (Z.eqb_spec a b); try lia
         end.

(** The table [first], by the ranges of its entries. *)
Lemma first_spec b :
  0 <= b < 256 ->
  (b < 0x80 /\ utf8.first b = utf8.as_)
  \/ ((0x80 <= b < 0xC2 \/ 0xF5 <= b) /\ utf8.first b = utf8.xx)
  \/ (0xC2 <= b < 0xE0 /\ utf8.first b = utf8.s1)
  \/ (b = 0xE0 /\ utf8.first b = utf8.s2)
  \/ ((0xE1 <= b < 0xED \/ 0xEE <= b < 0xF0) /\ utf8.first b = utf8.s3)
  \/ (b = 0xED /\ utf8.first b = utf8.s4)
  \/ (b = 0xF0 /\ utf8.first b = utf8.s5)
  \/ (0xF1 <= b < 0xF4 /\ utf8.first b = utf8.s6)
  \/ (b = 0xF4 /\ utf8.first b = utf8.s7).
Proof.
  intros Hb. unfold utf8.first. split_comparisons; intuition lia.
Qed.

(** The decoder at a first byte that starts an encoding of [sz] bytes with
    the second byte in [lo .. hi]. *)
Lemma DecodeRune_lead c0 t0 x sz lo hi :
  utf8.first (byte_val c0) = x ->
  (utf8.as_ <=? x) = false ->
  Z.land x 7 = sz ->
  utf8.acceptRanges (Z.shiftr x 4) = (lo, hi) ->
  utf8.DecodeRuneInString (c0 :: t0)
  = if len (c0 :: t0) <? sz then (utf8.RuneError, 1%nat)
    else
      match t0 with
      | [] => (utf8.RuneError, 1%nat)
      | c1 :: t1 =>
        if (byte_val c1 <? lo) || (hi <? byte_val c1) then (utf8.RuneError, 1%nat)
        else if sz <=? 2 then
          (utf8_alt.rune2 (byte_val c0) (byte_val c1), 2%nat)
        else
          match t1 with
          | [] => (utf8.RuneError, 1%nat)
          | c2 :: t2 =>
            if (byte_val c2 <? utf8.locb) || (utf8.hicb <? byte_val c2)
            then (utf8.RuneError, 1%nat)
            else if sz <=? 3 then
              (utf8_alt.rune3 (byte_val c0) (byte_val c1) (byte_val c2), 3%nat)
            else
              match t2 with
              | [] => (utf8.RuneError, 1%nat)
              | c3 :: _ =>
                if (byte_val c3 <? utf8.locb) || (utf8.hicb <? byte_val c3)
                then (utf8.RuneError, 1%nat)
                else (utf8_alt.rune4 (byte_val c0) (byte_val c1) (byte_val c2)
                        (byte_val c3), 4%nat)
              end
          end
      end.
Proof.
  intros H1 H2 H3 H4. unfold utf8.DecodeRuneInString. cbv zeta.
  rewrite H1, H2, H3, H4. reflexivity.
Qed.

Lemma DecodeRune_single c0 t0 x :
  utf8.first (byte_val c0) = x ->
  (utf8.as_ <=? x) = true ->
  utf8.DecodeRuneInString (c0 :: t0)
  = ((if Z.testbit x 0 then utf8.RuneError else byte_val c0), 1%nat).
Proof.
  intros H1 H2. unfold utf8.DecodeRuneInString. cbv zeta.
  rewrite H1, H2. reflexivity.
Qed.

Ltac decode_shapes :=
  unfold utf8_alt.decode, utf8_alt.valid2, utf8_alt.valid3, utf8_alt.valid4,
    utf8_alt.accept3, utf8_alt.accept4, utf8_alt.cont, utf8.locb, utf8.hicb,
    len;
  repeat match goal with
         | |- context [match ?t with [] => _ | _ :: _ => _ end] =>
           is_var t; destruct t; cbn [length]
         end.

Lemma DecodeRune_decode s : utf8.DecodeRuneInString s = utf8_alt.decode s.
Proof.
  destruct s as [|c0 t0]; [reflexivity|].
  pose proof (byte_val_range c0) as H0.
  destruct (first_spec (byte_val c0) H0)
    as [[Hr Hf]|[[Hr Hf]|[[Hr Hf]|[[Hr Hf]|[[Hr Hf]|[[Hr Hf]|[[Hr Hf]|[[Hr Hf]|[Hr Hf]]]]]]]]].
  - rewrite (DecodeRune_single c0 t0 _ Hf eq_refl).
    unfold utf8_alt.decode. split_comparisons. reflexivity.
  - rewrite (DecodeRune_single c0 t0 _ Hf eq_refl).
    decode_shapes; split_comparisons; reflexivity.
  - rewrite (DecodeRune_lead c0 t0 _ 2 0x80 0xBF Hf eq_refl eq_refl eq_refl).
    decode_shapes; split_comparisons; reflexivity.
  - rewrite (DecodeRune_lead c0 t0 _ 3 0xA0 0xBF Hf eq_refl eq_refl eq_refl).
    decode_shapes; split_comparisons; reflexivity.
  - rewrite (DecodeRune_lead c0 t0 _ 3 0x80 0xBF Hf eq_refl eq_refl eq_refl).
    decode_shapes; split_comparisons; reflexivity.
  - rewrite (DecodeRune_lead c0 t0 _ 3 0x80 0x9F Hf eq_refl eq_refl eq_refl).
    decode_shapes; split_comparisons; reflexivity.
  - rewrite (DecodeRune_lead c0 t0 _ 4 0x90 0xBF Hf eq_refl eq_refl eq_refl).
    decode_shapes; split_comparisons; reflexivity.
  - rewrite (DecodeRune_lead c0 t0 _ 4 0x80 0xBF Hf eq_refl eq_refl eq_refl).
    decode_shapes; split_comparisons; reflexivity.
  - rewrite (DecodeRune_lead c0 t0 _ 4 0x80 0x8F Hf eq_refl eq_refl eq_refl).
    decode_shapes; split_comparisons; reflexivity.
Qed.

(** ** The white space characters and the decoder *)

Lemma RuneError_no_space : unicode.IsSpace utf8.RuneError = false.
Proof. reflexivity. Qed.

Lemma is_space_code_In (x : bytes) :
  is_space_code (map byte_val x) = true -> In x space_encodings.
Proof.
  unfold is_space_code, space_codes. intros H.
  apply existsb_exists in H. destruct H as (e & He & Heq).
  apply bool_decide_eq_true in Heq. apply in_map_iff in He.
  destruct He as (enc & <- & Henc). apply map_byte_val_inj in Heq. by subst.
Qed.

Lemma forallb_seqZ f m n :
  forallb f (seqZ m n) = true -> forall z, m <= z < m + n -> f z = true.
Proof.
  intros H z Hz. rewrite forallb_forall in H. apply H.
  apply list_elem_of_In, elem_of_seqZ. exact Hz.
Qed.

Lemma space1 b :
  0 <= b < 0x80 -> unicode.IsSpace b = true -> is_space_code [b] = true.
Proof.
  intros Hb Hs.
  assert (forallb (fun b => implb (unicode.IsSpace b) (is_space_code [b]))
                  (seqZ 0 128) = true) as H by (vm_compute; reflexivity).
  pose proof (forallb_seqZ _ _ _ H b ltac:(lia)) as Hb'. cbv beta in Hb'.
  rewrite Hs in Hb'. exact Hb'.
Qed.

Lemma valid2_range b0 b1 :
  utf8_alt.valid2 b0 b1 = true -> 0xC2 <= b0 < 0xC2 + 30 /\ 0x80 <= b1 < 0x80 + 64.
Proof. unfold utf8_alt.valid2, utf8_alt.cont. split_comparisons; cbn; (discriminate || lia). Qed.

Lemma accept3_range b0 b1 :
  utf8_alt.accept3 b0 b1 = true -> 0xE0 <= b0 < 0xE0 + 16 /\ 0x80 <= b1 < 0x80 + 64.
Proof.
  unfold utf8_alt.accept3, utf8_alt.cont. split_comparisons; cbn; (discriminate || lia).
Qed.

Lemma accept4_range b0 b1 :
  utf8_alt.accept4 b0 b1 = true -> 0xF0 <= b0 < 0xF0 + 5 /\ 0x80 <= b1 < 0x80 + 64.
Proof.
  unfold utf8_alt.accept4, utf8_alt.cont. split_comparisons; cbn; (discriminate || lia).
Qed.

Lemma cont_range b : utf8_alt.cont b = true -> 0x80 <= b < 0x80 + 64.
Proof. unfold utf8_alt.cont. split_comparisons; cbn; (discriminate || lia). Qed.

Lemma space2 b0 b1 :
  utf8_alt.valid2 b0 b1 = true ->
  unicode.IsSpace (utf8_alt.rune2 b0 b1) = true ->
  is_space_code [b0; b1] = true.
Proof.
  intros Hv Hs. destruct (valid2_range _ _ Hv) as [H0 H1].
  assert (forallb (fun b0 => forallb (fun b1 =>
            implb (unicode.IsSpace (utf8_alt.rune2 b0 b1)) (is_space_code [b0; b1]))
            (seqZ 0x80 64)) (seqZ 0xC2 30) = true) as H by (vm_compute; reflexivity).
  pose proof (forallb_seqZ _ _ _ (forallb_seqZ _ _ _ H b0 H0) b1 H1) as Hb.
  cbv beta in Hb. rewrite Hs in Hb. exact Hb.
Qed.

Lemma space3 b0 b1 b2 :
  utf8_alt.valid3 b0 b1 b2 = true ->
  unicode.IsSpace (utf8_alt.rune3 b0 b1 b2) = true ->
  is_space_code [b0; b1; b2] = true.
Proof.
  intros Hv Hs. unfold utf8_alt.valid3 in Hv. apply andb_true_iff in Hv.
  destruct Hv as [Ha Hc]. destruct (accept3_range _ _ Ha) as [H0 H1].
  apply cont_range in Hc.
  assert (forallb (fun b0 => forallb (fun b1 => forallb (fun b2 =>
            implb (utf8_alt.accept3 b0 b1
                   && unicode.IsSpace (utf8_alt.rune3 b0 b1 b2))
                  (is_space_code [b0; b1; b2]))
            (seqZ 0x80 64)) (seqZ 0x80 64)) (seqZ 0xE0 16) = true) as H
    by (vm_compute; reflexivity).
  pose proof (forallb_seqZ _ _ _
                (forallb_seqZ _ _ _ (forallb_seqZ _ _ _ H b0 H0) b1 H1) b2 Hc) as Hb.
  cbv beta in Hb. rewrite Ha, Hs in Hb. exact Hb.
Qed.

Lemma space4 b0 b1 b2 b3 :
  0 <= b2 -> 0 <= b3 ->
  utf8_alt.valid4 b0 b1 b2 b3 = true ->
  unicode.IsSpace (utf8_alt.rune4 b0 b1 b2 b3) = false.
Proof.
  intros Hb2 Hb3 Hv. unfold utf8_alt.valid4 in Hv.
  apply andb_true_iff in Hv. destruct Hv as [Hv _].
  apply andb_true_iff in Hv. destruct Hv as [Ha _].
  destruct (accept4_range _ _ Ha) as [H0 H1].
  assert (forallb (fun b0 => forallb (fun b1 =>
            implb (utf8_alt.accept4 b0 b1)
                  (16 <=? Z.log2 (Z.lor (Z.shiftl (Z.land b0 utf8.mask4) 18)
                                        (Z.shiftl (Z.land b1 utf8.maskx) 12))))
            (seqZ 0x80 64)) (seqZ 0xF0 5) = true) as H by (vm_compute; reflexivity).
  pose proof (forallb_seqZ _ _ _ (forallb_seqZ _ _ _ H b0 H0) b1 H1) as Hb.
  cbv beta in Hb. rewrite Ha in Hb. cbn [implb] in Hb. apply Z.leb_le in Hb.
  set (hi := Z.lor (Z.shiftl (Z.land b0 utf8.mask4) 18)
                   (Z.shiftl (Z.land b1 utf8.maskx) 12)) in *.
  set (r := utf8_alt.rune4 b0 b1 b2 b3).
  assert (0 <= hi) as Hhi.
  { subst hi. apply Z.lor_nonneg. split; apply Z.shiftl_nonneg, Z.land_nonneg; lia. }
  assert (16 <= Z.log2 r) as Hlog.
  { subst r. unfold utf8_alt.rune4. fold hi.
    assert (0 <= Z.shiftl (Z.land b2 utf8.maskx) 6)
      by (apply Z.shiftl_nonneg, Z.land_nonneg; lia).
    assert (0 <= Z.land b3 utf8.maskx) by (apply Z.land_nonneg; lia).
    rewrite !Z.log2_lor; try lia.
    apply Z.lor_nonneg. split; lia. }
  assert (2 ^ 16 <= r) as Hr.
  { assert (0 < r) as Hpos.
    { destruct (Z.le_gt_cases r 0) as [Hle|]; [|lia].
      rewrite (Z.log2_nonpos r Hle) in Hlog. lia. }
    pose proof (Z.log2_spec r Hpos) as [Hlo _].
    etransitivity; [|exact Hlo]. apply Z.pow_le_mono_r; lia. }
  unfold unicode.IsSpace, unicode.White_Space_excluding_Latin, unicode.MaxLatin1.
  change (2 ^ 16) with 65536 in Hr.
  split_comparisons; reflexivity.
Qed.

(** ** Properties of the decoder *)

(** A decoded white space character is one of the encodings. *)
Lemma decode_space s r w :
  utf8_alt.decode s = (r, w) ->
  unicode.IsSpace r = true ->
  (1 <= w)%nat /\ In (take w s) space_encodings /\ (w <= length s)%nat.
Proof.
  unfold utf8_alt.decode. intros Hd Hs.
  destruct s as [|c0 t0]; [simplify_eq; discriminate|].
  pose proof (byte_val_range c0) as H0.
  destruct (Z.ltb_spec (byte_val c0) 128).
  { simplify_eq. split; [lia|]. split; [|cbn [length]; lia].
    apply is_space_code_In, space1; [lia | exact Hs]. }
  destruct t0 as [|c1 t1]; [simplify_eq; discriminate|].
  destruct (utf8_alt.valid2 _ _) eqn:Hv2.
  { simplify_eq. split; [lia|]. split; [|cbn [length]; lia].
    apply is_space_code_In. cbn [take map]. by apply space2. }
  destruct t1 as [|c2 t2]; [simplify_eq; discriminate|].
  destruct (utf8_alt.valid3 _ _ _) eqn:Hv3.
  { simplify_eq. split; [lia|]. split; [|cbn [length]; lia].
    apply is_space_code_In. cbn [take map]. by apply space3. }
  destruct t2 as [|c3 t3]; [simplify_eq; discriminate|].
  destruct (utf8_alt.valid4 _ _ _ _) eqn:Hv4; [|simplify_eq; discriminate].
  simplify_eq. rewrite space4 in Hs; [discriminate| | |exact Hv4];
    apply byte_val_range.
Qed.

Lemma In_space_encodings enc :
  In enc space_encodings ->
  Exists (fun e => enc = e) space_encodings.
Proof. intros H. apply Exists_exists. exists enc. split; [by apply list_elem_of_In|done]. Qed.

(** An encoding of a white space character, at the head of a string,
    decodes to a white space character of that width. *)
Lemma decode_enc enc rest :
  In enc space_encodings ->
  exists r,
    utf8_alt.decode (enc ++ rest) = (r, length enc)
    /\ unicode.IsSpace r = true.
Proof.
  intros H. unfold space_encodings, White_Space in H. cbn [map] in H.
  repeat (destruct H as [<-|H];
          [eexists; split; [vm_compute; reflexivity | vm_compute; reflexivity]|]).
  destruct H.
Qed.

(** The first byte of an encoding is no continuation byte; when it is
    ASCII it is an ASCII space and the whole encoding. *)
Lemma enc_first enc :
  In enc space_encodings ->
  exists c t,
    enc = c :: t
    /\ utf8_alt.cont (byte_val c) = false
    /\ (byte_val c < 0x80 -> strings.asciiSpace (byte_val c) = true /\ t = [])
    /\ (0x80 <= byte_val c -> t ≠ []).
Proof.
  intros H. unfold space_encodings, White_Space in H. cbn [map] in H.
  repeat (destruct H as [<-|H];
          [eexists _, _; split; [vm_compute; reflexivity|];
           split; [vm_compute; reflexivity|];
           split; [intros Hlt; first [by vm_compute in Hlt | split; reflexivity]
                  |intros Hge; first [done | exfalso; by vm_compute in Hge]]|]).
  destruct H.
Qed.

(** The last byte of an encoding is an ASCII space or no ASCII at all. *)
Lemma enc_last enc :
  In enc space_encodings ->
  exists t c,
    enc = t ++ [c]
    /\ (byte_val c < 0x80 -> strings.asciiSpace (byte_val c) = true /\ t = []).
Proof.
  intros H. unfold space_encodings, White_Space in H. cbn [map] in H.
  repeat (destruct H as [<-|H];
          [first
             [ exists []; eexists; split; [vm_compute; reflexivity|];
               intros Hlt; first [by vm_compute in Hlt | split; reflexivity]
             | eexists [_]; eexists; split; [vm_compute; reflexivity|];
               intros Hlt; exfalso; by vm_compute in Hlt
             | eexists [_; _]; eexists; split; [vm_compute; reflexivity|];
               intros Hlt; exfalso; by vm_compute in Hlt ]|]).
  destruct H.
Qed.

Lemma decode_width s r w :
  utf8_alt.decode s = (r, w) -> s ≠ [] -> (1 <= w <= 4)%nat /\ (w <= length s)%nat.
Proof.
  unfold utf8_alt.decode. intros Hd Hne.
  repeat match type of Hd with
         | context [match ?t with [] => _ | _ :: _ => _ end] =>
           destruct t; cbn [length]
         | context [if ?b then _ else _] => destruct b
         end; simplify_eq; cbn [length]; lia.
Qed.

(** A decoding of two bytes or more reads those bytes only. *)
Lemma decode_ext s r w t :
  utf8_alt.decode s = (r, w) ->
  (2 <= w)%nat ->
  utf8_alt.decode (take w s ++ t) = (r, w).
Proof.
  unfold utf8_alt.decode. intros Hd Hw.
  destruct s as [|c0 [|c1 [|c2 [|c3 s]]]];
    repeat match type of Hd with
           | context [if ?b then _ else _] => destruct b eqn:?
           end; simplify_eq; try lia; cbn [take app];
    repeat match goal with
           | H : ?b = _ |- context [if ?b then _ else _] => rewrite H
           end; reflexivity.
Qed.

(** A byte that is not ASCII, at the end of the string or before a byte
    that is no continuation byte, decodes with width 1. *)
Lemma decode_stuck c t :
  0x80 <= byte_val c ->
  (t = [] \/ exists c1 t1, t = c1 :: t1 /\ utf8_alt.cont (byte_val c1) = false) ->
  snd (utf8_alt.decode (c :: t)) = 1%nat.
Proof.
  intros Hc Ht. unfold utf8_alt.decode.
  destruct (Z.ltb_spec (byte_val c) 128); [lia|].
  destruct Ht as [->|(c1 & t1 & -> & Hcont)]; [reflexivity|].
  assert (utf8_alt.valid2 (byte_val c) (byte_val c1) = false) as ->.
  { unfold utf8_alt.valid2. rewrite Hcont. apply andb_false_r. }
  assert (utf8_alt.accept3 (byte_val c) (byte_val c1) = false) as H3.
  { destruct (utf8_alt.accept3 _ _) eqn:Ha; [|reflexivity].
    apply accept3_range in Ha. unfold utf8_alt.cont in Hcont.
    revert Hcont. split_comparisons; cbn; discriminate. }
  assert (utf8_alt.accept4 (byte_val c) (byte_val c1) = false) as H4.
  { destruct (utf8_alt.accept4 _ _) eqn:Ha; [|reflexivity].
    apply accept4_range in Ha. unfold utf8_alt.cont in Hcont.
    revert Hcont. split_comparisons; cbn; discriminate. }
  unfold utf8_alt.valid3, utf8_alt.valid4. rewrite H3, H4. cbn [andb].
  destruct t1 as [|c2 [|c3 t3]]; reflexivity.
Qed.

(** A decoding of two bytes or more starts at a byte that is not ASCII
    and is a start byte. *)
Lemma decode_lead c t r w :
  utf8_alt.decode (c :: t) = (r, w) ->
  (2 <= w)%nat ->
  0x80 <= byte_val c /\ utf8.RuneStart (byte_val c) = true.
Proof.
  unfold utf8_alt.decode. intros Hd Hw.
  destruct (Z.ltb_spec (byte_val c) 128); [simplify_eq; lia|].
  split; [lia|].
  assert (0xC2 <= byte_val c < 0xF5) as Hrange.
  { destruct t as [|c1 [|c2 [|c3 t]]];
      repeat match type of Hd with
             | context [if ?b then _ else _] => destruct b eqn:?
             end; simplify_eq; try lia;
      repeat match goal with
             | H : utf8_alt.valid2 _ _ = true |- _ => apply valid2_range in H
             | H : utf8_alt.valid3 _ _ _ = true |- _ =>
               unfold utf8_alt.valid3 in H; apply andb_true_iff in H;
               destruct H as [H _]; apply accept3_range in H
             | H : utf8_alt.valid4 _ _ _ _ = true |- _ =>
               unfold utf8_alt.valid4 in H; apply andb_true_iff in H;
               destruct H as [H _]; apply andb_true_iff in H;
               destruct H as [H _]; apply accept4_range in H
             end; lia. }
  assert (forallb (fun b => utf8.RuneStart b) (seqZ 0xC2 51) = true) as Hall
    by (vm_compute; reflexivity).
  apply (forallb_seqZ _ _ _ Hall). lia.
Qed.

(** ** [utf8.DecodeLastRuneInString] *)

Lemma RuneStart_false_cont b :
  0 <= b < 256 -> utf8.RuneStart b = false -> utf8_alt.cont b = true.
Proof.
  intros Hb Hs.
  assert (forallb (fun b => implb (negb (utf8.RuneStart b)) (utf8_alt.cont b))
                  (seqZ 0 256) = true) as Hall by (vm_compute; reflexivity).
  pose proof (forallb_seqZ _ _ _ Hall b ltac:(lia)) as H. cbv beta in H.
  rewrite Hs in H. exact H.
Qed.

(** At a continuation byte the decoder reports an error of width 1. *)
Lemma decode_at_cont c t :
  utf8.RuneStart (byte_val c) = false ->
  utf8_alt.decode (c :: t) = (utf8.RuneError, 1%nat).
Proof.
  intros Hs. apply RuneStart_false_cont in Hs; [|apply byte_val_range].
  apply cont_range in Hs. unfold utf8_alt.decode.
  destruct (Z.ltb_spec (byte_val c) 128); [lia|].
  destruct t as [|c1 t1]; [reflexivity|].
  assert (utf8_alt.valid2 (byte_val c) (byte_val c1) = false) as ->.
  { destruct (utf8_alt.valid2 _ _) eqn:Hv; [|reflexivity].
    apply valid2_range in Hv. lia. }
  destruct t1 as [|c2 t2]; [reflexivity|].
  assert (utf8_alt.valid3 (byte_val c) (byte_val c1) (byte_val c2) = false) as ->.
  { destruct (utf8_alt.valid3 _ _ _) eqn:Hv; [|reflexivity].
    unfold utf8_alt.valid3 in Hv. apply andb_true_iff in Hv. destruct Hv as [Hv _].
    apply accept3_range in Hv. lia. }
  destruct t2 as [|c3 t3]; [reflexivity|].
  assert (utf8_alt.valid4 (byte_val c) (byte_val c1) (byte_val c2) (byte_val c3)
          = false) as ->; [|reflexivity].
  destruct (utf8_alt.valid4 _ _ _ _) eqn:Hv; [|reflexivity].
  unfold utf8_alt.valid4 in Hv. apply andb_true_iff in Hv. destruct Hv as [Hv _].
  apply andb_true_iff in Hv. destruct Hv as [Hv _].
  apply accept4_range in Hv. lia.
Qed.

Lemma at_index_app p x k :
  0 <= k -> utf8.at_index (p ++ x) (len p + k) = utf8.at_index x k.
Proof.
  intros Hk. unfold utf8.at_index, len. f_equal.
  replace (Z.to_nat (Z.of_nat (length p) + k)) with (length p + Z.to_nat k)%nat by lia.
  rewrite app_nth2_plus. reflexivity.
Qed.

Lemma drop_app_len {A} (p x : list A) k :
  0 <= k -> drop (Z.to_nat (len p + k)) (p ++ x) = drop (Z.to_nat k) x.
Proof.
  intros Hk. unfold len.
  replace (Z.to_nat (Z.of_nat (length p) + k)) with (length p + Z.to_nat k)%nat by lia.
  rewrite <- drop_drop, drop_app_length. reflexivity.
Qed.

(** The backward search in a string that ends with the four bytes
    [x3 x2 x1 c]. *)
Lemma rune_start_back_long p x3 x2 x1 c :
  utf8.rune_start_back 4 (p ++ [x3; x2; x1; c]) (len p + 2) (len p)
  = if utf8.RuneStart (byte_val x1) then len p + 2
    else if utf8.RuneStart (byte_val x2) then len p + 1
    else if utf8.RuneStart (byte_val x3) then len p + 0
    else len p - 1.
Proof.
  cbn [utf8.rune_start_back].
  destruct (Z.ltb_spec (len p + 2) (len p)); [lia|].
  rewrite at_index_app by lia.
  change (utf8.at_index [x3; x2; x1; c] 2) with (byte_val x1).
  destruct (utf8.RuneStart (byte_val x1)); [reflexivity|].
  replace (len p + 2 - 1) with (len p + 1) by lia.
  destruct (Z.ltb_spec (len p + 1) (len p)); [lia|].
  rewrite at_index_app by lia.
  change (utf8.at_index [x3; x2; x1; c] 1) with (byte_val x2).
  destruct (utf8.RuneStart (byte_val x2)); [reflexivity|].
  replace (len p + 1 - 1) with (len p + 0) by lia.
  destruct (Z.ltb_spec (len p + 0) (len p)); [lia|].
  rewrite at_index_app by lia.
  change (utf8.at_index [x3; x2; x1; c] 0) with (byte_val x3).
  destruct (utf8.RuneStart (byte_val x3)); [reflexivity|].
  destruct (Z.ltb_spec (len p + 0 - 1) (len p)); lia.
Qed.

(** The last rune of a string that ends with the four bytes [x3 x2 x1 c]. *)
Lemma DecodeLast_long p x3 x2 x1 c :
  utf8.DecodeLastRuneInString (p ++ [x3; x2; x1; c])
  = utf8_alt.decode_last (p ++ [x3; x2; x1; c]).
Proof.
  unfold utf8.DecodeLastRuneInString, utf8_alt.decode_last.
  rewrite rev_app_distr. cbn [rev app].
  assert (len (p ++ [x3; x2; x1; c]) = len p + 4) as Hlen
    by (unfold len; rewrite length_app; cbn [length]; lia).
  assert (length (p ++ [x3; x2; x1; c]) = (length p + 4)%nat) as Hlen'
    by (rewrite length_app; reflexivity).
  rewrite Hlen, Hlen'. unfold utf8.UTFMax.
  destruct (Z.eqb_spec (len p + 4) 0); [unfold len in *; lia|].
  replace (len p + 4 - 1) with (len p + 3) by lia.
  rewrite at_index_app by lia.
  change (utf8.at_index [x3; x2; x1; c] 3) with (byte_val c).
  unfold utf8.RuneSelf.
  destruct (Z.ltb_spec (byte_val c) 128); [reflexivity|].
  replace (Z.max (len p + 4 - 4) 0) with (len p) by (unfold len; lia).
  replace (len p + 3 - 1) with (len p + 2) by lia.
  change (Z.to_nat 4) with 4%nat.
  rewrite rune_start_back_long. cbn [utf8_alt.start_back].
  assert (forall k, 0 <= k ->
            (if len p + k <? 0 then 0 else len p + k) = len p + k) as Hclamp
    by (intros; destruct (Z.ltb_spec (len p + k) 0); unfold len in *; lia).
  assert (forall k j : nat, (k + j = 4)%nat ->
            drop (length p + 4 - j) (p ++ [x3; x2; x1; c])
            = drop k [x3; x2; x1; c]) as Hdropn.
  { intros k j Hkj. replace (length p + 4 - j)%nat with (length p + k)%nat by lia.
    rewrite <- drop_drop, drop_app_length. reflexivity. }
  destruct (utf8.RuneStart (byte_val x1)) eqn:Hs1;
    [|destruct (utf8.RuneStart (byte_val x2)) eqn:Hs2;
      [|destruct (utf8.RuneStart (byte_val x3)) eqn:Hs3]].
  - rewrite Hclamp, drop_app_len, (Hdropn 2%nat 2%nat) by lia.
    rewrite DecodeRune_decode. change (Z.to_nat 2) with 2%nat.
    destruct (utf8_alt.decode _) as [r size].
    destruct (Z.eqb_spec (len p + 2 + Z.of_nat size) (len p + 4)),
             (Nat.eqb_spec size 2); try lia; reflexivity.
  - rewrite Hclamp, drop_app_len, (Hdropn 1%nat 3%nat) by lia.
    rewrite DecodeRune_decode. change (Z.to_nat 1) with 1%nat.
    destruct (utf8_alt.decode _) as [r size].
    destruct (Z.eqb_spec (len p + 1 + Z.of_nat size) (len p + 4)),
             (Nat.eqb_spec size 3); try lia; reflexivity.
  - rewrite Hclamp, drop_app_len, (Hdropn 0%nat 4%nat) by lia.
    rewrite DecodeRune_decode. change (Z.to_nat 0) with 0%nat.
    destruct (utf8_alt.decode _) as [r size].
    destruct (Z.eqb_spec (len p + 0 + Z.of_nat size) (len p + 4)),
             (Nat.eqb_spec size 4); try lia; reflexivity.
  - rewrite DecodeRune_decode.
    destruct (Z.ltb_spec (len p - 1) 0).
    + assert (p = []) as ->
        by (destruct p; [done | unfold len in *; cbn [length] in *; lia]).
      change (drop (Z.to_nat 0) ([] ++ [x3; x2; x1; c])) with [x3; x2; x1; c].
      rewrite decode_at_cont by exact Hs3. reflexivity.
    + destruct (utf8_alt.decode _) as [r size] eqn:Hd.
      apply decode_width in Hd.
      * destruct (Z.eqb_spec (len p - 1 + Z.of_nat size) (len p + 4)); [lia|].
        reflexivity.
      * intros Hnil. apply (f_equal length) in Hnil.
        rewrite length_drop, Hlen' in Hnil. cbn [length] in Hnil.
        unfold len in *. lia.
Qed.

Lemma DecodeLast_1 c :
  utf8.DecodeLastRuneInString [c] = utf8_alt.decode_last [c].
Proof.
  unfold utf8.DecodeLastRuneInString, utf8_alt.decode_last.
  change (len [c]) with 1. change (rev [c]) with [c].
  change (utf8.at_index [c] (1 - 1)) with (byte_val c). unfold utf8.RuneSelf.
  change (1 =? 0) with false. cbv iota.
  destruct (Z.ltb_spec (byte_val c) 128); [reflexivity|].
  change (utf8.rune_start_back (Z.to_nat utf8.UTFMax) [c] (1 - 1 - 1)
            (Z.max (1 - utf8.UTFMax) 0)) with (-1).
  change (drop (Z.to_nat (if -1 <? 0 then 0 else -1)) [c]) with [c].
  rewrite DecodeRune_decode. unfold utf8_alt.decode.
  destruct (Z.ltb_spec (byte_val c) 128); [lia|]. reflexivity.
Qed.

Lemma DecodeLast_2 x1 c :
  utf8.DecodeLastRuneInString [x1; c] = utf8_alt.decode_last [x1; c].
Proof.
  unfold utf8.DecodeLastRuneInString, utf8_alt.decode_last.
  change (len [x1; c]) with 2. change (rev [x1; c]) with [c; x1].
  change (utf8.at_index [x1; c] (2 - 1)) with (byte_val c). unfold utf8.RuneSelf.
  change (2 =? 0) with false. cbv iota.
  destruct (Z.ltb_spec (byte_val c) 128); [reflexivity|].
  change (utf8.rune_start_back (Z.to_nat utf8.UTFMax) [x1; c] (2 - 1 - 1)
            (Z.max (2 - utf8.UTFMax) 0))
    with (if utf8.RuneStart (byte_val x1) then 0 else -1).
  cbn [utf8_alt.start_back].
  destruct (utf8.RuneStart (byte_val x1)) eqn:Hs1.
  - change (drop (Z.to_nat (if 0 <? 0 then 0 else 0)) [x1; c]) with [x1; c].
    change (drop (length [x1; c] - 2) [x1; c]) with [x1; c].
    rewrite DecodeRune_decode. destruct (utf8_alt.decode _) as [r size].
    change (if 0 <? 0 then 0 else 0) with 0.
    destruct (Z.eqb_spec (0 + Z.of_nat size) 2), (Nat.eqb_spec size 2);
      try lia; reflexivity.
  - change (drop (Z.to_nat (if -1 <? 0 then 0 else -1)) [x1; c]) with [x1; c].
    rewrite DecodeRune_decode, decode_at_cont by exact Hs1. reflexivity.
Qed.

Lemma DecodeLast_3 x2 x1 c :
  utf8.DecodeLastRuneInString [x2; x1; c] = utf8_alt.decode_last [x2; x1; c].
Proof.
  unfold utf8.DecodeLastRuneInString, utf8_alt.decode_last.
  change (len [x2; x1; c]) with 3. change (rev [x2; x1; c]) with [c; x1; x2].
  change (utf8.at_index [x2; x1; c] (3 - 1)) with (byte_val c).
  unfold utf8.RuneSelf.
  change (3 =? 0) with false. cbv iota.
  destruct (Z.ltb_spec (byte_val c) 128); [reflexivity|].
  change (utf8.rune_start_back (Z.to_nat utf8.UTFMax) [x2; x1; c] (3 - 1 - 1)
            (Z.max (3 - utf8.UTFMax) 0))
    with (if utf8.RuneStart (byte_val x1) then 1
          else if utf8.RuneStart (byte_val x2) then 0 else -1).
  cbn [utf8_alt.start_back].
  destruct (utf8.RuneStart (byte_val x1)) eqn:Hs1;
    [|destruct (utf8.RuneStart (byte_val x2)) eqn:Hs2].
  - change (drop (Z.to_nat (if 1 <? 0 then 0 else 1)) [x2; x1; c]) with [x1; c].
    change (drop (length [x2; x1; c] - 2) [x2; x1; c]) with [x1; c].
    rewrite DecodeRune_decode. destruct (utf8_alt.decode _) as [r size].
    change (if 1 <? 0 then 0 else 1) with 1.
    destruct (Z.eqb_spec (1 + Z.of_nat size) 3), (Nat.eqb_spec size 2);
      try lia; reflexivity.
  - change (drop (Z.to_nat (if 0 <? 0 then 0 else 0)) [x2; x1; c]) with [x2; x1; c].
    change (drop (length [x2; x1; c] - 3) [x2; x1; c]) with [x2; x1; c].
    rewrite DecodeRune_decode. destruct (utf8_alt.decode _) as [r size].
    change (if 0 <? 0 then 0 else 0) with 0.
    destruct (Z.eqb_spec (0 + Z.of_nat size) 3), (Nat.eqb_spec size 3);
      try lia; reflexivity.
  - change (drop (Z.to_nat (if -1 <? 0 then 0 else -1)) [x2; x1; c])
      with [x2; x1; c].
    rewrite DecodeRune_decode, decode_at_cont by exact Hs2. reflexivity.
Qed.

Lemma DecodeLast_decode_last s :
  utf8.DecodeLastRuneInString s = utf8_alt.decode_last s.
Proof.
  rewrite <- (rev_involutive s). generalize (rev s). clear s. intros l.
  destruct l as [|c [|x1 [|x2 [|x3 l]]]].
  - reflexivity.
  - apply DecodeLast_1.
  - apply DecodeLast_2.
  - apply DecodeLast_3.
  - cbn [rev]. rewrite <- !app_assoc. cbn [app]. apply DecodeLast_long.
Qed.

(** ** Properties of the last rune *)

Lemma start_back_bound budget span0 rs span :
  utf8_alt.start_back budget span0 rs = Some span ->
  (span0 < span)%nat /\ (span <= span0 + length rs)%nat
  /\ (span <= span0 + budget)%nat.
Proof.
  revert span0 rs. induction budget as [|budget IH]; intros span0 rs H;
    cbn [utf8_alt.start_back] in H; [discriminate|].
  destruct rs as [|c rs]; [discriminate|].
  destruct (utf8.RuneStart (byte_val c)).
  - simplify_eq. cbn [length]. lia.
  - apply IH in H. cbn [length]. lia.
Qed.

(** The cases of the last rune: an ASCII byte; an encoding of two bytes or
    more that ends the string; an error of width 1 at a last byte that is
    not ASCII. *)
Lemma decode_last_cases p c r size :
  utf8_alt.decode_last (p ++ [c]) = (r, size) ->
  (size = 1%nat /\ byte_val c < 0x80 /\ r = byte_val c)
  \/ ((2 <= size <= length (p ++ [c]))%nat /\ 0x80 <= byte_val c
      /\ utf8_alt.decode (drop (length (p ++ [c]) - size) (p ++ [c])) = (r, size))
  \/ (size = 1%nat /\ 0x80 <= byte_val c /\ r = utf8.RuneError).
Proof.
  unfold utf8_alt.decode_last. rewrite rev_unit. intros H.
  destruct (Z.ltb_spec (byte_val c) 128).
  { left. by simplify_eq. }
  right.
  destruct (utf8_alt.start_back 3 1 (rev p)) as [span|] eqn:Hspan;
    [|right; by simplify_eq].
  apply start_back_bound in Hspan. rewrite length_rev in Hspan.
  destruct (utf8_alt.decode _) as [r' size'] eqn:Hd.
  destruct (Nat.eqb_spec size' span); [|right; by simplify_eq].
  left. simplify_eq. rewrite length_app. cbn [length].
  split; [lia|]. split; [lia|].
  rewrite length_app in Hd. cbn [length] in Hd. exact Hd.
Qed.

Lemma decode_last_width s r size :
  utf8_alt.decode_last s = (r, size) -> s ≠ [] ->
  (1 <= size <= length s)%nat.
Proof.
  intros H Hne. destruct (rev s) as [|c p] eqn:Hrev.
  { apply (f_equal (@rev ascii)) in Hrev. rewrite rev_involutive in Hrev. done. }
  assert (s = rev p ++ [c]) as ->.
  { rewrite <- (rev_involutive s), Hrev. reflexivity. }
  apply decode_last_cases in H.
  rewrite length_app in *. cbn [length] in *.
  destruct H as [(-> & _)|[(H & _)|(-> & _)]]; lia.
Qed.

(** A white space character decoded at the end of a string is one of the
    encodings. *)
Lemma decode_last_space s r size :
  utf8_alt.decode_last s = (r, size) ->
  unicode.IsSpace r = true ->
  (1 <= size <= length s)%nat
  /\ In (drop (length s - size) s) space_encodings.
Proof.
  intros H Hs. destruct (rev s) as [|c p] eqn:Hrev.
  { unfold utf8_alt.decode_last in H. rewrite Hrev in H. by simplify_eq. }
  assert (s = rev p ++ [c]) as ->.
  { rewrite <- (rev_involutive s), Hrev. reflexivity. }
  pose proof (decode_last_width _ _ _ H ltac:(by destruct (rev p))) as Hw.
  split; [exact Hw|].
  apply decode_last_cases in H.
  destruct H as [(-> & Hc & ->)|[(Hsize & _ & Hd)|(_ & _ & ->)]].
  - rewrite length_app. cbn [length].
    replace (length (rev p) + 1 - 1)%nat with (length (rev p)) by lia.
    rewrite drop_app_length.
    apply is_space_code_In, space1; [pose proof (byte_val_range c); lia | exact Hs].
  - destruct (decode_space _ _ _ Hd Hs) as (_ & Hin & _).
    rewrite take_ge in Hin; [exact Hin|]. rewrite length_drop. lia.
  - discriminate.
Qed.

Lemma decode_last_ascii rest c :
  byte_val c < 0x80 ->
  utf8_alt.decode_last (rest ++ [c]) = (byte_val c, 1%nat).
Proof.
  intros Hc. unfold utf8_alt.decode_last. rewrite rev_unit.
  destruct (Z.ltb_spec (byte_val c) 128); [reflexivity | lia].
Qed.

Lemma decode_last_two rest e0 e1 :
  0x80 <= byte_val e1 ->
  utf8.RuneStart (byte_val e0) = true ->
  utf8_alt.decode_last (rest ++ [e0; e1])
  = let '(r, size) := utf8_alt.decode [e0; e1] in
    if (size =? 2)%nat then (r, size) else (utf8.RuneError, 1%nat).
Proof.
  intros H1 H0. unfold utf8_alt.decode_last.
  rewrite rev_app_distr. cbn [rev app].
  destruct (Z.ltb_spec (byte_val e1) 128); [lia|].
  cbn [utf8_alt.start_back]. rewrite H0.
  rewrite length_app. cbn [length].
  replace (length rest + 2 - 2)%nat with (length rest) by lia.
  by rewrite drop_app_length.
Qed.

Lemma decode_last_three rest e0 e1 e2 :
  0x80 <= byte_val e2 ->
  utf8.RuneStart (byte_val e1) = false ->
  utf8.RuneStart (byte_val e0) = true ->
  utf8_alt.decode_last (rest ++ [e0; e1; e2])
  = let '(r, size) := utf8_alt.decode [e0; e1; e2] in
    if (size =? 3)%nat then (r, size) else (utf8.RuneError, 1%nat).
Proof.
  intros H2 H1 H0. unfold utf8_alt.decode_last.
  rewrite rev_app_distr. cbn [rev app].
  destruct (Z.ltb_spec (byte_val e2) 128); [lia|].
  cbn [utf8_alt.start_back]. rewrite H1, H0.
  rewrite length_app. cbn [length].
  replace (length rest + 3 - 3)%nat with (length rest) by lia.
  by rewrite drop_app_length.
Qed.

(** An encoding of a white space character, at the end of a string,
    decodes to a white space character of that width. *)
Lemma decode_last_enc rest enc :
  In enc space_encodings ->
  exists r,
    utf8_alt.decode_last (rest ++ enc) = (r, length enc)
    /\ unicode.IsSpace r = true.
Proof.
  intros H. unfold space_encodings, White_Space in H. cbn [map] in H.
  repeat (destruct H as [<-|H];
    [first
       [ eexists; split;
         [apply decode_last_ascii; vm_compute; reflexivity | vm_compute; reflexivity]
       | eexists; split;
         [etransitivity;
          [apply decode_last_two; [vm_compute; discriminate | vm_compute; reflexivity]
          | vm_compute; reflexivity]
         | vm_compute; reflexivity]
       | eexists; split;
         [etransitivity;
          [apply decode_last_three;
           [vm_compute; discriminate | vm_compute; reflexivity | vm_compute; reflexivity]
          | vm_compute; reflexivity]
         | vm_compute; reflexivity] ]|]).
  destruct H.
Qed.

(** ** White space strings *)

Lemma white_space_app a b : white_space a -> white_space b -> white_space (a ++ b).
Proof.
  induction 1 as [|enc rest Henc Hrest IH]; intros Hb; [exact Hb|].
  rewrite <- app_assoc. apply white_space_cons; [exact Henc | by apply IH].
Qed.

Lemma white_space_one enc : In enc space_encodings -> white_space enc.
Proof.
  intros H. rewrite <- (app_nil_r enc). apply white_space_cons; [exact H|constructor].
Qed.

Lemma enc_nonempty enc : In enc space_encodings -> enc ≠ [].
Proof. intros H. destruct (enc_first _ H) as (c & t & -> & _). done. Qed.

(** A white space string is empty or starts with a byte that is no
    continuation byte and, when ASCII, an ASCII space. *)
Lemma white_space_head s :
  white_space s ->
  s = []
  \/ exists c t,
       s = c :: t
       /\ utf8_alt.cont (byte_val c) = false
       /\ (byte_val c < 0x80 -> strings.asciiSpace (byte_val c) = true).
Proof.
  destruct 1 as [|enc rest Henc Hrest]; [by left|]. right.
  destruct (enc_first _ Henc) as (c & t & -> & Hc & Hascii & _).
  exists c, (t ++ rest). split; [reflexivity|]. split; [exact Hc|].
  intros Hlt. by apply Hascii.
Qed.

Lemma ascii_space_enc c :
  byte_val c < 0x80 -> strings.asciiSpace (byte_val c) = true ->
  In [c] space_encodings.
Proof.
  intros Hc Hs. apply is_space_code_In, space1.
  - pose proof (byte_val_range c). lia.
  - revert Hs. unfold strings.asciiSpace, unicode.IsSpace, unicode.MaxLatin1.
    pose proof (byte_val_range c).
    split_comparisons; cbn; done.
Qed.

(** ** [TrimLeftFunc] and [TrimRightFunc] with [unicode.IsSpace] *)

#[local] Abbreviation IsSpace := unicode.IsSpace.

Lemma indexFunc_loop_spec fuel i rest :
  (length rest <= fuel)%nat ->
  (strings.indexFunc_loop fuel i rest IsSpace false = -1 /\ white_space rest)
  \/ exists pre s',
       rest = pre ++ s'
       /\ white_space pre
       /\ strings.indexFunc_loop fuel i rest IsSpace false = i + len pre
       /\ s' ≠ []
       /\ IsSpace (fst (utf8_alt.decode s')) = false.
Proof.
  revert i rest. induction fuel as [|fuel IH]; intros i rest Hfuel.
  - destruct rest; [|cbn [length] in Hfuel; lia].
    left. split; [reflexivity | constructor].
  - destruct rest as [|c t]; [left; split; [reflexivity | constructor]|].
    cbn [strings.indexFunc_loop]. rewrite DecodeRune_decode.
    destruct (utf8_alt.decode (c :: t)) as [r w] eqn:Hd.
    destruct (IsSpace r) eqn:Hs; cbn [Bool.eqb].
    + destruct (decode_space _ _ _ Hd Hs) as (Hw1 & Hin & Hw2).
      destruct (IH (i + Z.of_nat w) (drop w (c :: t)))
        as [[Hk Hws]|(pre & s' & Hrest & Hpre & Hk & Hne & Hns)].
      { rewrite length_drop. cbn [length] in *. lia. }
      * left. split; [exact Hk|].
        rewrite <- (take_drop w (c :: t)). by apply white_space_cons.
      * right. exists (take w (c :: t) ++ pre), s'.
        split; [rewrite <- app_assoc, <- Hrest; by rewrite take_drop|].
        split; [rewrite <- (app_nil_r (take w (c :: t) ++ pre)), <- app_assoc;
                apply white_space_cons; [exact Hin | by rewrite app_nil_r]|].
        split; [|done]. rewrite Hk. unfold len. rewrite length_app, length_take. lia.
    + right. exists [], (c :: t). split; [reflexivity|]. split; [constructor|].
      split; [unfold len; cbn [length]; lia|]. split; [done|].
      by rewrite Hd.
Qed.

Lemma TrimLeftFunc_spec s :
  exists pre,
    s = pre ++ strings.TrimLeftFunc s IsSpace
    /\ white_space pre
    /\ (strings.TrimLeftFunc s IsSpace = []
        \/ IsSpace (fst (utf8_alt.decode (strings.TrimLeftFunc s IsSpace))) = false).
Proof.
  unfold strings.TrimLeftFunc, strings.indexFunc.
  destruct (indexFunc_loop_spec (length s) 0 s (le_n _))
    as [[Hk Hws]|(pre & s' & Hs & Hpre & Hk & Hne & Hns)].
  - rewrite Hk. cbn [Z.eqb]. exists s. rewrite app_nil_r. by repeat split; [|left].
  - rewrite Hk. destruct (Z.eqb_spec (0 + len pre) (-1)); [unfold len in *; lia|].
    replace (Z.to_nat (0 + len pre)) with (length pre) by (unfold len; lia).
    exists pre. rewrite Hs at 2 3 4. rewrite drop_app_length.
    by repeat split; [| |right].
Qed.

Lemma lastIndexFunc_loop_spec fuel pre :
  (length pre <= fuel)%nat ->
  (strings.lastIndexFunc_loop fuel pre IsSpace false = -1 /\ white_space pre)
  \/ exists s' post r size,
       pre = s' ++ post
       /\ white_space post
       /\ s' ≠ []
       /\ utf8_alt.decode_last s' = (r, size)
       /\ IsSpace r = false
       /\ strings.lastIndexFunc_loop fuel pre IsSpace false = len s' - Z.of_nat size.
Proof.
  revert pre. induction fuel as [|fuel IH]; intros pre Hfuel.
  - destruct pre; [|cbn [length] in Hfuel; lia].
    left. split; [reflexivity | constructor].
  - destruct pre as [|c t]; [left; split; [reflexivity | constructor]|].
    cbn [strings.lastIndexFunc_loop]. rewrite DecodeLast_decode_last.
    destruct (utf8_alt.decode_last (c :: t)) as [r size] eqn:Hd.
    destruct (IsSpace r) eqn:Hs; cbn [Bool.eqb].
    + destruct (decode_last_space _ _ _ Hd Hs) as (Hw & Hin).
      replace (Z.to_nat (len (c :: t) - Z.of_nat size))
        with (length (c :: t) - size)%nat by (unfold len; lia).
      destruct (IH (take (length (c :: t) - size) (c :: t)))
        as [[Hk Hws]|(s' & post & r' & size' & Hpre & Hpost & Hne & Hd' & Hns & Hk)].
      { rewrite length_take. cbn [length] in *. lia. }
      * left. split; [exact Hk|].
        rewrite <- (take_drop (length (c :: t) - size) (c :: t)).
        apply white_space_app; [exact Hws | by apply white_space_one].
      * right. exists s', (post ++ drop (length (c :: t) - size) (c :: t)), r', size'.
        split; [rewrite app_assoc, <- Hpre; by rewrite take_drop|].
        split; [apply white_space_app; [exact Hpost | by apply white_space_one]|].
        done.
    + right. exists (c :: t), [], r, size. rewrite app_nil_r.
      split; [reflexivity|]. split; [constructor|]. done.
Qed.

Lemma at_index_mid p c q : utf8.at_index (p ++ c :: q) (len p) = byte_val c.
Proof.
  unfold utf8.at_index, len. rewrite Nat2Z.id.
  replace (length p) with (length p + 0)%nat at 1 by lia.
  rewrite app_nth2_plus. reflexivity.
Qed.

Lemma TrimRightFunc_spec s :
  exists post,
    s = strings.TrimRightFunc s IsSpace ++ post
    /\ white_space post
    /\ (strings.TrimRightFunc s IsSpace = []
        \/ IsSpace (fst (utf8_alt.decode_last (strings.TrimRightFunc s IsSpace)))
           = false).
Proof.
  unfold strings.TrimRightFunc, strings.lastIndexFunc.
  destruct (lastIndexFunc_loop_spec (length s) s (le_n _))
    as [[Hk Hws]|(s' & post & r & size & Hs & Hpost & Hne & Hd & Hns & Hk)].
  - rewrite Hk. cbn [Z.leb Z.compare andb Z.add Z.to_nat take].
    exists s. by repeat split; [|left].
  - rewrite Hk. clear Hk. exists post.
    assert (take (Z.to_nat
              (if (0 <=? len s' - Z.of_nat size)
                  && (utf8.RuneSelf <=? utf8.at_index s (len s' - Z.of_nat size))
               then len s' - Z.of_nat size
                    + Z.of_nat (snd (utf8.DecodeRuneInString
                                       (drop (Z.to_nat (len s' - Z.of_nat size)) s)))
               else len s' - Z.of_nat size + 1)) s = s') as ->.
    2:{ split; [exact Hs|]. split; [exact Hpost|]. right. by rewrite Hd. }
    assert (forall k, k = len s' -> take (Z.to_nat k) s = s') as Htake.
    { intros k ->. unfold len. rewrite Nat2Z.id, Hs. apply take_app_length. }
    apply Htake.
    destruct (rev s') as [|c p'] eqn:Hrev.
    { apply (f_equal (@rev ascii)) in Hrev. rewrite rev_involutive in Hrev. done. }
    assert (s' = rev p' ++ [c]) as Hs'.
    { rewrite <- (rev_involutive s'), Hrev. reflexivity. }
    set (p := rev p') in *. clearbody p. clear Hrev p'. subst s'.
    assert (len (p ++ [c]) = len p + 1) as Hlen
      by (unfold len; rewrite length_app; cbn [length]; lia).
    pose proof (byte_val_range c) as Hc.
    apply decode_last_cases in Hd.
    destruct Hd as [(-> & Hascii & ->)|[(Hsize & Hhi & Hd)|(-> & Hhi & ->)]].
    + (* an ASCII byte *)
      rewrite Hlen. replace (len p + 1 - Z.of_nat 1) with (len p) by lia.
      rewrite Hs, <- app_assoc. cbn [app]. rewrite at_index_mid.
      unfold utf8.RuneSelf.
      destruct (Z.leb_spec 128 (byte_val c)); [lia|].
      rewrite andb_false_r. lia.
    + (* an encoding of two bytes or more *)
      set (k := (length (p ++ [c]) - size)%nat) in *.
      assert (len (p ++ [c]) - Z.of_nat size = Z.of_nat k) as Hk
        by (unfold len; lia).
      rewrite Hk, Nat2Z.id.
      destruct (drop k (p ++ [c])) as [|c0 x] eqn:Hx.
      { apply (f_equal length) in Hx. rewrite length_drop in Hx.
        cbn [length] in Hx. lia. }
      destruct (decode_lead _ _ _ _ Hd ltac:(lia)) as [Hc0 _].
      assert (exists q, p ++ [c] = q ++ c0 :: x /\ length q = k) as (q & Hsplit & Hlk).
      { exists (take k (p ++ [c])). split; [|rewrite length_take; lia].
        rewrite <- Hx. symmetry. apply take_drop. }
      assert (length (c0 :: x) = size) as Hlx.
      { rewrite <- Hx, length_drop. lia. }
      clearbody k. subst k. rewrite Hs, Hsplit, <- app_assoc. cbn [app].
      change (Z.of_nat (length q)) with (len q).
      rewrite at_index_mid. unfold utf8.RuneSelf.
      destruct (Z.leb_spec 0 (len q)); [|unfold len in *; lia].
      destruct (Z.leb_spec 128 (byte_val c0)); [|lia]. cbn [andb].
      rewrite drop_app_length, DecodeRune_decode.
      pose proof (decode_ext _ _ _ post Hd ltac:(lia)) as Hext.
      rewrite take_ge in Hext by lia. cbn [app] in Hext. rewrite Hext. cbn [snd].
      rewrite Hsplit in Hk. unfold len in *. lia.
    + (* an error at a byte that is not ASCII *)
      rewrite Hlen. replace (len p + 1 - Z.of_nat 1) with (len p) by lia.
      rewrite Hs, <- app_assoc. cbn [app]. rewrite at_index_mid.
      unfold utf8.RuneSelf.
      destruct (Z.leb_spec 0 (len p)); [|unfold len in *; lia].
      destruct (Z.leb_spec 128 (byte_val c)); [|lia]. cbn [andb].
      unfold len at 2. rewrite Nat2Z.id, drop_app_length, DecodeRune_decode.
      rewrite decode_stuck; [lia | lia |].
      destruct (white_space_head _ Hpost) as [->|(c1 & t1 & -> & Hcont & _)];
        [by left | right; by exists c1, t1].
Qed.

(** ** [TrimFunc] and [TrimSpace] *)

(** [TrimFunc(s, unicode.IsSpace)] is [s] without the white space at its
    ends. *)
Lemma TrimFunc_spec s : trimmed_of s (strings.TrimFunc s IsSpace).
Proof.
  unfold strings.TrimFunc.
  destruct (TrimLeftFunc_spec s) as (pre & Hs & Hpre & Hleft).
  set (s1 := strings.TrimLeftFunc s IsSpace) in *.
  destruct (TrimRightFunc_spec s1) as (post & Hs1 & Hpost & Hright).
  set (s2 := strings.TrimRightFunc s1 IsSpace) in *.
  split; [|split].
  - exists pre, post. by rewrite <- Hs1.
  - intros enc rest Henc Heq.
    destruct (decode_enc enc (rest ++ post) Henc) as (r & Hd & Hsp).
    rewrite app_assoc, <- Heq, <- Hs1 in Hd.
    destruct Hleft as [Hnil|Hns].
    + rewrite Hnil in Hs1. symmetry in Hs1. apply app_eq_nil in Hs1.
      destruct Hs1 as [Hs2 _]. rewrite Hs2 in Heq. symmetry in Heq.
      apply app_eq_nil in Heq. destruct Heq as [Henil _].
      by apply (enc_nonempty _ Henc).
    + rewrite Hd in Hns. cbn [fst] in Hns. congruence.
  - intros enc rest Henc Heq.
    destruct (decode_last_enc rest enc Henc) as (r & Hd & Hsp).
    rewrite <- Heq in Hd.
    destruct Hright as [Hnil|Hns].
    + rewrite Hnil in Heq. symmetry in Heq.
      apply app_eq_nil in Heq. destruct Heq as [_ Henil].
      by apply (enc_nonempty _ Henc).
    + rewrite Hd in Hns. cbn [fst] in Hns. congruence.
Qed.

(** More white space in front, or behind, is trimmed as well. *)
Lemma trimmed_of_cons_space c s t :
  In [c] space_encodings -> trimmed_of s t -> trimmed_of (c :: s) t.
Proof.
  intros Hc ((pre & post & Hs & Hpre & Hpost) & Hlead & Htrail).
  split; [|by split].
  exists (c :: pre), post. split; [by rewrite Hs|]. split; [|exact Hpost].
  by apply (white_space_cons [c]).
Qed.

Lemma trimmed_of_snoc_space c s t :
  In [c] space_encodings -> trimmed_of s t -> trimmed_of (s ++ [c]) t.
Proof.
  intros Hc ((pre & post & Hs & Hpre & Hpost) & Hlead & Htrail).
  split; [|by split].
  exists pre, (post ++ [c]). split; [by rewrite Hs, <- !app_assoc|].
  split; [exact Hpre|]. apply white_space_app; [exact Hpost|].
  by apply white_space_one.
Qed.

(** A string between two ASCII bytes that are no spaces has nothing to
    trim. *)
Lemma trimmed_of_self s c d p q :
  s = c :: p -> s = q ++ [d] ->
  byte_val c < 0x80 -> strings.asciiSpace (byte_val c) = false ->
  byte_val d < 0x80 -> strings.asciiSpace (byte_val d) = false ->
  trimmed_of s s.
Proof.
  intros Hc Hd Hc1 Hc2 Hd1 Hd2. split; [|split].
  - exists [], []. rewrite app_nil_r. split; [reflexivity|]. split; constructor.
  - intros enc rest Henc Heq.
    destruct (enc_first _ Henc) as (c' & t' & -> & _ & Hascii & _).
    rewrite Hc in Heq. cbn [app] in Heq. injection Heq as <- _.
    destruct (Hascii Hc1) as [Hsp _]. congruence.
  - intros enc rest Henc Heq.
    destruct (enc_last _ Henc) as (t' & d' & -> & Hascii).
    rewrite Hd, app_assoc in Heq. apply app_inj_tail in Heq.
    destruct Heq as [_ <-]. destruct (Hascii Hd1) as [Hsp _]. congruence.
Qed.

(** The second loop, on a string that starts with an ASCII byte that is no
    space. *)
Lemma TrimSpace_stop_spec r c p :
  rev r = c :: p ->
  byte_val c < 0x80 -> strings.asciiSpace (byte_val c) = false ->
  trimmed_of (rev r) (strings.TrimSpace_stop r).
Proof.
  intros Hr Hc1 Hc2. revert p Hr. induction r as [|d r IH]; intros p Hr.
  - discriminate.
  - cbn [strings.TrimSpace_stop]. unfold utf8.RuneSelf.
    destruct (Z.leb_spec 128 (byte_val d)); [apply TrimFunc_spec|].
    destruct (strings.asciiSpace (byte_val d)) eqn:Hd.
    + cbn [rev] in *. destruct (rev r) as [|c' p'] eqn:Hrev.
      * cbn [app] in Hr. injection Hr as -> _. congruence.
      * cbn [app] in Hr. injection Hr as -> _.
        apply trimmed_of_snoc_space; [apply ascii_space_enc; [lia | exact Hd]|].
        by apply (IH p').
    + eapply (trimmed_of_self _ c d p (rev r)); try done; lia.
Qed.

(** [strings.TrimSpace(s)] is [s] without the white space at its ends. *)
Lemma TrimSpace_spec s : trimmed_of s (strings.TrimSpace s).
Proof.
  induction s as [|c s IH].
  - split; [|split].
    + exists [], []. split; [reflexivity|]. split; constructor.
    + intros enc rest Henc Heq. symmetry in Heq.
      apply app_eq_nil in Heq. destruct Heq as [Heq _].
      by apply (enc_nonempty _ Henc).
    + intros enc rest Henc Heq. symmetry in Heq.
      apply app_eq_nil in Heq. destruct Heq as [_ Heq].
      by apply (enc_nonempty _ Henc).
  - cbn [strings.TrimSpace]. unfold utf8.RuneSelf.
    destruct (Z.leb_spec 128 (byte_val c)); [apply TrimFunc_spec|].
    destruct (strings.asciiSpace (byte_val c)) eqn:Hc.
    + apply trimmed_of_cons_space; [apply ascii_space_enc; [lia | exact Hc]|].
      exact IH.
    + rewrite <- (rev_involutive (c :: s)) at 1.
      apply (TrimSpace_stop_spec _ c s); [apply rev_involutive | lia | exact Hc].
Qed.

(** A white space string that is not empty ends with a white space
    character. *)
Lemma white_space_last w :
  white_space w -> w ≠ [] ->
  exists rest enc, In enc space_encodings /\ w = rest ++ enc.
Proof.
  induction 1 as [|enc rest Henc Hrest IH]; intros Hne; [done|].
  destruct rest as [|c rest'].
  - exists [], enc. by rewrite app_nil_r.
  - destruct IH as (r' & e' & He' & Heq); [done|].
    exists (enc ++ r'), e'. split; [exact He'|]. by rewrite Heq, app_assoc.
Qed.

(** There is nothing left to trim in a trimmed string. *)
Lemma TrimSpace_idempotent s :
  strings.TrimSpace (strings.TrimSpace s) = strings.TrimSpace s.
Proof.
  destruct (TrimSpace_spec s) as (_ & Hlead & Htrail).
  destruct (TrimSpace_spec (strings.TrimSpace s))
    as ((pre & post & Hs & Hpre & Hpost) & _ & _).
  set (t := strings.TrimSpace s) in *. set (u := strings.TrimSpace t) in *.
  destruct Hpre as [|enc rest Henc Hrest].
  - cbn [app] in Hs. destruct post as [|c post'].
    + by rewrite app_nil_r in Hs.
    + exfalso. destruct (white_space_last _ Hpost) as (r' & e' & He' & Heq); [done|].
      apply (Htrail e' (u ++ r') He'). by rewrite Hs, Heq, app_assoc.
  - exfalso. apply (Hlead enc (rest ++ u ++ post) Henc).
    rewrite Hs. by rewrite <- app_assoc.
Qed.

(** ** The trimmed string is unique *)

(** The bytes of an encoding after the first are continuation bytes. *)
Lemma enc_tail enc :
  In enc space_encodings ->
  exists c t,
    enc = c :: t /\ Forall (fun d => utf8_alt.cont (byte_val d) = true) t.
Proof.
  intros H. unfold space_encodings, White_Space in H. cbn [map] in H.
  repeat (destruct H as [<-|H];
          [eexists _, _; split; [vm_compute; reflexivity|];
           repeat (constructor; [vm_compute; reflexivity|]); constructor|]).
  destruct H.
Qed.

(** No encoding is the start of another one. *)
Lemma enc_prefix_free e e' x x' :
  In e space_encodings -> In e' space_encodings ->
  e ++ x = e' ++ x' -> e = e' /\ x = x'.
Proof.
  intros He He' Heq.
  destruct (decode_enc e x He) as (r & Hd & _).
  destruct (decode_enc e' x' He') as (r' & Hd' & _).
  rewrite Heq, Hd' in Hd. apply app_inj_1; [congruence | exact Heq].
Qed.

(** No encoding is the end of another one. *)
Lemma enc_suffix_free e e' x x' :
  In e space_encodings -> In e' space_encodings ->
  x ++ e = x' ++ e' -> x = x' /\ e = e'.
Proof.
  intros He He' Heq.
  destruct (decode_last_enc x e He) as (r & Hd & _).
  destruct (decode_last_enc x' e' He') as (r' & Hd' & _).
  rewrite Heq, Hd' in Hd. apply app_inj_2; [congruence | exact Heq].
Qed.

(** A string with white space behind it that starts with no white space
    character, if it lies at the start of a white space character, is
    empty. *)
Lemma no_space_across t q enc rest :
  white_space q ->
  (forall e r, In e space_encodings -> t ≠ e ++ r) ->
  In enc space_encodings ->
  t ++ q = enc ++ rest ->
  t = [].
Proof.
  intros Hq Hlead Henc Heq.
  destruct t as [|c0 t0]; [reflexivity|]. exfalso.
  apply app_eq_app in Heq. destruct Heq as (l & [[Ht _]|[He Hql]]).
  { by apply (Hlead enc l Henc). }
  destruct l as [|c l'].
  { rewrite app_nil_r in He. apply (Hlead enc [] Henc). by rewrite app_nil_r. }
  destruct (enc_tail _ Henc) as (c' & t' & Hshape & Htail).
  rewrite He in Hshape. cbn [app] in Hshape. injection Hshape as _ <-.
  apply Forall_app in Htail. destruct Htail as [_ Htail].
  apply Forall_cons in Htail. destruct Htail as [Hc _].
  destruct (white_space_head _ Hq) as [Hnil|(c1 & t1 & Hshape & Hc1 & _)].
  { by rewrite Hnil in Hql. }
  rewrite Hql in Hshape. cbn [app] in Hshape. injection Hshape as <- _.
  congruence.
Qed.

(** Two white space strings at the start of one string: one continues the
    other by white space. *)
Lemma white_space_prefixes p p' x x' :
  white_space p -> white_space p' -> p ++ x = p' ++ x' ->
  exists d,
    white_space d
    /\ ((p' = p ++ d /\ x = d ++ x') \/ (p = p' ++ d /\ x' = d ++ x)).
Proof.
  intros Hp. revert p'. induction Hp as [|e r He Hr IH]; intros p' Hp' Heq.
  { exists p'. split; [exact Hp'|]. left. by split. }
  destruct Hp' as [|e' r' He' Hr'].
  { exists (e ++ r). split; [by constructor|]. right. by split. }
  rewrite <- !app_assoc in Heq.
  destruct (enc_prefix_free _ _ _ _ He He' Heq) as [<- Heq'].
  destruct (IH _ Hr' Heq') as (d & Hd & [[-> ->]|[-> ->]]);
    exists d; (split; [exact Hd|]); [left|right]; by rewrite <- app_assoc.
Qed.

(** A white space string that is not empty is a white space string and a
    white space character. *)
Lemma white_space_snoc_inv w :
  white_space w -> w ≠ [] ->
  exists rest enc, In enc space_encodings /\ w = rest ++ enc /\ white_space rest.
Proof.
  induction 1 as [|enc rest Henc Hrest IH]; intros Hne; [done|].
  destruct rest as [|c rest'].
  - exists [], enc. rewrite app_nil_r. by repeat split; [|constructor].
  - destruct IH as (r' & e' & He' & Heq & Hr'); [done|].
    exists (enc ++ r'), e'. split; [exact He'|].
    split; [by rewrite Heq, app_assoc | by constructor].
Qed.

(** Two white space strings at the end of one string: one continues the
    other by white space. *)
Lemma white_space_suffixes q q' x x' :
  white_space q -> white_space q' -> x ++ q = x' ++ q' ->
  exists d,
    white_space d
    /\ ((q' = d ++ q /\ x = x' ++ d) \/ (q = d ++ q' /\ x' = x ++ d)).
Proof.
  remember (length q) as n eqn:Hn. revert q q' Hn.
  induction (lt_wf n) as [n _ IH]. intros q q' Hn Hq Hq' Heq.
  destruct (decide (q = [])) as [->|Hne].
  { exists q'. split; [exact Hq'|]. left. rewrite app_nil_r in *. by split. }
  destruct (decide (q' = [])) as [->|Hne'].
  { exists q. split; [exact Hq|]. right. rewrite app_nil_r in *. by split. }
  destruct (white_space_snoc_inv _ Hq Hne) as (r & e & He & -> & Hr).
  destruct (white_space_snoc_inv _ Hq' Hne') as (r' & e' & He' & -> & Hr').
  rewrite !app_assoc in Heq.
  destruct (enc_suffix_free _ _ _ _ He He' Heq) as [Heq' <-].
  assert (length r < n)%nat as Hlt.
  { subst n. rewrite length_app. pose proof (enc_nonempty _ He).
    destruct e; [done | cbn [length]; lia]. }
  destruct (IH _ Hlt r r' eq_refl Hr Hr' Heq') as (d & Hd & [[-> ->]|[-> ->]]);
    exists d; (split; [exact Hd|]); [left|right]; by rewrite <- app_assoc.
Qed.

(** What [trimmed_of] describes is one string. *)
Theorem trimmed_of_unique s t t' : trimmed_of s t -> trimmed_of s t' -> t = t'.
Proof.
  intros ((p & q & Hs & Hp & Hq) & Hlead & Htrail)
         ((p' & q' & Hs' & Hp' & Hq') & Hlead' & Htrail').
  assert (forall t q t' q' d,
             white_space q -> white_space q' -> white_space d -> d ≠ [] ->
             (forall e r, In e space_encodings -> t ≠ e ++ r) ->
             (forall e r, In e space_encodings -> t' ≠ e ++ r) ->
             t ++ q = d ++ t' ++ q' -> t = [] /\ t' = []) as Hgap.
  { clear. intros t q t' q' d Hq Hq' Hd Hne Hlead Hlead' Heq.
    destruct Hd as [|e d' He Hd']; [done|].
    assert (t = []) as ->.
    { rewrite <- app_assoc in Heq.
      exact (no_space_across _ _ _ _ Hq Hlead He Heq). }
    split; [reflexivity|]. cbn [app] in Heq.
    rewrite <- (app_nil_r q) in Heq.
    destruct (white_space_prefixes q (e ++ d') [] (t' ++ q') Hq
                (white_space_cons _ _ He Hd') Heq)
      as (d2 & Hd2 & [[_ Hnil]|[_ Heq2]]).
    - symmetry in Hnil. apply app_eq_nil in Hnil. destruct Hnil as [_ Hnil].
      apply app_eq_nil in Hnil. by destruct Hnil.
    - rewrite app_nil_r in Heq2. destruct Hd2 as [|e2 d2' He2 Hd2'].
      + apply app_eq_nil in Heq2. by destruct Heq2.
      + exact (no_space_across _ _ _ _ Hq' Hlead' He2 Heq2). }
  assert (t ++ q = t' ++ q' \/ (t = [] /\ t' = [])) as [Heq|[-> ->]];
    [| |reflexivity].
  { rewrite Hs in Hs'.
    destruct (white_space_prefixes p p' _ _ Hp Hp' Hs') as (d & Hd & [[_ Heq]|[_ Heq]]);
      (destruct (decide (d = [])) as [->|Hne]; [left; by rewrite Heq|right]).
    - by eapply (Hgap t q t' q' d).
    - apply and_comm. by eapply (Hgap t' q' t q d). }
  destruct (white_space_suffixes q q' t t' Hq Hq' Heq) as (d & Hd & [[_ Ht]|[_ Ht]]);
    (destruct (decide (d = [])) as [->|Hne]; [by rewrite app_nil_r in Ht|exfalso]);
    destruct (white_space_last _ Hd Hne) as (r & e & He & ->).
  - apply (Htrail e (t' ++ r) He). by rewrite Ht, app_assoc.
  - apply (Htrail' e (t ++ r) He). by rewrite Ht, app_assoc.
Qed.

(** [strings.TrimSpace] is the function [trimmed_of] describes. *)
Corollary TrimSpace_iff s t : trimmed_of s t <-> t = strings.TrimSpace s.
Proof.
  split.
  - intros H. exact (trimmed_of_unique _ _ _ H (TrimSpace_spec s)).
  - intros ->. apply TrimSpace_spec.
Qed.

(** ** [check] and [fmt.Sprintf] *)

Lemma Sprintf_verb_free format rest args :
  verb_free format = true ->
  fmt.Sprintf (format ++ rest) args = format ++ fmt.Sprintf rest args.
Proof.
  induction format as [|c format IH]; intros Hfree; [reflexivity|].
  cbn [verb_free forallb] in Hfree. apply andb_true_iff in Hfree.
  destruct Hfree as [Hc Hfree]. apply negb_true_iff in Hc.
  cbn [app fmt.Sprintf]. rewrite Hc. f_equal. by apply IH.
Qed.

Lemma check_failed err format w :
  verb_free format = true ->
  check (Some err) format [] w
  = Exit 1 (with_stderr (format ++ go ": " ++ Error err ++ ["010"%char]) w).
Proof.
  intros Hfree. unfold check. cbn [app].
  rewrite (Sprintf_verb_free _ _ _ Hfree). reflexivity.
Qed.

(** ** The start-up *)

Lemma fatal_exit {A} cfg data msg w :
  log_Fatal (A := A) (logger cfg) data msg w
  = Exit 1 (with_entry {| entry_Level := FatalLevel; entry_Message := msg;
                          entry_Data := data |} w).
Proof.
  unfold log_Fatal, mbind, M_bind. rewrite log_at_eq.
  unfold logged. rewrite fatal_enabled. reflexivity.
Qed.

Lemma check_flags_missing cfg w :
  flags_given cfg = false ->
  check_flags cfg w
  = Exit 1 (with_entry
              {| entry_Level := FatalLevel;
                 entry_Message :=
                   if bool_decide (clientID cfg = [])
                      || bool_decide (clientSecret cfg = [])
                   then missing_credentials_text else missing_channel_text;
                 entry_Data := [] |} w).
Proof.
  unfold flags_given, check_flags. intros Hmissing.
  destruct (bool_decide (clientID cfg = []) || bool_decide (clientSecret cfg = []))
    eqn:Hcred.
  - apply bind_Exit, fatal_exit.
  - apply orb_false_iff in Hcred. destruct Hcred as [H1 H2].
    rewrite H1, H2 in Hmissing. cbn [negb andb] in Hmissing. apply negb_false_iff in Hmissing.
    rewrite Hmissing. erewrite bind_Ret by reflexivity. apply fatal_exit.
Qed.

Lemma check_flags_given cfg w : flags_given cfg = true -> check_flags cfg w = Ret tt w.
Proof.
  unfold flags_given. intros H.
  apply andb_true_iff in H. destruct H as [H H3].
  apply andb_true_iff in H. destruct H as [H1 H2].
  apply negb_true_iff in H1, H2, H3.
  apply bool_decide_eq_false in H1, H2. apply Z.eqb_neq in H3.
  by apply check_flags_ok.
Qed.

Lemma load_history_eq cfg env w :
  load_history cfg env w = Ret (loaded_history env) (after_load cfg env w).
Proof.
  unfold load_history, loaded_history, after_load.
  destruct (env_GetJSON env) as [err|stored] eqn:Hget; [|reflexivity].
  unfold mbind, M_bind. rewrite client_SetJSON_eq. reflexivity.
Qed.

Lemma check_line text err w :
  verb_free text = true ->
  check (Some err) text [] w = Exit 1 (with_stderr (failure_line text err) w).
Proof. apply check_failed. Qed.

Lemma startup_eq cfg env w : startup cfg env w = startup_result cfg env w.
Proof.
  unfold startup, startup_result.
  destruct (flags_given cfg) eqn:Hflags; cbn [negb].
  2:{ apply bind_Exit. by apply check_flags_missing. }
  erewrite bind_Ret by (by apply check_flags_given).
  destruct (env_NewClient env) as [e|].
  { apply bind_Exit. by apply check_line. }
  erewrite bind_Ret by reflexivity.
  erewrite bind_Ret by apply load_history_eq. cbv zeta.
  set (w1 := after_load cfg env w). unfold connect_glimesh.
  destruct (env_Post env) as [e|].
  { apply bind_Exit, bind_Exit. by apply check_line. }
  destruct (env_Decode env) as [e|creds]; cbn [err_of].
  { apply bind_Exit. erewrite bind_Ret by reflexivity.
    apply bind_Exit. by apply check_line. }
  destruct (env_Dial env) as [e|].
  { apply bind_Exit. do 2 erewrite bind_Ret by reflexivity.
    apply bind_Exit. by apply check_line. }
  destruct (env_join env) as [e|].
  { apply bind_Exit. do 3 erewrite bind_Ret by reflexivity.
    erewrite bind_Ret by reflexivity.
    apply bind_Exit. by apply check_line. }
  destruct (env_subscribe env) as [e|].
  { apply bind_Exit. do 3 erewrite bind_Ret by reflexivity.
    do 2 erewrite bind_Ret by reflexivity.
    erewrite bind_Ret by reflexivity.
    apply bind_Exit. by apply check_line. }
  erewrite bind_Ret.
  2:{ do 3 erewrite bind_Ret by reflexivity.
      do 2 erewrite bind_Ret by reflexivity.
      do 2 erewrite bind_Ret by reflexivity.
      unfold log_Info. rewrite log_at_eq. reflexivity. }
  unfold subscribe_rpc. destruct (env_SubscribeKey env) as [e|].
  - apply bind_Exit. rewrite fatal_exit. unfold connected, with_frame, fatal_entry, WithError.
    cbn [kv kv_sets ws_writes log stdout stderr]. by rewrite <- app_assoc.
  - erewrite bind_Ret by reflexivity. unfold connected. cbn [mret M_ret].
    cbn [kv kv_sets ws_writes log stdout stderr]. by rewrite <- app_assoc.
Qed.

(** ** The cases of the relay loop *)

Lemma on_tick_ok arch cfg evs h w :
  relay_loop arch cfg (Tick None :: evs) h w
  = relay_loop arch cfg evs h (with_frame heartbeat_frame w).
Proof. reflexivity. Qed.

Lemma on_wsmsg_eq arch cfg msg e1 e2 h w :
  on_wsmsg arch cfg msg e1 e2 h w
  = match truncated arch cfg (h ++ [msg]) with
    | inr h' => Ret h' (wsmsg_world cfg msg e1 e2 h' w)
    | inl p => Panicked p (event_world cfg msg e1 w)
    end.
Proof.
  rewrite on_wsmsg_unfold. fold (event_world cfg msg e1 w).
  unfold truncated, slice_from.
  destruct (chatHistorySize cfg <? len (h ++ [msg])).
  - cbv zeta.
    destruct ((0 <=? wrap_int arch (len (h ++ [msg]) - chatHistorySize cfg))
              && (wrap_int arch (len (h ++ [msg]) - chatHistorySize cfg)
                  <=? len (h ++ [msg]))).
    + erewrite bind_Ret by reflexivity. rewrite persist_history.
      unfold wsmsg_world, event_world.
      cbn [kv kv_sets ws_writes log stdout stderr]. by rewrite <- !app_assoc.
    + reflexivity.
  - erewrite bind_Ret by reflexivity. rewrite persist_history.
    unfold wsmsg_world, event_world.
    cbn [kv kv_sets ws_writes log stdout stderr]. by rewrite <- !app_assoc.
Qed.


Lemma relay_loop_wsmsg arch cfg msg e1 e2 evs h w :
  relay_loop arch cfg (WsMsg msg e1 e2 :: evs) h w
  = match truncated arch cfg (h ++ [msg]) with
    | inr h' => relay_loop arch cfg evs h' (wsmsg_world cfg msg e1 e2 h' w)
    | inl p => Panicked p (event_world cfg msg e1 w)
    end.
Proof.
  cbn [relay_loop relay_case]. unfold mbind at 1, M_bind at 1.
  rewrite on_wsmsg_eq. by destruct (truncated arch cfg (h ++ [msg])).
Qed.

Lemma relay_loop_incoming arch cfg rpc write_err evs h w :
  relay_loop arch cfg (Incoming rpc write_err :: evs) h w
  = relay_loop arch cfg evs h (incoming_world cfg rpc write_err w).
Proof.
  cbn [relay_loop relay_case]. unfold mbind at 1, M_bind at 1.
  unfold mbind at 1, M_bind at 1. rewrite on_incoming_eq. reflexivity.
Qed.

Lemma last_n_last_n_app {A} n (l l' : list A) :
  last_n n (last_n n l ++ l') = last_n n (l ++ l').
Proof.
  induction l' as [|x l' IH] using rev_ind.
  - rewrite !app_nil_r. apply last_n_all. rewrite last_n_length. lia.
  - rewrite !app_assoc, <- last_n_snoc, IH, last_n_snoc. reflexivity.
Qed.

Lemma last_pair {A} (l : list A) a b : last (l ++ [a; b]) = Some b.
Proof. change (l ++ [a; b]) with (l ++ [a] ++ [b]). by rewrite app_assoc, last_snoc. Qed.

Lemma history_after_length capacity h msgs :
  0 <= capacity -> len h <= capacity -> len (history_after capacity h msgs) <= capacity.
Proof.
  intros Hcap Hlen. destruct msgs as [|m msgs]; [exact Hlen|].
  unfold history_after, len. rewrite last_n_length. lia.
Qed.

Lemma history_after_cons capacity h m msgs :
  history_after capacity (last_n (Z.to_nat capacity) (h ++ [m])) msgs
  = history_after capacity h (m :: msgs).
Proof.
  unfold history_after. destruct msgs as [|m' msgs]; [reflexivity|].
  rewrite last_n_last_n_app, <- app_assoc. reflexivity.
Qed.

Lemma truncated_window arch cfg h :
  0 <= chatHistorySize cfg ->
  len h - chatHistorySize cfg <= MaxInt arch ->
  truncated arch cfg h = inr (last_n (Z.to_nat (chatHistorySize cfg)) h).
Proof.
  intros Hcap Hlen. unfold truncated, len in *.
  destruct (Z.ltb_spec (chatHistorySize cfg) (Z.of_nat (length h))) as [Hlt|Hge].
  - cbv zeta. rewrite wrap_int_in_range
      by (unfold MinInt, MaxInt in *; destruct arch; simpl in *; lia).
    replace ((0 <=? Z.of_nat (length h) - chatHistorySize cfg)
             && (Z.of_nat (length h) - chatHistorySize cfg <=? Z.of_nat (length h)))
      with true by (symmetry; apply andb_true_iff; split; apply Z.leb_le; lia).
    unfold last_n. do 2 f_equal. lia.
  - rewrite last_n_all by lia. reflexivity.
Qed.

(** The loop without a failed heartbeat, from a history of a length that
    an [int] holds: it returns, with the history of all messages; without a
    message the store is as it was, and otherwise the last write handed to
    the store is the history the loop holds. *)
Lemma relay_loop_history arch cfg evs h w :
  0 <= chatHistorySize cfg ->
  len h <= chatHistorySize cfg \/ len h < MaxInt arch ->
  existsb heartbeat_failed evs = false ->
  exists w',
    relay_loop arch cfg evs h w
    = Ret (history_after (chatHistorySize cfg) h (messages_of evs)) w'
    /\ (messages_of evs = [] -> kv w' = kv w /\ kv_sets w' = kv_sets w)
    /\ (messages_of evs ≠ [] ->
        last (kv_sets w')
        = Some (chatHistoryKey cfg,
                stored_history
                  (history_after (chatHistorySize cfg) h (messages_of evs)))).
Proof.
  intros Hcap. revert h w.
  induction evs as [|ev evs IH]; intros h w Hlen Hticks.
  { exists w. by repeat split. }
  cbn [existsb] in Hticks. apply orb_false_iff in Hticks.
  destruct Hticks as [Hev Hticks].
  destruct ev as [[err|]|msg e1 e2|rpc write_err]; [discriminate| | |].
  - rewrite on_tick_ok. change (messages_of (Tick None :: evs)) with (messages_of evs).
    exact (IH h (with_frame heartbeat_frame w) Hlen Hticks).
  - assert (1 <= MaxInt arch) as Hmax by (destruct arch; cbv; discriminate).
    rewrite relay_loop_wsmsg, truncated_window;
      [|exact Hcap|unfold len in *; rewrite length_app; cbn [length]; lia].
    set (h1 := last_n (Z.to_nat (chatHistorySize cfg)) (h ++ [msg])).
    destruct (IH h1 (wsmsg_world cfg msg e1 e2 h1 w)) as (w' & Hrun & Hnone & Hsome);
      [left; unfold h1, len; rewrite last_n_length; lia | exact Hticks |].
    exists w'.
    change (messages_of (WsMsg msg e1 e2 :: evs)) with (msg :: messages_of evs).
    rewrite <- history_after_cons. fold h1.
    split; [exact Hrun|]. split; [done|]. intros _.
    destruct (messages_of evs) as [|m msgs] eqn:Hmsgs.
    + destruct Hnone as [_ Hsets]; [reflexivity|].
      rewrite Hsets. cbn [wsmsg_world kv_sets history_after].
      apply last_pair.
    + by apply Hsome.
  - rewrite relay_loop_incoming.
    change (messages_of (Incoming rpc write_err :: evs)) with (messages_of evs).
    exact (IH h (incoming_world cfg rpc write_err w) Hlen Hticks).
Qed.

(** ** The goroutine and the loop together *)

Section Bridge.

Variable tokens : bytes -> option JSON.
Variable keyMatches : bytes -> bytes -> bool.
Variable decodeError : bytes -> error.
Variable cfg : Flags.
Variable arch : GOARCH.

#[local] Abbreviation rcv := (receive tokens keyMatches decodeError cfg).
#[local] Abbreviation yld := (yielded tokens keyMatches decodeError).
#[local] Abbreviation rcv_world := (receive_world tokens keyMatches decodeError cfg).
#[local] Abbreviation bridge := (bridge_loop tokens keyMatches decodeError cfg arch).
#[local] Abbreviation evs_of := (events_of tokens keyMatches decodeError).

Lemma receive_eq r w :
  rcv r w
  = match r with
    | ReadError _ => Exit 1 (rcv_world r w)
    | ReadMessage _ _ => Ret (yld r) (rcv_world r w)
    end.
Proof.
  destruct r as [err|[] byt].
  - apply receive_error.
  - rewrite receive_text. cbn [yielded receive_world].
    by destruct (Unmarshal_payload tokens keyMatches decodeError byt).
  - cbn [receive yielded receive_world]. unfold log_Debug.
    erewrite bind_Ret by apply log_at_eq. reflexivity.
Qed.

Lemma bridge_loop_read r e1 e2 os h w :
  bridge (SocketRead r e1 e2 :: os) h w
  = match r with
    | ReadError _ => Exit 1 (rcv_world r w)
    | ReadMessage _ _ =>
      match yld r with
      | Some msg =>
        match truncated arch cfg (h ++ [msg]) with
        | inr h' => bridge os h' (wsmsg_world cfg msg e1 e2 h' (rcv_world r w))
        | inl p => Panicked p (event_world cfg msg e1 (rcv_world r w))
        end
      | None => bridge os h (rcv_world r w)
      end
    end.
Proof.
  cbn [bridge_loop bridge_step]. unfold mbind at 1, M_bind at 1.
  unfold mbind at 1, M_bind at 1. rewrite receive_eq.
  destruct r as [err|mtyp byt]; [reflexivity|].
  destruct (yielded _ _ _ _) as [msg|]; [|reflexivity].
  cbn [relay_case]. rewrite on_wsmsg_eq.
  by destruct (truncated arch cfg (h ++ [msg])).
Qed.

Lemma bridge_loop_tick write_err os h w :
  bridge (TimerTick write_err :: os) h w
  = match write_err with
    | Some err =>
      Exit 1 (with_stderr (failure_line (go "Could not send heartbeat") err)
                          (with_frame heartbeat_frame w))
    | None => bridge os h (with_frame heartbeat_frame w)
    end.
Proof. by destruct write_err. Qed.

Lemma bridge_loop_push rpc write_err os h w :
  bridge (KilovoltPush rpc write_err :: os) h w
  = bridge os h (incoming_world cfg rpc write_err w).
Proof.
  cbn [bridge_loop bridge_step relay_case]. unfold mbind at 1, M_bind at 1.
  unfold mbind at 1, M_bind at 1. rewrite on_incoming_eq. reflexivity.
Qed.

End Bridge.

Section Bridge_loop.

Variable tokens : bytes -> option JSON.
Variable keyMatches : bytes -> bytes -> bool.
Variable decodeError : bytes -> error.
Variable cfg : Flags.
Variable arch : GOARCH.

#[local] Abbreviation yld' := (yielded tokens keyMatches decodeError).
#[local] Abbreviation rcv_world' := (receive_world tokens keyMatches decodeError cfg).
#[local] Abbreviation bridge' := (bridge_loop tokens keyMatches decodeError cfg arch).
#[local] Abbreviation evs_of' := (events_of tokens keyMatches decodeError).

(** With a capacity of at least 0, the process ends at the first read that
    fails or heartbeat that cannot be written, with status 1, and handles
    everything otherwise. *)
Lemma bridge_loop_outcome os h w :
  0 <= chatHistorySize cfg ->
  len h <= chatHistorySize cfg \/ len h < MaxInt arch ->
  if existsb fatal os
  then exists w', bridge' os h w = Exit 1 w'
  else exists w',
         bridge' os h w
         = Ret (history_after (chatHistorySize cfg) h (messages_of (evs_of' os))) w'.
Proof.
  intros Hcap. revert h w. induction os as [|o os IH]; intros h w Hlen.
  { cbn [existsb]. by exists w. }
  assert (1 <= MaxInt arch) as Hmax by (destruct arch; cbv; discriminate).
  destruct o as [[err|mtyp byt] e1 e2|[err|]|rpc write_err].
  - cbn [existsb fatal orb]. rewrite bridge_loop_read. by eexists.
  - change (existsb fatal (SocketRead (ReadMessage mtyp byt) e1 e2 :: os))
      with (existsb fatal os).
    rewrite bridge_loop_read.
    change (evs_of' (SocketRead (ReadMessage mtyp byt) e1 e2 :: os))
      with (match yld' (ReadMessage mtyp byt) with
            | Some msg => [WsMsg msg e1 e2]
            | None => []
            end ++ evs_of' os).
    destruct (yld' (ReadMessage mtyp byt)) as [msg|]; [|by apply IH].
    rewrite truncated_window;
      [|exact Hcap|unfold len in *; rewrite length_app; cbn [length]; lia].
    change (messages_of ([WsMsg msg e1 e2] ++ evs_of' os))
      with (msg :: messages_of (evs_of' os)).
    rewrite <- history_after_cons. apply IH.
    left. unfold len. rewrite last_n_length. lia.
  - cbn [existsb fatal orb]. rewrite bridge_loop_tick. by eexists.
  - change (existsb fatal (TimerTick None :: os)) with (existsb fatal os).
    rewrite bridge_loop_tick. by apply IH.
  - change (existsb fatal (KilovoltPush rpc write_err :: os)) with (existsb fatal os).
    rewrite bridge_loop_push. by apply IH.
Qed.




End Bridge_loop.

(** ** The text of an outgoing request *)

Lemma escape_quotes_cons c v :
  escape_quotes (c :: v)
  = (if Ascii.eqb c dquote then [backslash; dquote] else [c]) ++ escape_quotes v.
Proof. reflexivity. Qed.

Lemma escape_quotes_escaped b v : quotes_escaped b (escape_quotes v) = true.
Proof.
  revert b. induction v as [|c v IH]; intros b; [reflexivity|].
  rewrite escape_quotes_cons. destruct (Ascii.eqb c dquote) eqn:Hc.
  - cbn [app quotes_escaped]. rewrite IH. reflexivity.
  - cbn [app quotes_escaped]. rewrite Hc, IH. reflexivity.
Qed.

Lemma quotes_escaped_app_l b x y :
  quotes_escaped b (x ++ y) = true -> quotes_escaped b x = true.
Proof.
  revert b. induction x as [|c x IH]; intros b H; [reflexivity|].
  cbn [app quotes_escaped] in *. apply andb_true_iff in H. destruct H as [-> H].
  by rewrite (IH _ H).
Qed.

Lemma quotes_escaped_app_r b x y :
  quotes_escaped b (x ++ y) = true ->
  quotes_escaped (match last x with
                  | Some c => Ascii.eqb c backslash
                  | None => b
                  end) y = true.
Proof.
  revert b. induction x as [|c x IH]; intros b H; [exact H|].
  cbn [app quotes_escaped] in H. apply andb_true_iff in H. destruct H as [_ H].
  apply IH in H. destruct x as [|c' x']; [exact H|].
  change (last (c :: c' :: x')) with (last (c' :: x')).
  destruct (last (c' :: x')) eqn:Hlast; [exact H|].
  by apply last_None in Hlast.
Qed.

(** What [quotes_escaped] says, in words of the text. *)
Lemma quotes_escaped_spec b s p q :
  quotes_escaped b s = true ->
  s = p ++ dquote :: q ->
  (p = [] /\ b = true) \/ exists p', p = p' ++ [backslash].
Proof.
  revert b s. induction p as [|c p IH]; intros b s H ->.
  - left. cbn [app quotes_escaped] in H. apply andb_true_iff in H.
    destruct H as [H _]. by destruct b.
  - right. cbn [app quotes_escaped] in H. apply andb_true_iff in H.
    destruct H as [_ H].
    destruct (IH _ _ H eq_refl) as [[-> Hb]|[p' ->]].
    + exists []. apply Ascii.eqb_eq in Hb. by rewrite Hb.
    + by exists (c :: p').
Qed.

(** White space does not end with a backslash. *)
Lemma white_space_last_byte w c :
  white_space w -> last w = Some c -> Ascii.eqb c backslash = false.
Proof.
  intros Hw Hlast.
  destruct (decide (w = [])) as [->|Hne]; [discriminate|].
  destruct (white_space_last _ Hw Hne) as (rest & enc & Henc & ->).
  destruct (enc_last _ Henc) as (t & d & -> & Hascii).
  rewrite !app_assoc, last_snoc in Hlast. injection Hlast as ->.
  destruct (Ascii.eqb c backslash) eqn:Hc; [|reflexivity].
  apply Ascii.eqb_eq in Hc. subst c.
  destruct Hascii as [Hsp _]; [vm_compute; reflexivity|]. by vm_compute in Hsp.
Qed.

Lemma clean_message_quotes v : quotes_escaped false (clean_message v) = true.
Proof.
  unfold clean_message. rewrite Replace_quotes.
  destruct (TrimSpace_spec (escape_quotes v)) as ((pre & post & Heq & Hpre & _) & _).
  pose proof (escape_quotes_escaped false v) as H. rewrite Heq in H.
  apply quotes_escaped_app_r in H. apply quotes_escaped_app_l in H.
  destruct (last pre) as [c|] eqn:Hlast; [|exact H].
  by rewrite (white_space_last_byte _ _ Hpre Hlast) in H.
Qed.

Lemma enc_no_dquote enc : In enc space_encodings -> ~ In dquote enc.
Proof.
  intros H. unfold space_encodings, White_Space in H. cbn [map] in H.
  repeat (destruct H as [<-|H]; [intros Hin; cbv in Hin; intuition discriminate|]).
  destruct H.
Qed.

Lemma white_space_no_dquote w : white_space w -> ~ In dquote w.
Proof.
  induction 1 as [|enc rest Henc Hrest IH]; [by intros []|].
  intros Hin. apply in_app_or in Hin. destruct Hin as [Hin|Hin]; [|by apply IH].
  by apply (enc_no_dquote enc).
Qed.

Lemma escape_quotes_plain v : ~ In dquote v -> escape_quotes v = v.
Proof.
  induction v as [|c v IH]; intros Hv; [reflexivity|].
  rewrite escape_quotes_cons. destruct (Ascii.eqb c dquote) eqn:Hc.
  - apply Ascii.eqb_eq in Hc. subst c. exfalso. apply Hv. by left.
  - cbn [app]. f_equal. apply IH. intros Hin. apply Hv. by right.
Qed.

Lemma escape_quotes_keeps_quotes v : In dquote v -> In dquote (escape_quotes v).
Proof.
  induction v as [|c v IH]; intros Hv; [done|].
  rewrite escape_quotes_cons. apply in_or_app. destruct Hv as [->|Hv].
  - left. rewrite Ascii.eqb_refl. right. by left.
  - right. by apply IH.
Qed.

Lemma trimmed_of_nil s : white_space s -> trimmed_of s [].
Proof.
  intros Hs. split; [|split].
  - exists s, []. cbn [app]. rewrite app_nil_r. by repeat split; [|constructor].
  - intros enc rest Henc Heq. symmetry in Heq. apply app_eq_nil in Heq.
    destruct Heq as [Heq _]. by apply (enc_nonempty _ Henc).
  - intros enc rest Henc Heq. symmetry in Heq. apply app_eq_nil in Heq.
    destruct Heq as [_ Heq]. by apply (enc_nonempty _ Henc).
Qed.

Lemma clean_message_nil v : clean_message v = [] <-> white_space v.
Proof.
  unfold clean_message. rewrite Replace_quotes. split.
  - intros Hnil.
    destruct (TrimSpace_spec (escape_quotes v)) as ((pre & post & Heq & Hpre & Hpost) & _).
    rewrite Hnil in Heq. cbn [app] in Heq.
    assert (white_space (escape_quotes v)) as Hws.
    { rewrite Heq. by apply white_space_app. }
    rewrite escape_quotes_plain in Hws; [exact Hws|].
    intros Hin. apply escape_quotes_keeps_quotes in Hin.
    by apply (white_space_no_dquote _ Hws).
  - intros Hws. rewrite escape_quotes_plain by (by apply white_space_no_dquote).
    symmetry. apply TrimSpace_iff. by apply trimmed_of_nil.
Qed.

(** ** The log *)

Lemma debug_disabled cfg :
  loglevel cfg ≠ go "debug" -> loglevel cfg ≠ go "trace" ->
  IsLevelEnabled (logger cfg) DebugLevel = false.
Proof.
  intros Hd Ht. unfold logger, parseLogLevel.
  repeat (case_bool_decide; try done); reflexivity.
Qed.

Lemma debug_enabled cfg :
  loglevel cfg = go "debug" \/ loglevel cfg = go "trace" ->
  IsLevelEnabled (logger cfg) DebugLevel = true.
Proof. unfold logger. by intros [-> | ->]. Qed.

Lemma world_eta w :
  {| kv := kv w; kv_sets := kv_sets w; ws_writes := ws_writes w; log := log w;
     stdout := stdout w; stderr := stderr w |} = w.
Proof. by destruct w. Qed.

Lemma frame_logged_quiet cfg byt w :
  IsLevelEnabled (logger cfg) DebugLevel = false -> frame_logged cfg byt w = w.
Proof.
  intros H. unfold frame_logged, logged. rewrite H, app_nil_r. apply world_eta.
Qed.

Section Quiet.

Variable tokens : bytes -> option JSON.
Variable keyMatches : bytes -> bytes -> bool.
Variable decodeError : bytes -> error.
Variable cfg : Flags.
Variable arch : GOARCH.

Lemma bridge_loop_quiet os h w :
  IsLevelEnabled (logger cfg) DebugLevel = false ->
  forallb (uneventful tokens keyMatches decodeError) os = true ->
  log (world_of (bridge_loop tokens keyMatches decodeError cfg arch os h w)) = log w.
Proof.
  intros Hlevel. revert h w. induction os as [|o os IH]; intros h w Hos; [reflexivity|].
  cbn [forallb] in Hos. apply andb_true_iff in Hos. destruct Hos as [Ho Hos].
  destruct o as [[err|[] byt] [e1|] [e2|]|[err|]|rpc [write_err|]]; try discriminate.
  - rewrite bridge_loop_read. cbn [uneventful] in Ho.
    cbn [yielded receive_world].
    destruct (Unmarshal_payload tokens keyMatches decodeError byt) as [err|p];
      [discriminate|].
    rewrite frame_logged_quiet by exact Hlevel.
    destruct (msgType p), (msgSubType p); try by apply IH.
    destruct (truncated arch cfg _) as [panic|h1].
    + cbn [world_of event_world log set_failure]. unfold logged.
      by rewrite Hlevel, !app_nil_r.
    + rewrite IH by exact Hos. cbn [wsmsg_world log set_failure]. unfold logged.
      by rewrite Hlevel, !app_nil_r.
  - rewrite bridge_loop_read. cbn [yielded receive_world].
    rewrite frame_logged_quiet by exact Hlevel. by apply IH.
  - rewrite bridge_loop_tick. by rewrite IH.
  - rewrite bridge_loop_push, IH by exact Hos.
    cbn [incoming_world log send_outcome]. unfold logged.
    by rewrite Hlevel, !app_nil_r.
Qed.

(** ** The keys *)

Lemma rpc_key_apart :
  chatRPCKey cfg ≠ chatEventKey cfg /\ chatRPCKey cfg ≠ chatHistoryKey cfg.
Proof.
  rewrite chatRPCKey_eq, chatEventKey_eq, chatHistoryKey_eq.
  split; intros H; apply app_inv_head in H; discriminate.
Qed.

Lemma bridge_loop_keys os h w :
  exists sets,
    kv_sets (world_of (bridge_loop tokens keyMatches decodeError cfg arch os h w))
    = kv_sets w ++ sets
    /\ Forall (own_key cfg) sets.
Proof.
  revert h w. induction os as [|o os IH]; intros h w.
  { exists []. by rewrite app_nil_r. }
  destruct o as [[err|mtyp byt] e1 e2|[err|]|rpc write_err].
  - rewrite bridge_loop_read. exists []. by rewrite app_nil_r.
  - rewrite bridge_loop_read.
    assert (kv_sets (receive_world tokens keyMatches decodeError cfg
                       (ReadMessage mtyp byt) w) = kv_sets w) as Hrcv.
    { destruct mtyp; cbn [receive_world]; [|reflexivity].
      by destruct (Unmarshal_payload tokens keyMatches decodeError byt). }
    destruct (yielded _ _ _ _) as [msg|].
    + destruct (truncated arch cfg _) as [panic|h1].
      * exists [(chatEventKey cfg, stored_message msg)].
        cbn [world_of event_world kv_sets]. rewrite Hrcv.
        split; [reflexivity|]. constructor; [by left|constructor].
      * destruct (IH h1 (wsmsg_world cfg msg e1 e2 h1
                          (receive_world tokens keyMatches decodeError cfg
                             (ReadMessage mtyp byt) w))) as (sets & Heq & Hown).
        exists ([(chatEventKey cfg, stored_message msg);
                 (chatHistoryKey cfg, stored_history h1)] ++ sets).
        rewrite Heq. cbn [wsmsg_world kv_sets]. rewrite Hrcv, <- app_assoc.
        split; [reflexivity|].
        apply Forall_app. split; [|exact Hown].
        constructor; [by left|]. constructor; [by right|constructor].
    + destruct (IH h (receive_world tokens keyMatches decodeError cfg
                        (ReadMessage mtyp byt) w)) as (sets & Heq & Hown).
      exists sets. by rewrite Heq, Hrcv.
  - rewrite bridge_loop_tick. exists []. by rewrite app_nil_r.
  - rewrite bridge_loop_tick. exact (IH h (with_frame heartbeat_frame w)).
  - rewrite bridge_loop_push. exact (IH h (incoming_world cfg rpc write_err w)).
Qed.

End Quiet.

(** ** The whole process *)

Lemma calls_succeed_true env :
  calls_succeed env = true ->
  env_NewClient env = None /\ env_Post env = None
  /\ (exists creds, env_Decode env = inr creds)
  /\ env_Dial env = None /\ env_join env = None /\ env_subscribe env = None
  /\ env_SubscribeKey env = None.
Proof.
  unfold calls_succeed. rewrite !andb_true_iff, !bool_decide_eq_true.
  intros [[[[[[H1 H2] H3] H4] H5] H6] H7]. repeat split; try done.
  destruct (env_Decode env) as [e|creds]; [discriminate|by exists creds].
Qed.

Lemma startup_outcome cfg env w :
  if flags_given cfg && calls_succeed env
  then startup cfg env w
       = Ret (loaded_history env) (connected cfg (after_load cfg env w))
  else exists w', startup cfg env w = Exit 1 w'.
Proof.
  rewrite startup_eq. unfold startup_result.
  destruct (flags_given cfg); cbn [negb andb]; [|by eexists].
  destruct (calls_succeed env) eqn:Hcalls.
  - apply calls_succeed_true in Hcalls.
    destruct Hcalls as (-> & -> & (creds & ->) & -> & -> & -> & ->). reflexivity.
  - unfold calls_succeed in Hcalls.
    destruct (env_NewClient env); [by eexists|].
    destruct (env_Post env); [by eexists|].
    destruct (env_Decode env); [by eexists|].
    destruct (env_Dial env); [by eexists|].
    destruct (env_join env); [by eexists|].
    destruct (env_subscribe env); [by eexists|].
    destruct (env_SubscribeKey env); [by eexists|].
    discriminate.
Qed.

(** ** The texts handed to the store *)

Lemma read_chars_byte c tail :
  read_chars (jsoniter.writeStringByte c ++ tail)
  = match read_chars tail with
    | Some (t, rest) => Some (c :: t, rest)
    | None => None
    end.
Proof. destruct c as [[] [] [] [] [] [] [] []]; reflexivity. Qed.

Lemma read_chars_written s rest :
  read_chars (flat_map jsoniter.writeStringByte s ++ dquote :: rest) = Some (s, rest).
Proof.
  induction s as [|c s IH]; [reflexivity|].
  cbn [flat_map]. rewrite <- app_assoc, read_chars_byte, IH. reflexivity.
Qed.

(** A string the encoder wrote, with anything behind it, is the text of
    one string only. *)
Lemma WriteString_inj s1 s2 r1 r2 :
  jsoniter.WriteString s1 ++ r1 = jsoniter.WriteString s2 ++ r2 ->
  s1 = s2 /\ r1 = r2.
Proof.
  unfold jsoniter.WriteString. intros H. cbn [app] in H. injection H as H.
  rewrite <- !app_assoc in H. cbn [app] in H.
  apply (f_equal read_chars) in H. rewrite !read_chars_written in H.
  by injection H.
Qed.

Lemma stored_message_eq m :
  stored_message m
  = go "{'message':" ++ jsoniter.WriteString (Message m)
      ++ go ",'user':{'username':" ++ jsoniter.WriteString (Username (User m))
      ++ go "}}".
Proof.
  unfold stored_message, json_of_ChatMessage.
  cbn [jsoniter.encode map jsoniter.join fst snd].
  change (jsoniter.WriteString (go "message")) with (go "'message'").
  change (jsoniter.WriteString (go "user")) with (go "'user'").
  change (jsoniter.WriteString (go "username")) with (go "'username'").
  repeat first [rewrite <- app_assoc | progress cbn [app]]. reflexivity.
Qed.

Lemma stored_message_inj m1 m2 r1 r2 :
  stored_message m1 ++ r1 = stored_message m2 ++ r2 -> m1 = m2 /\ r1 = r2.
Proof.
  rewrite !stored_message_eq. intros H.
  rewrite <- !app_assoc in H. apply app_inv_head in H.
  apply WriteString_inj in H. destruct H as [Hm H].
  apply app_inv_head in H.
  apply WriteString_inj in H. destruct H as [Hu H].
  apply app_inv_head in H. split; [|exact H].
  destruct m1 as [t1 [u1]], m2 as [t2 [u2]]. cbn in Hm, Hu. by subst.
Qed.

Lemma stored_history_eq h :
  stored_history h = go "[" ++ jsoniter.join (map stored_message h) ++ go "]".
Proof.
  unfold stored_history, json_of_history. cbn [jsoniter.encode].
  by rewrite map_map.
Qed.

Lemma join_cons p l :
  jsoniter.join (p :: l)
  = p ++ match l with [] => [] | _ :: _ => go "," ++ jsoniter.join l end.
Proof. destruct l; cbn [jsoniter.join]; [by rewrite app_nil_r | reflexivity]. Qed.

Lemma stored_message_head m : exists t, stored_message m = "{"%char :: t.
Proof. rewrite stored_message_eq. by eexists. Qed.

Lemma joined_messages_inj h1 h2 :
  jsoniter.join (map stored_message h1) ++ go "]"
  = jsoniter.join (map stored_message h2) ++ go "]" ->
  h1 = h2.
Proof.
  revert h2. induction h1 as [|m1 h1 IH]; intros [|m2 h2] H; [reflexivity| | |].
  - exfalso. cbn [map] in H. rewrite join_cons in H.
    destruct (stored_message_head m2) as (t & Ht). rewrite Ht in H. discriminate.
  - exfalso. cbn [map] in H. rewrite join_cons in H.
    destruct (stored_message_head m1) as (t & Ht). rewrite Ht in H. discriminate.
  - cbn [map] in H. rewrite !join_cons, <- !app_assoc in H.
    apply stored_message_inj in H. destruct H as [-> H]. f_equal.
    destruct h1 as [|m1' h1], h2 as [|m2' h2]; [reflexivity| | |].
    + cbn [map app] in H. discriminate.
    + cbn [map app] in H. discriminate.
    + apply IH. cbn [map app] in H. injection H as H. exact H.
Qed.

Lemma stored_history_inj h1 h2 : stored_history h1 = stored_history h2 -> h1 = h2.
Proof.
  rewrite !stored_history_eq. intros H. apply app_inv_head in H.
  by apply joined_messages_inj.
Qed.

(** * The claims *)


(** C1.  For every sequence of inbound chat messages handled by the relay
    loop from an empty history with a capacity of at least 1: after each
    message the history is the last [capacity] messages received so far, in
    arrival order, and never longer than the capacity; the two store writes
    of that message carry the message itself (event key) and that history
    (history key), and the store holds them when the writes go through.
    With more messages than the capacity, the final history is exactly the
    last [capacity] messages.  With capacity 2 and the messages A, B, C the
    history key holds [A], [A, B], [B, C] and the event key A, B, C after
    the first, the second and the third message. *)
Theorem C1_history_is_last_capacity_messages arch cfg (arrivals : list arrival) w0 :
  1 <= chatHistorySize cfg ->
  let C := Z.to_nat (chatHistorySize cfg) in
  (forall pre m e1 e2 post,
      arrivals = pre ++ (m, (e1, e2)) :: post ->
      let h := last_n C (map fst pre ++ [m]) in
      exists w,
        relay_loop arch cfg (map arrival_event (pre ++ [(m, (e1, e2))])) [] w0
        = Ret h w
        /\ (length h <= C)%nat
        /\ (exists earlier,
              kv_sets w = earlier ++ [(chatEventKey cfg, stored_message m);
                                      (chatHistoryKey cfg, stored_history h)])
        /\ (e1 = None -> kv w !! chatEventKey cfg = Some (stored_message m))
        /\ (e2 = None -> kv w !! chatHistoryKey cfg = Some (stored_history h)))
  /\ ((C < length arrivals)%nat ->
      exists w,
        relay_loop arch cfg (map arrival_event arrivals) [] w0
        = Ret (last_n C (map fst arrivals)) w
        /\ length (last_n C (map fst arrivals)) = C)
  /\ (map (fun k => kv (sample_run k) !! chatHistoryKey (sample_flags 2))
          [1; 2; 3]%nat
      = [Some (stored_history [msg_A]); Some (stored_history [msg_A; msg_B]);
         Some (stored_history [msg_B; msg_C])]
      /\ map (fun k => kv (sample_run k) !! chatEventKey (sample_flags 2))
             [1; 2; 3]%nat
         = [Some (stored_message msg_A); Some (stored_message msg_B);
            Some (stored_message msg_C)]).
Proof.
  intros Hcap C. split; [|split; [|split; vm_compute; reflexivity]].
  - intros pre m e1 e2 post _ h.
    rewrite map_app, relay_loop_app.
    destruct (arrivals_window arch cfg pre [] w0) as [w1 Hw1];
      [lia | unfold len; simpl; lia |].
    rewrite (bind_Ret _ _ _ _ _ Hw1).
    cbn [map relay_loop arrival_event fst snd relay_case app].
    unfold mbind at 1, M_bind at 1.
    rewrite on_wsmsg_window;
      [| lia | left; unfold len; rewrite last_n_length; lia].
    fold C. rewrite last_n_snoc. fold h.
    eexists. split; [reflexivity|].
    split; [unfold h; rewrite last_n_length; lia|].
    split; [|split].
    + exists (kv_sets w1). reflexivity.
    + intros ->. cbn [wsmsg_world kv committed].
      destruct e2; cbn [committed].
      * apply lookup_insert_eq.
      * rewrite lookup_insert_ne by (apply not_eq_sym, keys_distinct).
        apply lookup_insert_eq.
    + intros ->. cbn [wsmsg_world kv committed]. apply lookup_insert_eq.
  - intros Hlen.
    destruct (arrivals_window arch cfg arrivals [] w0) as [w1 Hw1];
      [lia | unfold len; simpl; lia |].
    exists w1. split; [exact Hw1|].
    rewrite last_n_length, length_map. lia.
Qed.

Lemma C1_witness :
  1 <= chatHistorySize (sample_flags 2)
  /\ exists w,
       relay_loop Bits64 (sample_flags 2) (map arrival_event sample_arrivals) []
                  empty_World
       = Ret [msg_B; msg_C] w
       /\ length [msg_B; msg_C] = 2%nat.
Proof.
  split; [simpl; lia|].
  apply (C1_history_is_last_capacity_messages Bits64 (sample_flags 2)
           sample_arrivals empty_World); simpl; lia.
Defined.

(** C2.  A text frame whose document is an array of five elements with the
    first two not [null] makes the goroutine send no message: the store
    and the record of store writes are as before, and the relay loop is
    not entered, so the history stays.  A message is sent only for a text
    frame in whose document the first two elements are [null] or missing. *)
Theorem C2_control_frames_are_filtered tokens keyMatches decodeError cfg arch :
  (forall byt e1 e2 e3 e4 e5 w,
      tokens byt = Some (JArray [e1; e2; e3; e4; e5]) ->
      e1 ≠ JNull ->
      e2 ≠ JNull ->
      exists w',
        receive tokens keyMatches decodeError cfg (ReadMessage MessageText byt) w
        = Ret None w'
        /\ kv w' = kv w
        /\ kv_sets w' = kv_sets w
        /\ forall event_err history_err h,
             bridge_step tokens keyMatches decodeError cfg arch
               (SocketRead (ReadMessage MessageText byt) event_err history_err) h w
             = Ret h w')
  /\ (forall r msg w w',
         receive tokens keyMatches decodeError cfg r w = Ret (Some msg) w' ->
         exists byt doc,
           r = ReadMessage MessageText byt
           /\ tokens byt = Some doc
           /\ leading_tags_absent doc).
Proof.
  split.
  - intros byt e1 e2 e3 e4 e5 w Htok H1 H2.
    assert (exists w',
               receive tokens keyMatches decodeError cfg
                 (ReadMessage MessageText byt) w = Ret None w'
               /\ kv w' = kv w /\ kv_sets w' = kv_sets w) as (w' & Hrecv & Hkv & Hsets).
    { rewrite receive_text.
      destruct (Unmarshal_payload tokens keyMatches decodeError byt) as [err|p] eqn:Hdec.
      - eexists. split; [reflexivity|]. split; reflexivity.
      - unfold Unmarshal_payload in Hdec. rewrite Htok in Hdec.
        destruct (bind_elements keyMatches 0 _ zero_Payload) as [p'|] eqn:Hb;
          [|discriminate].
        injection Hdec as ->.
        apply bind_elements_leading in Hb. destruct Hb as [Ht _]. cbn [nth] in Ht.
        destruct (msgType p) eqn:Hm.
        + eexists. split; [reflexivity|]. split; reflexivity.
        + exfalso. apply H1. by apply Ht. }
    exists w'. split; [exact Hrecv|]. split; [exact Hkv|]. split; [exact Hsets|].
    intros event_err history_err h. cbn [bridge_step].
    rewrite (bind_Ret _ _ _ _ _ Hrecv). reflexivity.
  - intros r msg w w' Hrecv. destruct r as [err|[] byt].
    + rewrite receive_error in Hrecv. discriminate.
    + rewrite receive_text in Hrecv.
      destruct (Unmarshal_payload tokens keyMatches decodeError byt) as [err|p] eqn:Hdec;
        [discriminate|].
      exists byt. unfold Unmarshal_payload in Hdec.
      destruct (tokens byt) as [doc|]; [|discriminate].
      exists doc. split; [reflexivity|]. split; [reflexivity|].
      destruct doc; try discriminate.
      * left. reflexivity.
      * right. exists elems. split; [reflexivity|].
        destruct (bind_elements keyMatches 0 elems zero_Payload) as [p'|] eqn:Hb;
          [|discriminate].
        injection Hdec as ->.
        apply bind_elements_leading in Hb. destruct Hb as [Ht Hs].
        destruct (msgType p), (msgSubType p); try discriminate.
        split; [by apply Ht | by apply Hs].
    + cbn [receive] in Hrecv. unfold mbind, M_bind in Hrecv.
      unfold log_Debug in Hrecv. rewrite log_at_eq in Hrecv. discriminate.
Qed.

Lemma C2_witness :
  (sample_tokens (go "control")
   = Some (JArray [JString (go "1"); JString (go "1");
                   JString (go "__absinthe__:control"); JString (go "phx_reply");
                   JObject []])
   /\ JString (go "1") ≠ JNull)
  /\ exists w',
       bridge_step sample_tokens sample_keyMatches sample_decodeError
         (sample_flags 6) Bits64
         (SocketRead (ReadMessage MessageText (go "control")) None None)
         [msg_A] empty_World
       = Ret [msg_A] w'
       /\ kv_sets w' = [].
Proof.
  assert (sample_tokens (go "control")
          = Some (JArray [JString (go "1"); JString (go "1");
                          JString (go "__absinthe__:control");
                          JString (go "phx_reply"); JObject []])) as H1
    by reflexivity.
  assert (JString (go "1") ≠ JNull) as H2 by discriminate.
  split; [split; assumption|].
  destruct (C2_control_frames_are_filtered sample_tokens sample_keyMatches
              sample_decodeError (sample_flags 6) Bits64) as [Hfilter _].
  destruct (Hfilter (go "control") _ _ _ _ _ empty_World H1 H2 H2)
    as (w' & _ & _ & Hsets & Hstep).
  exists w'. split; [apply Hstep | exact Hsets].
Defined.

(** C3.  For every payload of an outgoing request, the text the program
    embeds in the send request is the payload with every double quote
    replaced by a backslash and a double quote, and without the white space
    at its two ends: it is the one string for which what is cut off in front
    and behind is white space as Unicode defines it and which neither starts
    nor ends with a white space character.  The frame handed to the socket,
    once, is the send request whose mutation holds that text between the
    quotes of its [message] field.  The payload [say "hi"] gives the text
    [say \"hi\"], with or without white space around it. *)
Theorem C3_outgoing_text_is_escaped_and_trimmed arch cfg rpc write_err h w :
  let message := clean_message (Value rpc) in
  message = strings.TrimSpace (escape_quotes (Value rpc))
  /\ (forall t, trimmed_of (escape_quotes (Value rpc)) t <-> t = message)
  /\ (exists w',
         relay_case arch cfg (Incoming rpc write_err) h w = Ret h w'
         /\ ws_writes w' = ws_writes w ++ [send_frame (channelID cfg) message]
         /\ kv_sets w' = kv_sets w)
  /\ mutation_query cfg message
     = go "mutation {createChatMessage(channelId: " ++ fmt.itoa (channelID cfg)
         ++ go ", message: {message: '" ++ message ++ go "'}) { message }}"
  /\ clean_message (go "say 'hi'") = go "say \'hi\'"
  /\ clean_message (go "  say 'hi' " ++ ["010"%char]) = go "say \'hi\'".
Proof.
  intros message.
  assert (message = strings.TrimSpace (escape_quotes (Value rpc))) as Hclean.
  { unfold message, clean_message. by rewrite Replace_quotes. }
  split; [exact Hclean|]. split; [|split; [|split; [|split]]].
  - intros t. rewrite Hclean. apply TrimSpace_iff.
  - eexists. cbn [relay_case].
    rewrite (bind_Ret _ _ _ _ _ (on_incoming_eq cfg rpc write_err w)).
    split; [reflexivity|]. cbn [kv_sets ws_writes]. done.
  - apply mutation_query_eq.
  - vm_compute. reflexivity.
  - vm_compute. reflexivity.
Qed.

(** C4, as stated, fails: the join frame the program writes at start-up has
    the topic [__absinthe__:control]; it is not a join frame with the topic
    [control], nor a frame of the other kinds. *)
Lemma C4_join_topic_is_not_control :
  In join_frame (ws_writes (world_of (startup (sample_flags 6) sample_env empty_World)))
  /\ join_frame
     = phx_frame (go "1") (go "1") (go "__absinthe__:control") (go "phx_join")
                 (go "{}")
  /\ ~ frame_kind_with_topic_control join_frame.
Proof.
  split; [|split].
  - vm_compute. left. reflexivity.
  - reflexivity.
  - apply join_frame_topic_not_control.
Qed.

(** C4, amended.  Every frame the process writes to the Glimesh socket, in
    the start-up and in the loop, is a five-element array of one of four
    kinds: the join frame, with topic [__absinthe__:control], event
    [phx_join] and the empty object as payload; the subscription, with event
    [doc] and the subscription document for the channel; the heartbeat, with
    topic [phoenix], event [heartbeat] and the empty object; the send
    request, with event [doc] and the mutation for the channel and the
    cleaned text. *)
Theorem C4_every_frame_is_of_four_kinds
    tokens keyMatches decodeError cfg arch env os w0 :
  exists frames,
    ws_writes (world_of (main tokens keyMatches decodeError cfg arch env os w0))
    = ws_writes w0 ++ frames
    /\ Forall (frame_kind cfg) frames.
Proof.
  destruct (main_continues tokens keyMatches decodeError cfg arch env os w0)
    as (sets & frames & _ & Hframes & Hkinds).
  exists frames. split; assumption.
Qed.

(** C5.  When the write of the heartbeat fails, the process exits with
    status 1 after the message [Could not send heartbeat: <error>] on standard
    error; the frame was handed to the socket once, and no later event is
    handled. *)
Theorem C5_heartbeat_failure_is_fatal arch cfg err evs h w :
  relay_loop arch cfg (Tick (Some err) :: evs) h w
  = Exit 1
      {| kv := kv w; kv_sets := kv_sets w;
         ws_writes := ws_writes w ++ [heartbeat_frame];
         log := log w; stdout := stdout w;
         stderr := stderr w ++ go "Could not send heartbeat: " ++ Error err
                     ++ ["010"%char] |}.
Proof. reflexivity. Qed.

(** C6.  In the receive goroutine, a text frame that cannot be decoded is
    logged as an error and the loop goes on with the next read, nothing
    sent; an error of the read, [io.EOF] or any other, is logged as fatal
    and the process exits with status 1: no further read is made, by the
    goroutine or by the process. *)
Theorem C6_decode_errors_are_skipped_read_errors_are_fatal
    tokens keyMatches decodeError cfg arch :
  (forall byt err reads w,
      Unmarshal_payload tokens keyMatches decodeError byt = inl err ->
      let w' :=
        with_entry {| entry_Level := ErrorLevel;
                      entry_Message := go "Could not decode websocket message";
                      entry_Data := [(go "error", Error err)] |}
                   (frame_logged cfg byt w) in
      receive tokens keyMatches decodeError cfg (ReadMessage MessageText byt) w
      = Ret None w'
      /\ receive_loop tokens keyMatches decodeError cfg
           (ReadMessage MessageText byt :: reads) w
         = receive_loop tokens keyMatches decodeError cfg reads w')
  /\ (forall err reads os event_err history_err h w,
         let w' :=
           with_entry
             {| entry_Level := FatalLevel;
                entry_Message :=
                  if bool_decide (err = io_EOF)
                  then go "Connection was closed by remote"
                  else go "Could not read from websocket";
                entry_Data := [(go "error", Error err)] |} w in
         receive_loop tokens keyMatches decodeError cfg (ReadError err :: reads) w
         = Exit 1 w'
         /\ bridge_loop tokens keyMatches decodeError cfg arch
              (SocketRead (ReadError err) event_err history_err :: os) h w
            = Exit 1 w').
Proof.
  split.
  - intros byt err reads w Hdec w'.
    assert (receive tokens keyMatches decodeError cfg (ReadMessage MessageText byt) w
            = Ret None w') as Hrecv.
    { rewrite receive_text, Hdec. reflexivity. }
    split; [exact Hrecv|].
    cbn [receive_loop]. rewrite (bind_Ret _ _ _ _ _ Hrecv).
    unfold mbind, M_bind.
    destruct (receive_loop tokens keyMatches decodeError cfg reads w'); reflexivity.
  - intros err reads os event_err history_err h w w'. split.
    + cbn [receive_loop]. apply bind_Exit. apply receive_error.
    + cbn [bridge_loop bridge_step]. apply bind_Exit, bind_Exit. apply receive_error.
Qed.

Lemma C6_witness :
  Unmarshal_payload sample_tokens sample_keyMatches sample_decodeError (go "{oops")
  = inl (sample_decodeError (go "{oops"))
  /\ receive_loop sample_tokens sample_keyMatches sample_decodeError (sample_flags 6)
       [ReadMessage MessageText (go "{oops"); ReadMessage MessageText (go "empty")]
       empty_World
     = receive_loop sample_tokens sample_keyMatches sample_decodeError (sample_flags 6)
         [ReadMessage MessageText (go "empty")]
         (with_entry
            {| entry_Level := ErrorLevel;
               entry_Message := go "Could not decode websocket message";
               entry_Data := [(go "error", Error (sample_decodeError (go "{oops")))] |}
            (frame_logged (sample_flags 6) (go "{oops") empty_World)).
Proof.
  assert (Unmarshal_payload sample_tokens sample_keyMatches sample_decodeError
            (go "{oops") = inl (sample_decodeError (go "{oops"))) as H
    by reflexivity.
  split; [exact H|].
  destruct (C6_decode_errors_are_skipped_read_errors_are_fatal sample_tokens
              sample_keyMatches sample_decodeError (sample_flags 6) Bits64)
    as [Hskip _].
  apply (Hskip (go "{oops") _ [ReadMessage MessageText (go "empty")] empty_World H).
Defined.

(** C7.  With a capacity of at least 0: when the write of the event key
    fails, the failure is logged and the reaction goes on; the message is
    appended to the history, which is truncated to the capacity and handed
    to the store under the history key; a failure of that write is logged
    as well.  Each write is made once, the store keeps the old value under
    a key whose write failed, and the loop handles the next event. *)
Theorem C7_store_failures_are_logged_and_skipped
    arch cfg msg err history_err h w evs :
  0 <= chatHistorySize cfg ->
  len h < MaxInt arch ->
  let h' := last_n (Z.to_nat (chatHistorySize cfg)) (h ++ [msg]) in
  exists w',
    on_wsmsg arch cfg msg (Some err) history_err h w = Ret h' w'
    /\ relay_loop arch cfg (WsMsg msg (Some err) history_err :: evs) h w
       = relay_loop arch cfg evs h' w'
    /\ In (set_failure_entry (chatEventKey cfg) err) (log w')
    /\ kv_sets w' = kv_sets w ++ [(chatEventKey cfg, stored_message msg);
                                  (chatHistoryKey cfg, stored_history h')]
    /\ kv w' !! chatEventKey cfg = kv w !! chatEventKey cfg
    /\ (history_err = None ->
        kv w' !! chatHistoryKey cfg = Some (stored_history h'))
    /\ (forall err2, history_err = Some err2 ->
        In (set_failure_entry (chatHistoryKey cfg) err2) (log w')
        /\ kv w' = kv w).
Proof.
  intros Hcap Hlen h'.
  pose proof (on_wsmsg_window arch cfg msg (Some err) history_err h w Hcap
                (or_intror Hlen)) as Hstep.
  fold h' in Hstep. eexists. split; [exact Hstep|].
  split; [cbn [relay_loop relay_case]; apply (bind_Ret _ _ _ _ _ Hstep)|].
  cbn [wsmsg_world kv kv_sets log committed set_failure].
  split; [|split; [reflexivity|split; [|split]]].
  - rewrite !in_app_iff. right. right. left. left. reflexivity.
  - destruct history_err; cbn [committed]; [reflexivity|].
    apply lookup_insert_ne, not_eq_sym, keys_distinct.
  - intros ->. cbn [committed]. apply lookup_insert_eq.
  - intros err2 ->. cbn [committed set_failure]. split; [|reflexivity].
    rewrite !in_app_iff. right. right. right. left. reflexivity.
Qed.

Lemma C7_witness :
  (0 <= chatHistorySize (sample_flags 2)
   /\ len [msg_A; msg_B] < MaxInt Bits64)
  /\ exists w',
       on_wsmsg Bits64 (sample_flags 2) msg_C (Some (errorString (go "timeout")))
                None [msg_A; msg_B] empty_World
       = Ret [msg_B; msg_C] w'
       /\ In (set_failure_entry (chatEventKey (sample_flags 2))
                                (errorString (go "timeout"))) (log w')
       /\ kv w' !! chatEventKey (sample_flags 2) = None
       /\ kv w' !! chatHistoryKey (sample_flags 2)
          = Some (stored_history [msg_B; msg_C]).
Proof.
  assert (0 <= chatHistorySize (sample_flags 2)) as H1 by (simpl; lia).
  assert (len [msg_A; msg_B] < MaxInt Bits64) as H2 by (vm_compute; reflexivity).
  split; [split; assumption|].
  destruct (C7_store_failures_are_logged_and_skipped Bits64 (sample_flags 2)
              msg_C (errorString (go "timeout")) None [msg_A; msg_B]
              empty_World [] H1 H2)
    as (w' & Hstep & _ & Hlog & _ & Hev & Hhist & _).
  exists w'. split; [exact Hstep|]. split; [exact Hlog|].
  split; [rewrite Hev; reflexivity | apply Hhist; reflexivity].
Defined.

(** C8.  In a start-up that gets as far as Kilovolt (the required flags are
    given and the connection is made), when the read of the stored history
    fails: the empty history is handed to the store under the history key,
    as the first store write of the process, before anything of the loop;
    and when the start-up completes, the loop starts from the empty history,
    that write is the only one made so far, and the store holds the empty
    history if the write went through. *)
Theorem C8_missing_history_starts_empty_and_is_written
    tokens keyMatches decodeError cfg arch env os w0 err :
  clientID cfg ≠ [] ->
  clientSecret cfg ≠ [] ->
  channelID cfg ≠ -1 ->
  env_NewClient env = None ->
  env_GetJSON env = inl err ->
  (exists rest,
      kv_sets (world_of (main tokens keyMatches decodeError cfg arch env os w0))
      = kv_sets w0 ++ (chatHistoryKey cfg, stored_history []) :: rest)
  /\ (forall h w,
         startup cfg env w0 = Ret h w ->
         h = []
         /\ kv_sets w = kv_sets w0 ++ [(chatHistoryKey cfg, stored_history [])]
         /\ (env_SetJSON env = None ->
             kv w !! chatHistoryKey cfg = Some (stored_history []))).
Proof.
  intros Hid Hsecret Hchannel Hclient Hget.
  set (w1 := {| kv := committed (chatHistoryKey cfg) (go "[]") (env_SetJSON env) (kv w0);
                kv_sets := kv_sets w0 ++ [(chatHistoryKey cfg, go "[]")];
                ws_writes := ws_writes w0; log := log w0; stdout := stdout w0;
                stderr := stderr w0 |}).
  assert (startup cfg env w0
          = (connect_glimesh cfg env ;; subscribe_rpc cfg env ;; mret []) w1)
    as Hstart.
  { unfold startup.
    rewrite (bind_Ret _ _ _ _ _ (check_flags_ok cfg w0 Hid Hsecret Hchannel)).
    rewrite Hclient. unfold check at 1.
    unfold mbind at 1, M_bind at 1, mret at 1, M_ret at 1.
    rewrite (bind_Ret _ _ _ _ _ (load_history_missing cfg env err w0 Hget)).
    reflexivity. }
  split.
  - unfold main.
    assert (run_rel (continues (frame_kind cfg))
              ((connect_glimesh cfg env ;; subscribe_rpc cfg env ;; mret [])
               ≫= bridge_loop tokens keyMatches decodeError cfg arch os)) as Hrest.
    { apply run_rel_bind;
        [typeclasses eauto | | intros; apply bridge_loop_continues].
      apply run_rel_bind;
        [typeclasses eauto | apply connect_glimesh_continues | intros].
      apply run_rel_bind;
        [typeclasses eauto | apply subscribe_rpc_continues
        | intros; continues_call]. }
    destruct (Hrest w1) as (sets & _ & Hsets & _).
    exists sets.
    replace ((startup cfg env ≫= bridge_loop tokens keyMatches decodeError cfg arch os) w0)
      with (((connect_glimesh cfg env ;; subscribe_rpc cfg env ;; mret [])
             ≫= bridge_loop tokens keyMatches decodeError cfg arch os) w1).
    + rewrite Hsets. subst w1. cbn [kv_sets]. by rewrite <- app_assoc.
    + unfold mbind at 1 4, M_bind at 1 4. rewrite Hstart. reflexivity.
  - intros h w Hret. rewrite Hstart in Hret.
    assert (run_rel same_store
              (connect_glimesh cfg env ;; subscribe_rpc cfg env ;; mret (M := M) ([] : list ChatMessage)))
      as Hsame.
    { apply run_rel_bind;
        [typeclasses eauto | apply connect_glimesh_same_store | intros].
      apply run_rel_bind;
        [typeclasses eauto | apply subscribe_rpc_same_store
        | intros; same_store_call]. }
    specialize (Hsame w1). rewrite Hret in Hsame. destruct Hsame as [Hkv Hsets].
    cbn [world_of] in *. split; [|split].
    + revert Hret. unfold mbind, M_bind, mret, M_ret.
      destruct (connect_glimesh cfg env w1); try discriminate.
      destruct (subscribe_rpc cfg env w2); try discriminate.
      congruence.
    + rewrite Hsets. reflexivity.
    + intros Hset. rewrite Hkv. subst w1. cbn [kv]. rewrite Hset.
      apply lookup_insert_eq.
Qed.

Lemma C8_witness :
  (clientID (sample_flags 6) ≠ []
   /\ clientSecret (sample_flags 6) ≠ []
   /\ channelID (sample_flags 6) ≠ -1
   /\ env_NewClient sample_env = None
   /\ env_GetJSON sample_env = inl (errorString (go "EOF")))
  /\ exists rest,
       kv_sets (world_of (main (fun _ => None) (fun _ _ => false)
                               (fun _ => errorString []) (sample_flags 6) Bits64
                               sample_env
                               [SocketRead (ReadError io_EOF) None None]
                               empty_World))
       = (chatHistoryKey (sample_flags 6), go "[]") :: rest.
Proof.
  assert (clientID (sample_flags 6) ≠ []) as H1 by (simpl; discriminate).
  assert (clientSecret (sample_flags 6) ≠ []) as H2 by (simpl; discriminate).
  assert (channelID (sample_flags 6) ≠ -1) as H3 by (simpl; discriminate).
  assert (env_NewClient sample_env = None) as H4 by reflexivity.
  assert (env_GetJSON sample_env = inl (errorString (go "EOF"))) as H5
    by reflexivity.
  split; [repeat split; assumption|].
  apply (C8_missing_history_starts_empty_and_is_written
           (fun _ => None) (fun _ _ => false) (fun _ => errorString [])
           (sample_flags 6) Bits64 sample_env
           [SocketRead (ReadError io_EOF) None None] empty_World
           (errorString (go "EOF")) H1 H2 H3 H4 H5).
Defined.

(** C9, as stated, fails: with the capacity at the least [int] of a 64-bit
    platform, the first message still panics in the truncation, but the lower
    bound of the slice expression has wrapped around to a negative number;
    it is not greater than the length of the slice. *)
Lemma C9_lower_bound_wraps_below_zero :
  chatHistorySize (sample_flags (MinInt Bits64)) < 0
  /\ (exists w',
         on_wsmsg Bits64 (sample_flags (MinInt Bits64)) msg_A None None []
                  empty_World
         = Panicked (SliceBoundsOutOfRange (-9223372036854775807) 1) w')
  /\ ~ (len [msg_A] < -9223372036854775807).
Proof.
  split; [vm_compute; reflexivity|]. split.
  - eexists. vm_compute. reflexivity.
  - vm_compute. discriminate.
Qed.

(** C9, amended.  For a capacity that is an [int] and a history shorter
    than the largest [int]: with a capacity below 0, the reaction to an
    inbound message panics in the slice expression of the truncation, after
    the event key was written and before the history is; the lower bound,
    the length less the capacity computed in [int], is outside the slice,
    above its length or, when the subtraction wraps around, below 0.  With a
    capacity of at least 0 the reaction returns. *)
Theorem C9_truncation_needs_capacity_at_least_zero arch cfg msg e1 e2 h w :
  MinInt arch <= chatHistorySize cfg <= MaxInt arch ->
  len h < MaxInt arch ->
  (chatHistorySize cfg < 0 ->
   let n := len (h ++ [msg]) in
   let low := wrap_int arch (n - chatHistorySize cfg) in
   (low < 0 \/ n < low)
   /\ (n - chatHistorySize cfg <= MaxInt arch ->
       low = n - chatHistorySize cfg /\ n < low)
   /\ exists w',
        on_wsmsg arch cfg msg e1 e2 h w
        = Panicked (SliceBoundsOutOfRange low n) w'
        /\ kv_sets w' = kv_sets w ++ [(chatEventKey cfg, stored_message msg)])
  /\ (0 <= chatHistorySize cfg ->
      exists h' w', on_wsmsg arch cfg msg e1 e2 h w = Ret h' w').
Proof.
  intros Hint Hlen. split.
  - intros Hneg n low.
    assert (0 <= n <= MaxInt arch) as Hn.
    { unfold n, len in *. rewrite length_app. simpl length. lia. }
    destruct (negative_capacity_lower_bound arch n (chatHistorySize cfg))
      as [Hout Hfit]; [lia | exact Hn |].
    fold low in Hout, Hfit. split; [exact Hout|]. split; [exact Hfit|].
    rewrite on_wsmsg_unfold. fold n. fold low.
    replace (chatHistorySize cfg <? n) with true by (symmetry; apply Z.ltb_lt; lia).
    unfold slice_from. fold n.
    replace ((0 <=? low) && (low <=? n)) with false.
    2:{ symmetry. apply andb_false_iff.
        destruct Hout; [left; apply Z.leb_gt | right; apply Z.leb_gt]; lia. }
    eexists. split; [reflexivity|]. reflexivity.
  - intros Hcap. eexists _, _.
    apply on_wsmsg_window; [exact Hcap | right; exact Hlen].
Qed.

Lemma C9_witness :
  (MinInt Bits64 <= chatHistorySize (sample_flags (-1)) <= MaxInt Bits64
   /\ len [msg_A; msg_B] < MaxInt Bits64)
  /\ exists w',
       on_wsmsg Bits64 (sample_flags (-1)) msg_C None None [msg_A; msg_B]
                empty_World
       = Panicked (SliceBoundsOutOfRange 4 3) w'.
Proof.
  assert (MinInt Bits64 <= chatHistorySize (sample_flags (-1)) <= MaxInt Bits64)
    as H1 by (vm_compute; split; discriminate).
  assert (len [msg_A; msg_B] < MaxInt Bits64) as H2 by (vm_compute; reflexivity).
  split; [split; assumption|].
  destruct (C9_truncation_needs_capacity_at_least_zero Bits64 (sample_flags (-1))
              msg_C None None [msg_A; msg_B] empty_World H1 H2) as [Hneg _].
  destruct Hneg as (_ & _ & w' & Hw' & _); [simpl; lia|].
  exists w'. exact Hw'.
Defined.

(** C10.  A text frame that decodes without error, whose document is
    [[null, null, _, _, e5]] with nothing at the path
    [result.data.chatMessage] in [e5], makes the goroutine send the zero
    message (empty text, empty user name): the relay loop reacts to it as
    to any message, the event key is written with it, and, with a capacity
    of at least 1, it is the last element of the history handed to the
    store. *)
Theorem C10_missing_payload_yields_zero_message
    tokens keyMatches decodeError cfg arch byt e3 e4 e5 p w :
  tokens byt = Some (JArray [JNull; JNull; e3; e4; e5]) ->
  Unmarshal_payload tokens keyMatches decodeError byt = inr p ->
  json_has_path keyMatches chat_payload_path e5 = false ->
  let w1 := frame_logged cfg byt w in
  receive tokens keyMatches decodeError cfg (ReadMessage MessageText byt) w
  = Ret (Some zero_ChatMessage) w1
  /\ (forall event_err history_err h,
         bridge_step tokens keyMatches decodeError cfg arch
           (SocketRead (ReadMessage MessageText byt) event_err history_err) h w
         = on_wsmsg arch cfg zero_ChatMessage event_err history_err h w1)
  /\ (forall event_err history_err h,
         exists more,
           kv_sets (world_of
                      (bridge_step tokens keyMatches decodeError cfg arch
                         (SocketRead (ReadMessage MessageText byt) event_err history_err)
                         h w))
           = kv_sets w ++ (chatEventKey cfg, stored_message zero_ChatMessage) :: more)
  /\ (forall event_err history_err h,
         1 <= chatHistorySize cfg ->
         len h < MaxInt arch ->
         exists h' w',
           bridge_step tokens keyMatches decodeError cfg arch
             (SocketRead (ReadMessage MessageText byt) event_err history_err) h w
           = Ret h' w'
           /\ last h' = Some zero_ChatMessage
           /\ kv_sets w' = kv_sets w ++ [(chatEventKey cfg, stored_message zero_ChatMessage);
                                         (chatHistoryKey cfg, stored_history h')]).
Proof.
  intros Htok Hdec Hpath w1.
  destruct (decode_without_chat_message tokens keyMatches decodeError
              byt e3 e4 e5 p Htok Hdec Hpath) as (Ht & Hs & Hzero).
  assert (receive tokens keyMatches decodeError cfg (ReadMessage MessageText byt) w
          = Ret (Some zero_ChatMessage) w1) as Hrecv.
  { rewrite receive_text, Hdec, Ht, Hs, Hzero. reflexivity. }
  assert (forall event_err history_err h,
             bridge_step tokens keyMatches decodeError cfg arch
               (SocketRead (ReadMessage MessageText byt) event_err history_err) h w
             = on_wsmsg arch cfg zero_ChatMessage event_err history_err h w1) as Hstep.
  { intros. cbn [bridge_step]. rewrite (bind_Ret _ _ _ _ _ Hrecv). reflexivity. }
  split; [exact Hrecv|]. split; [exact Hstep|]. split.
  - intros event_err history_err h. rewrite Hstep, on_wsmsg_unfold.
    match goal with
    | |- context [world_of (?m ?w2)] =>
      assert (run_rel (continues (frame_kind cfg)) m) as Hrest
    end.
    { run_rel_steps continues_call. }
    match goal with
    | |- context [world_of (?m ?w2)] => destruct (Hrest w2) as (sets & _ & Hsets & _)
    end.
    exists sets. rewrite Hsets. cbn [kv_sets]. by rewrite <- app_assoc.
  - intros event_err history_err h Hcap Hlen.
    rewrite Hstep, on_wsmsg_window by (lia || (right; exact Hlen)).
    eexists _, _. split; [reflexivity|]. split; [|reflexivity].
    unfold last_n. rewrite length_app. simpl length.
    rewrite drop_app_le by lia. apply last_snoc.
Qed.

Lemma C10_witness :
  (sample_tokens (go "empty")
   = Some (JArray [JNull; JNull; JString (go "__absinthe__:doc:1");
                   JString (go "subscription:data"); JObject []])
   /\ Unmarshal_payload sample_tokens sample_keyMatches sample_decodeError (go "empty")
      = inr {| msgType := None; msgSubType := None;
               subId := go "__absinthe__:doc:1";
               subType := go "subscription:data";
               result := zero_ChatMessageResult |}
   /\ json_has_path sample_keyMatches chat_payload_path (JObject []) = false)
  /\ receive sample_tokens sample_keyMatches sample_decodeError (sample_flags 6)
       (ReadMessage MessageText (go "empty")) empty_World
     = Ret (Some zero_ChatMessage) (frame_logged (sample_flags 6) (go "empty") empty_World).
Proof.
  assert (sample_tokens (go "empty")
          = Some (JArray [JNull; JNull; JString (go "__absinthe__:doc:1");
                          JString (go "subscription:data"); JObject []])) as H1
    by reflexivity.
  assert (Unmarshal_payload sample_tokens sample_keyMatches sample_decodeError
            (go "empty")
          = inr {| msgType := None; msgSubType := None;
                   subId := go "__absinthe__:doc:1";
                   subType := go "subscription:data";
                   result := zero_ChatMessageResult |}) as H2 by reflexivity.
  assert (json_has_path sample_keyMatches chat_payload_path (JObject []) = false)
    as H3 by reflexivity.
  split; [repeat split; assumption|].
  apply (C10_missing_payload_yields_zero_message sample_tokens sample_keyMatches
           sample_decodeError (sample_flags 6) Bits64 (go "empty") _ _ _ _
           empty_World H1 H2 H3).
Defined.

(** * Further properties of the program *)

(** X1.  [check] with a [nil] error does nothing and returns.  With an
    error and a format without verbs, it writes one line on standard error,
    the format, a colon and the text of the error, whatever that text holds,
    and ends the process with status 1; the store, the socket, the log and
    standard output are left as they are. *)
Theorem X1_check_reports_and_exits format args err w :
  check None format args w = Ret tt w
  /\ (verb_free format = true ->
      check (Some err) format [] w
      = Exit 1 {| kv := kv w; kv_sets := kv_sets w; ws_writes := ws_writes w;
                  log := log w; stdout := stdout w;
                  stderr := stderr w ++ format ++ go ": " ++ Error err
                              ++ ["010"%char] |}).
Proof.
  split; [reflexivity|]. intros Hfree. by rewrite check_failed.
Qed.

Lemma X1_witness :
  verb_free (go "Could not send heartbeat") = true
  /\ check (Some (errorString (go "100% lost"))) (go "Could not send heartbeat") []
           empty_World
     = Exit 1 {| kv := ∅; kv_sets := []; ws_writes := []; log := []; stdout := [];
                 stderr := go "Could not send heartbeat: 100% lost"
                             ++ ["010"%char] |}.
Proof.
  assert (verb_free (go "Could not send heartbeat") = true) as H by reflexivity.
  split; [exact H|].
  exact (proj2 (X1_check_reports_and_exits
                  (go "Could not send heartbeat") []
                  (errorString (go "100% lost")) empty_World) H).
Defined.

(** X2.  Whatever the value of the flag [-log-level], the level of the
    logger is one of error, warn, info, debug and trace, so that a call of
    [Error] always writes its entry and a call of [Fatal] writes its entry
    and ends the process with status 1.  A value that is none of the seven
    names the program knows gives the level info. *)
Theorem X2_no_level_silences_errors level data msg w :
  In (parseLogLevel level) [ErrorLevel; WarnLevel; InfoLevel; DebugLevel; TraceLevel]
  /\ log_Error (parseLogLevel level) data msg w
     = Ret tt (with_entry {| entry_Level := ErrorLevel; entry_Message := msg;
                             entry_Data := data |} w)
  /\ log_Fatal (A := unit) (parseLogLevel level) data msg w
     = Exit 1 (with_entry {| entry_Level := FatalLevel; entry_Message := msg;
                             entry_Data := data |} w)
  /\ (~ In level [go "error"; go "warn"; go "warning"; go "info"; go "notice";
                  go "debug"; go "trace"] ->
      parseLogLevel level = InfoLevel).
Proof.
  pose (cfg := {| endpoint := []; password := []; prefix := []; channelID := 0;
                  clientID := []; clientSecret := []; chatHistorySize := 0;
                  loglevel := level |}).
  split; [|split; [|split]].
  - unfold parseLogLevel.
    repeat (case_bool_decide; cbn [orb]); cbn [In]; tauto.
  - exact (log_Error_eq cfg data msg w).
  - exact (fatal_exit cfg data msg w).
  - intros Hnot. unfold parseLogLevel.
    repeat (case_bool_decide; cbn [orb]); try reflexivity;
      exfalso; apply Hnot; subst level; cbn [In]; tauto.
Qed.

(** X3.  Without a client ID, a client secret or a channel ID, [main] logs
    one fatal entry, about the credentials when one of them is missing and
    about the channel otherwise, and ends the process with status 1 before
    any call to Kilovolt, to the token endpoint or to the socket: the store,
    the frames written and the output streams are as they were. *)
Theorem X3_missing_flags_end_the_process_first
    tokens keyMatches decodeError cfg arch env os w :
  clientID cfg = [] \/ clientSecret cfg = [] \/ channelID cfg = -1 ->
  main tokens keyMatches decodeError cfg arch env os w
  = Exit 1 {| kv := kv w; kv_sets := kv_sets w; ws_writes := ws_writes w;
              log := log w
                     ++ [{| entry_Level := FatalLevel;
                            entry_Message :=
                              if bool_decide (clientID cfg = [])
                                 || bool_decide (clientSecret cfg = [])
                              then missing_credentials_text
                              else missing_channel_text;
                            entry_Data := [] |}];
              stdout := stdout w; stderr := stderr w |}.
Proof.
  intros Hmissing.
  assert (flags_given cfg = false) as Hflags.
  { unfold flags_given. destruct Hmissing as [H|[H|H]].
    - by rewrite (bool_decide_eq_true_2 _ H).
    - rewrite (bool_decide_eq_true_2 _ H). apply andb_false_iff. left.
      apply andb_false_r.
    - rewrite H. apply andb_false_r. }
  unfold main. apply bind_Exit. rewrite startup_eq. unfold startup_result.
  by rewrite Hflags.
Qed.

Lemma X3_witness :
  (clientID default_flags = [] \/ clientSecret default_flags = []
   \/ channelID default_flags = -1)
  /\ main sample_tokens sample_keyMatches sample_decodeError default_flags Bits64
          sample_env [TimerTick None] empty_World
     = Exit 1 {| kv := ∅; kv_sets := []; ws_writes := [];
                 log := [{| entry_Level := FatalLevel;
                            entry_Message := missing_credentials_text;
                            entry_Data := [] |}];
                 stdout := []; stderr := [] |}.
Proof.
  assert (clientID default_flags = [] \/ clientSecret default_flags = []
          \/ channelID default_flags = -1) as H by (left; reflexivity).
  split; [exact H|].
  exact (X3_missing_flags_end_the_process_first
           sample_tokens sample_keyMatches sample_decodeError default_flags Bits64
           sample_env [TimerTick None] empty_World H).
Defined.

(** X4.  The start-up reaches the relay loop exactly when the required
    flags are given and none of the calls the program checks fails: the
    connection to Kilovolt, the token request and the decoding of its
    answer, the opening of the socket, the two writes to it and the
    subscription to the request key.  It then has written the join frame
    and the subscription, in this order and nothing else, to the socket and
    nothing to the output streams, and hands to the loop the history
    Kilovolt held, as it is and without a store write, or the empty history
    after one write of it when the read failed; whether that write went
    through does not matter.  In every other case the start-up ends the
    process with status 1. *)
Theorem X4_startup_reaches_the_loop cfg env w :
  if flags_given cfg && calls_succeed env
  then exists w',
         startup cfg env w = Ret (loaded_history env) w'
         /\ ws_writes w' = ws_writes w ++ [join_frame; subscribe_frame cfg]
         /\ stdout w' = stdout w /\ stderr w' = stderr w
         /\ kv_sets w'
            = kv_sets w ++ match env_GetJSON env with
                           | inl _ => [(chatHistoryKey cfg, stored_history [])]
                           | inr _ => []
                           end
         /\ log w' = log w ++ logged (logger cfg) InfoLevel
                                [(go "endpoint", endpoint cfg)]
                                (go "Connected to Kilovolt")
  else exists w', startup cfg env w = Exit 1 w'.
Proof.
  pose proof (startup_outcome cfg env w) as H.
  destruct (flags_given cfg && calls_succeed env); [|exact H].
  eexists. split; [exact H|].
  unfold connected, after_load. cbn [ws_writes stdout stderr kv_sets log].
  destruct (env_GetJSON env);
    cbn [ws_writes stdout stderr kv_sets log]; rewrite ?app_nil_r; by repeat split.
Qed.

(** X5.  With the required flags given, the first call of the start-up
    that fails ends the process with status 1.  A failed connection to
    Kilovolt, token request, decoding of the token or opening of the socket
    is reported by one line on standard error; the store has been read, and
    the empty history written when that read failed, before the token is
    requested.  When the write of the join frame fails, that frame was
    handed to the socket once and the subscription was not; when the write
    of the subscription fails, both frames were handed to the socket, and
    the line on standard error is that of the join frame.  A failed
    subscription to the request key is logged as fatal, after both frames
    were written (the goroutine, started just before, is taken not to have
    read anything by then). *)
Theorem X5_startup_failures cfg env w :
  flags_given cfg = true ->
  let w1 := after_load cfg env w in
  (forall e, env_NewClient env = Some e ->
     startup cfg env w
     = Exit 1 (with_stderr (go "Connection to kilovolt failed: " ++ Error e
                              ++ ["010"%char]) w))
  /\ (env_NewClient env = None ->
      (forall e, env_Post env = Some e ->
         startup cfg env w
         = Exit 1 (with_stderr (go "Could not retrieve Glimesh API token: "
                                  ++ Error e ++ ["010"%char]) w1))
      /\ (env_Post env = None ->
          (forall e, env_Decode env = inl e ->
             startup cfg env w
             = Exit 1 (with_stderr (go "Could not decode Glimesh API response: "
                                      ++ Error e ++ ["010"%char]) w1))
          /\ (err_of (env_Decode env) = None ->
              (forall e, env_Dial env = Some e ->
                 startup cfg env w
                 = Exit 1 (with_stderr (go "Could not connect to Glimesh websocket: "
                                          ++ Error e ++ ["010"%char]) w1))
              /\ (env_Dial env = None ->
                  (forall e, env_join env = Some e ->
                     startup cfg env w
                     = Exit 1 (with_stderr (go "Could not send join message: "
                                              ++ Error e ++ ["010"%char])
                                           (with_frame join_frame w1)))
                  /\ (env_join env = None ->
                      (forall e, env_subscribe env = Some e ->
                         startup cfg env w
                         = Exit 1 (with_stderr
                                     (go "Could not send join message: "
                                        ++ Error e ++ ["010"%char])
                                     (with_frame (subscribe_frame cfg)
                                        (with_frame join_frame w1))))
                      /\ (env_subscribe env = None ->
                          forall e, env_SubscribeKey env = Some e ->
                            startup cfg env w
                            = Exit 1 (with_entry
                                        {| entry_Level := FatalLevel;
                                           entry_Message :=
                                             go "Could not subscribe to chat RPC key";
                                           entry_Data := [(go "error", Error e)] |}
                                        (connected cfg w1)))))))).
Proof.
  intros Hflags w1. rewrite startup_eq. unfold startup_result.
  rewrite Hflags. cbn [negb]. fold w1.
  split; [by intros e ->|]. intros ->.
  split; [by intros e ->|]. intros ->.
  split; [by intros e ->|]. intros Hdecode.
  destruct (env_Decode env) as [e|creds]; [discriminate|].
  split; [by intros e ->|]. intros ->.
  split; [by intros e ->|]. intros ->.
  split; [by intros e ->|]. intros -> e ->. reflexivity.
Qed.

Lemma X5_witness :
  flags_given (sample_flags 6) = true
  /\ startup (sample_flags 6) env_no_socket empty_World
     = Exit 1 (with_stderr
                 (go "Could not connect to Glimesh websocket: dial tcp: i/o timeout"
                    ++ ["010"%char]) empty_World).
Proof.
  assert (flags_given (sample_flags 6) = true) as H by reflexivity.
  split; [exact H|].
  destruct (X5_startup_failures (sample_flags 6) env_no_socket empty_World H)
    as (_ & Hrest).
  destruct (Hrest eq_refl) as (_ & Hrest1).
  destruct (Hrest1 eq_refl) as (_ & Hrest2).
  destruct (Hrest2 eq_refl) as (Hdial & _).
  exact (Hdial _ eq_refl).
Defined.

(** X6.  Every write the process makes to the store, in the start-up and
    in the loop, is under the key of the latest chat event or under the key
    of the history.  The three keys are the prefix followed by their fixed
    names, so they differ from each other for every prefix: the bridge
    never writes under the key it listens to for requests. *)
Theorem X6_only_the_two_own_keys_are_written
    tokens keyMatches decodeError cfg arch env os w :
  (exists sets,
      kv_sets (world_of (main tokens keyMatches decodeError cfg arch env os w))
      = kv_sets w ++ sets
      /\ Forall (fun write => fst write = chatEventKey cfg
                              \/ fst write = chatHistoryKey cfg) sets)
  /\ chatEventKey cfg = prefix cfg ++ go "ev/chat-message"
  /\ chatHistoryKey cfg = prefix cfg ++ go "chat-history"
  /\ chatRPCKey cfg = prefix cfg ++ go "@send-chat-message"
  /\ chatRPCKey cfg ≠ chatEventKey cfg
  /\ chatRPCKey cfg ≠ chatHistoryKey cfg
  /\ chatEventKey cfg ≠ chatHistoryKey cfg.
Proof.
  split.
  2:{ split; [apply chatEventKey_eq|]. split; [apply chatHistoryKey_eq|].
      split; [apply chatRPCKey_eq|].
      split; [apply rpc_key_apart|]. split; [apply rpc_key_apart|].
      apply keys_distinct. }
  assert (exists sets0,
             kv_sets (after_load cfg env w) = kv_sets w ++ sets0
             /\ Forall (own_key cfg) sets0) as (sets0 & Hload & Hown0).
  { unfold after_load. destruct (env_GetJSON env).
    - eexists. split; [reflexivity|]. constructor; [by right|constructor].
    - exists []. by rewrite app_nil_r. }
  assert (forall w1, kv_sets w1 = kv_sets (after_load cfg env w) ->
            exists sets, kv_sets w1 = kv_sets w ++ sets /\ Forall (own_key cfg) sets)
    as Hafter.
  { intros w1 ->. by exists sets0. }
  unfold main, mbind, M_bind. rewrite startup_eq. unfold startup_result.
  destruct (flags_given cfg); cbn [negb].
  2:{ exists []. by rewrite app_nil_r. }
  destruct (env_NewClient env). { exists []. by rewrite app_nil_r. }
  cbv zeta.
  destruct (env_Post env); [by apply Hafter|].
  destruct (env_Decode env); [by apply Hafter|].
  destruct (env_Dial env); [by apply Hafter|].
  destruct (env_join env); [by apply Hafter|].
  destruct (env_subscribe env); [by apply Hafter|].
  destruct (env_SubscribeKey env); [by apply Hafter|].
  destruct (bridge_loop_keys tokens keyMatches decodeError cfg arch os
              (loaded_history env) (connected cfg (after_load cfg env w)))
    as (sets & Heq & Hown).
  match goal with
  | |- context [world_of ?r] =>
    replace r with (bridge_loop tokens keyMatches decodeError cfg arch os
                      (loaded_history env) (connected cfg (after_load cfg env w)))
      by (by destruct (bridge_loop _ _ _ _ _ _ _ _))
  end.
  exists (sets0 ++ sets). rewrite Heq. cbn [connected kv_sets].
  rewrite Hload, <- app_assoc. split; [reflexivity|]. by apply Forall_app.
Qed.

(** X7.  The frame Glimesh pushes for a chat message, an array of two
    [null]s, two strings and an object with the message at
    [result.data.chatMessage], is decoded into that message, text and user
    name: the goroutine sends it to the relay loop, whose first store write
    is the message under the key of the latest chat event, as the JSON
    object with the members [message] and [user.username]. *)
Theorem X7_chat_frame_yields_its_message
    tokens keyMatches decodeError cfg arch byt sub ev user text :
  tokens byt
  = Some (JArray [JNull; JNull; JString sub; JString ev; chat_push user text]) ->
  (forall tag, keyMatches tag tag = true) ->
  keyMatches (go "message") (go "user") = false ->
  let msg := {| Message := text; User := {| Username := user |} |} in
  forall w,
    receive tokens keyMatches decodeError cfg (ReadMessage MessageText byt) w
    = Ret (Some msg) (frame_logged cfg byt w)
    /\ forall event_err history_err h,
         bridge_step tokens keyMatches decodeError cfg arch
           (SocketRead (ReadMessage MessageText byt) event_err history_err) h w
         = on_wsmsg arch cfg msg event_err history_err h (frame_logged cfg byt w)
         /\ exists more,
              kv_sets (world_of
                         (bridge_step tokens keyMatches decodeError cfg arch
                            (SocketRead (ReadMessage MessageText byt)
                                        event_err history_err) h w))
              = kv_sets w
                  ++ (chatEventKey cfg,
                      go "{'message':" ++ jsoniter.WriteString text
                        ++ go ",'user':{'username':" ++ jsoniter.WriteString user
                        ++ go "}}") :: more.
Proof.
  intros Htok Hrefl Hmu msg w.
  assert (Unmarshal_payload tokens keyMatches decodeError byt
          = inr {| msgType := None; msgSubType := None; subId := sub;
                   subType := ev;
                   result := {| Result := {| Result_Data :=
                                  {| Data_ChatMessage := msg |} |} |} |}) as Hdec.
  { unfold Unmarshal_payload. rewrite Htok. unfold chat_push.
    cbn [bind_elements bind_element bind_eface_string_ptr bind_eface_string
         mbind option_bind zero_Payload msgType msgSubType subId subType result].
    unfold bind_ChatMessageResult, bind_ChatMessageResultBody, bind_ChatMessageData,
      bind_ChatMessage, bind_ChatUser.
    repeat first
      [ rewrite Hrefl
      | rewrite Hmu
      | progress unfold bind_struct
      | progress cbn [bind_members bind_string mbind option_bind
                      zero_ChatMessageResult Result Result_Data Data_ChatMessage
                      zero_ChatMessage User Message Username] ].
    reflexivity. }
  assert (receive tokens keyMatches decodeError cfg (ReadMessage MessageText byt) w
          = Ret (Some msg) (frame_logged cfg byt w)) as Hrecv.
  { rewrite receive_text, Hdec. reflexivity. }
  split; [exact Hrecv|]. intros event_err history_err h.
  assert (bridge_step tokens keyMatches decodeError cfg arch
            (SocketRead (ReadMessage MessageText byt) event_err history_err) h w
          = on_wsmsg arch cfg msg event_err history_err h (frame_logged cfg byt w))
    as Hstep.
  { cbn [bridge_step]. by rewrite (bind_Ret _ _ _ _ _ Hrecv). }
  split; [exact Hstep|].
  assert (go "{'message':" ++ jsoniter.WriteString text
            ++ go ",'user':{'username':" ++ jsoniter.WriteString user ++ go "}}"
          = stored_message msg) as -> by (by rewrite stored_message_eq).
  rewrite Hstep, on_wsmsg_eq.
  destruct (truncated arch cfg (h ++ [msg])) as [p|h'];
    cbn [world_of event_world wsmsg_world kv_sets frame_logged]; by eexists.
Qed.

Lemma X7_witness :
  (chat_tokens (go "hello")
   = Some (JArray [JNull; JNull; JString (go "__absinthe__:doc:1");
                   JString (go "subscription:data");
                   chat_push (go "ash") (go "hello")])
   /\ (forall tag, sample_keyMatches tag tag = true)
   /\ sample_keyMatches (go "message") (go "user") = false)
  /\ receive chat_tokens sample_keyMatches sample_decodeError (sample_flags 6)
       (ReadMessage MessageText (go "hello")) empty_World
     = Ret (Some (sample_message "hello"))
           (frame_logged (sample_flags 6) (go "hello") empty_World).
Proof.
  assert (chat_tokens (go "hello")
          = Some (JArray [JNull; JNull; JString (go "__absinthe__:doc:1");
                          JString (go "subscription:data");
                          chat_push (go "ash") (go "hello")])) as H1
    by reflexivity.
  assert (forall tag, sample_keyMatches tag tag = true) as H2
    by (intros tag; apply bool_decide_eq_true_2; reflexivity).
  assert (sample_keyMatches (go "message") (go "user") = false) as H3
    by reflexivity.
  split; [by repeat split|].
  exact (proj1 (X7_chat_frame_yields_its_message
                  chat_tokens sample_keyMatches sample_decodeError (sample_flags 6)
                  Bits64 (go "hello") _ _ _ _ H1 H2 H3 empty_World)).
Defined.

(** X8.  At a level other than debug and trace the process logs nothing
    as long as no call fails: frames that are decoded, heartbeats that are
    written, chat messages that are stored and requests that are sent leave
    the log as it is.  At the levels debug and trace every frame read from
    the socket is logged, its text as the message of the entry. *)
Theorem X8_frames_are_logged_at_debug_only tokens keyMatches decodeError cfg arch :
  (loglevel cfg ≠ go "debug" -> loglevel cfg ≠ go "trace" ->
   forall os h w,
     forallb (uneventful tokens keyMatches decodeError) os = true ->
     log (world_of (bridge_loop tokens keyMatches decodeError cfg arch os h w))
     = log w)
  /\ (loglevel cfg = go "debug" \/ loglevel cfg = go "trace" ->
      forall mtyp byt w,
      exists more,
        log (world_of (receive tokens keyMatches decodeError cfg
                         (ReadMessage mtyp byt) w))
        = log w ++ {| entry_Level := DebugLevel; entry_Message := byt;
                      entry_Data := [] |} :: more).
Proof.
  split.
  - intros Hd Ht os h w Hos. apply bridge_loop_quiet; [|exact Hos].
    by apply debug_disabled.
  - intros Hlevel mtyp byt w. apply debug_enabled in Hlevel.
    rewrite receive_eq. cbn [world_of].
    assert (log (frame_logged cfg byt w)
            = log w ++ [{| entry_Level := DebugLevel; entry_Message := byt;
                           entry_Data := [] |}]) as Hlog.
    { unfold frame_logged, logged. by rewrite Hlevel. }
    destruct mtyp; cbn [receive_world].
    + destruct (Unmarshal_payload tokens keyMatches decodeError byt).
      * eexists. cbn [with_entry log]. rewrite Hlog, <- app_assoc. reflexivity.
      * exists []. exact Hlog.
    + exists []. exact Hlog.
Qed.

Lemma X8_witness :
  (loglevel (sample_flags 6) ≠ go "debug"
   /\ loglevel (sample_flags 6) ≠ go "trace"
   /\ forallb (uneventful chat_tokens sample_keyMatches sample_decodeError)
              sample_run_of_process = true)
  /\ log (world_of (bridge_loop chat_tokens sample_keyMatches sample_decodeError
                      (sample_flags 6) Bits64 sample_run_of_process []
                      empty_World))
     = [].
Proof.
  assert (loglevel (sample_flags 6) ≠ go "debug") as H1 by discriminate.
  assert (loglevel (sample_flags 6) ≠ go "trace") as H2 by discriminate.
  assert (forallb (uneventful chat_tokens sample_keyMatches sample_decodeError)
                  sample_run_of_process = true) as H3 by reflexivity.
  split; [by repeat split|].
  exact (proj1 (X8_frames_are_logged_at_debug_only
                  chat_tokens sample_keyMatches sample_decodeError (sample_flags 6)
                  Bits64) H1 H2 sample_run_of_process [] empty_World H3).
Defined.



(** X10.  With a capacity of at least 0, the relay loop handles any
    sequence of heartbeats that are written, inbound messages and requests
    from Kilovolt, in any order and whatever the store and the socket
    answer to the writes of messages and requests, and returns.  Heartbeats
    and requests leave the history and the store alone: without an inbound
    message the history is the one the loop started with, also when that
    one is longer than the capacity.  With inbound messages the history is
    the last [capacity] of the old history followed by the messages, it is
    no longer than the capacity (empty for the capacity 0), and it is the
    value of the last write handed to the store. *)
Theorem X10_history_over_any_events arch cfg evs h w :
  0 <= chatHistorySize cfg ->
  len h <= chatHistorySize cfg \/ len h < MaxInt arch ->
  existsb heartbeat_failed evs = false ->
  exists h' w',
    relay_loop arch cfg evs h w = Ret h' w'
    /\ (messages_of evs = [] -> h' = h /\ kv w' = kv w /\ kv_sets w' = kv_sets w)
    /\ (messages_of evs ≠ [] ->
        h' = last_n (Z.to_nat (chatHistorySize cfg)) (h ++ messages_of evs)
        /\ len h' <= chatHistorySize cfg
        /\ (chatHistorySize cfg = 0 -> h' = [])
        /\ last (kv_sets w') = Some (chatHistoryKey cfg, stored_history h')).
Proof.
  intros Hcap Hlen Hticks.
  destruct (relay_loop_history arch cfg evs h w Hcap Hlen Hticks)
    as (w' & Hrun & Hnone & Hsome).
  eexists _, w'. split; [exact Hrun|]. split.
  - intros Hmsgs. rewrite Hmsgs. split; [reflexivity|]. by apply Hnone.
  - intros Hmsgs. specialize (Hsome Hmsgs).
    destruct (messages_of evs) as [|m msgs]; [done|].
    cbn [history_after] in *. split; [reflexivity|].
    assert (len (last_n (Z.to_nat (chatHistorySize cfg)) (h ++ m :: msgs))
            <= chatHistorySize cfg) as Hbound.
    { unfold len. rewrite last_n_length. lia. }
    split; [exact Hbound|]. split; [|exact Hsome].
    intros Hzero. apply nil_length_inv. unfold len in Hbound. lia.
Qed.

Lemma X10_witness :
  (0 <= chatHistorySize (sample_flags 2)
   /\ (len [msg_A; msg_B; msg_C] <= chatHistorySize (sample_flags 2)
       \/ len [msg_A; msg_B; msg_C] < MaxInt Bits64)
   /\ existsb heartbeat_failed
        [Tick None; WsMsg (sample_message "hello") None None;
         Incoming {| Key := []; Value := go "hi" |} None] = false)
  /\ exists w',
       relay_loop Bits64 (sample_flags 2)
         [Tick None; WsMsg (sample_message "hello") None None;
          Incoming {| Key := []; Value := go "hi" |} None]
         [msg_A; msg_B; msg_C] empty_World
       = Ret [msg_C; sample_message "hello"] w'.
Proof.
  assert (0 <= chatHistorySize (sample_flags 2)) as H1 by (cbn; lia).
  assert (len [msg_A; msg_B; msg_C] <= chatHistorySize (sample_flags 2)
          \/ len [msg_A; msg_B; msg_C] < MaxInt Bits64) as H2
    by (right; reflexivity).
  assert (existsb heartbeat_failed
            [Tick None; WsMsg (sample_message "hello") None None;
             Incoming {| Key := []; Value := go "hi" |} None] = false) as H3
    by reflexivity.
  split; [by repeat split|].
  destruct (X10_history_over_any_events Bits64 (sample_flags 2) _ _ empty_World
              H1 H2 H3) as (h' & w' & Hrun & _ & Hsome).
  exists w'. rewrite Hrun. f_equal.
  destruct Hsome as (-> & _); [discriminate|]. reflexivity.
Defined.




(** X13.  In the text the program embeds in a send request, every double
    quote comes directly after a backslash, for every payload of the
    request.  The escaping touches nothing else: a payload without a double
    quote is only trimmed, its backslashes included. *)
Theorem X13_quotes_of_the_text_follow_a_backslash v :
  (forall p q, clean_message v = p ++ dquote :: q -> exists p', p = p' ++ [backslash])
  /\ quotes_escaped false (clean_message v) = true
  /\ (~ In dquote v -> clean_message v = strings.TrimSpace v).
Proof.
  split; [|split].
  - intros p q Heq.
    destruct (quotes_escaped_spec _ _ _ _ (clean_message_quotes v) Heq)
      as [[_ Hb]|Hp]; [discriminate | exact Hp].
  - apply clean_message_quotes.
  - intros Hplain. unfold clean_message.
    by rewrite Replace_quotes, escape_quotes_plain.
Qed.

Lemma X13_witness :
  clean_message (go "say 'hi'") = go "say \" ++ dquote :: go "hi\'"
  /\ exists p', go "say \" = p' ++ [backslash].
Proof.
  assert (clean_message (go "say 'hi'") = go "say \" ++ dquote :: go "hi\'") as H
    by (vm_compute; reflexivity).
  split; [exact H|].
  exact (proj1 (X13_quotes_of_the_text_follow_a_backslash (go "say 'hi'")) _ _ H).
Defined.

(** X14.  The text of a send request is empty exactly when the payload
    of the request is empty or white space only; the program sends the
    request all the same, with the empty text in the mutation. *)
Theorem X14_blank_requests_are_sent_empty arch cfg rpc write_err evs h w :
  (clean_message (Value rpc) = [] <-> white_space (Value rpc))
  /\ (white_space (Value rpc) ->
      exists w',
        relay_loop arch cfg (Incoming rpc write_err :: evs) h w
        = relay_loop arch cfg evs h w'
        /\ ws_writes w' = ws_writes w ++ [send_frame (channelID cfg) []]).
Proof.
  split; [apply clean_message_nil|]. intros Hblank.
  exists (incoming_world cfg rpc write_err w).
  split; [apply relay_loop_incoming|].
  cbn [incoming_world ws_writes]. by rewrite (proj2 (clean_message_nil _) Hblank).
Qed.

Lemma X14_witness :
  clean_message (go "  " ++ nbsp ++ ["010"%char]) = []
  /\ exists w',
       relay_loop Bits64 (sample_flags 6)
         [Incoming {| Key := []; Value := go "  " ++ nbsp ++ ["010"%char] |} None]
         [] empty_World
       = relay_loop Bits64 (sample_flags 6) [] [] w'
       /\ ws_writes w' = [send_frame 42 []].
Proof.
  assert (clean_message (go "  " ++ nbsp ++ ["010"%char]) = []) as H
    by (vm_compute; reflexivity).
  split; [exact H|].
  destruct (X14_blank_requests_are_sent_empty Bits64 (sample_flags 6)
              {| Key := []; Value := go "  " ++ nbsp ++ ["010"%char] |} None []
              [] empty_World) as [Hiff Hsend].
  exact (Hsend (proj1 Hiff H)).
Defined.

(** X15.  With a capacity of at least 0 and a stored history of a length
    an [int] holds, the process does not panic, and it ends, with status 1,
    in these cases only: a required flag is missing, a checked call of the
    start-up fails, a read from the socket fails, or a heartbeat cannot be
    written.  Otherwise it handles everything that happens, and the history
    it holds then is the stored one when no chat message came, and the last
    [capacity] of the stored history followed by the chat messages the
    goroutine sent otherwise. *)
Theorem X15_the_process_ends_on_fatal_errors_only
    tokens keyMatches decodeError cfg arch env os w :
  0 <= chatHistorySize cfg ->
  len (loaded_history env) < MaxInt arch ->
  if flags_given cfg && calls_succeed env && negb (existsb fatal os)
  then exists w',
         main tokens keyMatches decodeError cfg arch env os w
         = Ret (history_after (chatHistorySize cfg) (loaded_history env)
                  (messages_of (events_of tokens keyMatches decodeError os))) w'
  else exists w', main tokens keyMatches decodeError cfg arch env os w = Exit 1 w'.
Proof.
  intros Hcap Hlen. unfold main.
  pose proof (startup_outcome cfg env w) as Hstart.
  destruct (flags_given cfg && calls_succeed env); cbn [andb].
  2:{ destruct Hstart as (w' & Hstart). exists w'. by apply bind_Exit. }
  rewrite (bind_Ret _ _ _ _ _ Hstart).
  pose proof (bridge_loop_outcome tokens keyMatches decodeError cfg arch os
                (loaded_history env) (connected cfg (after_load cfg env w))
                Hcap (or_intror Hlen)) as Hloop.
  by destruct (existsb fatal os).
Qed.

Lemma X15_witness :
  (0 <= chatHistorySize (sample_flags 2)
   /\ len (loaded_history env_with_history) < MaxInt Bits64)
  /\ exists w',
       main chat_tokens sample_keyMatches sample_decodeError (sample_flags 2) Bits64
            env_with_history sample_run_of_process empty_World
       = Ret [msg_C; sample_message "hello"] w'.
Proof.
  assert (0 <= chatHistorySize (sample_flags 2)) as H1 by (cbn; lia).
  assert (len (loaded_history env_with_history) < MaxInt Bits64) as H2
    by reflexivity.
  split; [by split|].
  exact (X15_the_process_ends_on_fatal_errors_only
           chat_tokens sample_keyMatches sample_decodeError (sample_flags 2) Bits64
           env_with_history sample_run_of_process empty_World H1 H2).
Defined.

(** X16.  The text handed to the store for a chat message is the JSON
    object with the member [message] and, inside [user], the member
    [username], in this order and without white space; the text for a
    history is the array of the texts of its messages.  Both determine what
    was stored: two messages, or two histories, with the same text are the
    same. *)
Theorem X16_stored_texts_determine_what_was_stored :
  (forall m,
      stored_message m
      = go "{'message':" ++ jsoniter.WriteString (Message m)
          ++ go ",'user':{'username':" ++ jsoniter.WriteString (Username (User m))
          ++ go "}}")
  /\ (forall h,
         stored_history h
         = go "[" ++ jsoniter.join (map stored_message h) ++ go "]")
  /\ (forall m1 m2, stored_message m1 = stored_message m2 -> m1 = m2)
  /\ (forall h1 h2, stored_history h1 = stored_history h2 -> h1 = h2).
Proof.
  split; [apply stored_message_eq|]. split; [apply stored_history_eq|].
  split; [|apply stored_history_inj].
  intros m1 m2 H. apply (stored_message_inj m1 m2 [] []). by rewrite !app_nil_r.
Qed.
